(** * Minitorch CUDA backend: index arithmetic and the four kernels

    A shallow embedding of [minitorch/cuda_ops.py]: the elementwise map and
    zip kernels, the block-wise tree reduction, the tiled batched matrix
    multiply, the host wrappers of [CudaOps] that allocate the output
    view and launch them, and the two practice kernels with their entry
    points; and of the loop of [project/run_tensor.py].  Python integers are [Z] ([//] is [Z.div], [%] is
    [Z.modulo]: both round towards minus infinity, as in Python).  Device
    memory is a list of flat arrays and a tensor holds the address of its
    storage; a kernel is the list of stores a thread, or a block of threads
    that meet at barriers, makes given the memory it reads.  The cells are
    of an arbitrary type with [0.0], [+] and [*]; the [float64] of the
    source is one, with its rounded operations. *)

From Stdlib Require Floats.PrimFloat.
From stdpp Require Import base numbers list.

Local Open Scope Z_scope.

(** ** Python containers *)

(** [l[i]] on a Python sequence: a negative [i] counts from the end, an index
    outside [-len, len) raises [IndexError] (here [None]). *)
Definition py_index (len : nat) (i : Z) : option nat :=
  if bool_decide (0 <= i < Z.of_nat len) then Some (Z.to_nat i)
  else if bool_decide (- Z.of_nat len <= i < 0) then Some (Z.to_nat (i + Z.of_nat len))
  else None.

Definition getitem {A} (l : list A) (i : Z) : option A :=
  n ← py_index (length l) i; l !! n.

Definition setitem {A} (l : list A) (i : Z) (v : A) : option (list A) :=
  n ← py_index (length l) i; Some (<[n := v]> l).

(** [l[:-2]]: everything but the last two entries. *)
Definition but_last2 {A} (l : list A) : list A := take (length l - 2)%nat l.

(** [range(0, stop, step)] for a positive [step]. *)
Definition range_step (stop step : Z) : list Z :=
  (λ q, q * step) <$> seqZ 0 ((stop + step - 1) / step).

(** ** Machine integers *)

(** A store into a [numba.int32] array keeps the low 32 bits, read back as a
    signed number. *)
Definition int32 (z : Z) : Z := (z + 2 ^ 31) mod 2 ^ 32 - 2 ^ 31.

(** ** Index arithmetic *)

Module TensorData.

(** Modelled from the spec: [prod] of [tensor_data.py] is not under src/; the
    size of a shape is the product of all its entries (data model, Shape). *)
Definition prod (shape : list Z) : Z := foldr Z.mul 1 shape.

(** Modelled from the spec: [to_index] of [tensor_data.py] is not under src/.
    It decomposes a flat position into a coordinate by successive integer
    division and modulo from the last dimension to the first.  The pair is
    (what is left of the ordinal, the coordinate filled so far); the
    recursion returns from the last dimension first. *)
Fixpoint to_index_from (ordinal : Z) (shape : list Z) : Z * list Z :=
  match shape with
  | [] => (ordinal, [])
  | sh :: rest =>
      let '(cur_ord, out_index) := to_index_from ordinal rest in
      (cur_ord / sh, cur_ord mod sh :: out_index)
  end.

(** Modelled from the spec: [to_index] proper, the coordinate that the
    decomposition above leaves in the buffer. *)
Definition to_index (ordinal : Z) (shape : list Z) : list Z :=
  snd (to_index_from ordinal shape).

(** Modelled from the spec: [index_to_position] of [tensor_data.py] is not
    under src/.  It is the dot product of coordinate and strides (over the
    dimensions both have). *)
Fixpoint index_to_position (index strides : list Z) : Z :=
  match index, strides with
  | ind :: index', stride :: strides' => ind * stride + index_to_position index' strides'
  | _, _ => 0
  end.

(** Modelled from the spec: [broadcast_index] of [tensor_data.py] is not
    under src/.  The small shape is right-aligned under the big one; an
    aligned dimension copies the big coordinate when the small extent is
    greater than 1 and is 0 otherwise; the leading dimensions that only the
    big shape has are dropped.  The big coordinate is not changed. *)
Definition broadcast_index (big_index big_shape shape : list Z) : list Z :=
  zip_with (λ c s, if bool_decide (1 < s) then c else 0)
    (drop (length big_shape - length shape)%nat big_index) shape.

(** Modelled from the spec: [shape_broadcast] of [tensor_data.py] is not
    under src/.  Right-aligned, every paired dimension must be equal or one
    of the two must be 1; the result takes the larger of each pair, and a
    missing leading dimension counts as 1.  [None] is the error raised for
    incompatible shapes.  Both shapes are given reversed here. *)
Fixpoint shape_broadcast_rev (a_rev b_rev : list Z) : option (list Z) :=
  match a_rev, b_rev with
  | [], _ => Some b_rev
  | _, [] => Some a_rev
  | x :: a', y :: b' =>
      if bool_decide (x = y ∨ x = 1 ∨ y = 1)
      then c ← shape_broadcast_rev a' b'; Some (Z.max x y :: c)
      else None
  end.

(** Modelled from the spec: [shape_broadcast] proper, on shapes in their
    own order. *)
Definition shape_broadcast (shape1 shape2 : list Z) : option (list Z) :=
  reverse <$> shape_broadcast_rev (reverse shape1) (reverse shape2).

(** Modelled from the spec: [strides_from_shape] of [tensor_data.py] is not
    under src/.  The standard contiguous strides of a shape: the stride of a
    dimension is the product of the extents after it (row-major). *)
Fixpoint strides_from_shape (shape : list Z) : list Z :=
  match shape with
  | [] => []
  | _ :: rest => prod rest :: strides_from_shape rest
  end.

End TensorData.

Import TensorData.

(** A coordinate of a shape: one entry per dimension, each within its
    extent. *)
Definition in_shape (index shape : list Z) : Prop :=
  Forall2 (λ c s, 0 <= c < s) index shape.

(** ** Scalars *)

(** The [float64] cells of a storage.  The kernels use the literal [0.0], and
    the matrix multiply also [+] and [*]; the functions given to map, zip and
    reduce are arbitrary.  Nothing is assumed of these operations unless a
    statement says so. *)
Class Scalar (T : Type) := { zero : T; add : T → T → T; mul : T → T → T }.

Global Instance Z_scalar : Scalar Z := {| zero := 0; add := Z.add; mul := Z.mul |}.

(** The cells as the source has them: IEEE 754 binary64, every sum and
    product rounded to the nearest value, ties to even. *)
Global Instance float64_scalar : Scalar PrimFloat.float :=
  {| zero := PrimFloat.zero; add := PrimFloat.add; mul := PrimFloat.mul |}.

(** [2 ^ 53], from which on [x + 1] is rounded back to [x]. *)
Definition two53 : PrimFloat.float :=
  Nat.iter 53 (PrimFloat.mul PrimFloat.two) PrimFloat.one.

(** ** Device memory *)

(** Modelled from the spec: the Tensor View of [tensor.py]/[tensor_data.py]
    is not under src/.  A view is a storage with a shape and strides; several
    views may share one storage, so a view holds the address of its storage
    in device memory (a list of flat arrays). *)
Record Tensor := mkTensor { storage : nat; shape : list Z; strides : list Z }.

(** Modelled from the spec: the [size] of a view is the product of its
    shape. *)
Definition size (t : Tensor) : Z := prod (shape t).

(** One store of a kernel into global memory: array, position, value. *)
Abbreviation write T := (nat * Z * T)%type.

Abbreviation heap T := (list (list T)).

(** Reading [shape[i]] or [strides[i]] inside a kernel. *)
Definition item (l : list Z) (i : Z) : Z := default 0 (getitem l i).

(** Modelled from the spec: [MAX_DIMS] of [tensor_data.py] is not under src/.
    It is the maximum rank, the capacity of the coordinate buffers; the
    design does not give its value, so it is a parameter of the model. *)
Class Limits := { MAX_DIMS : nat }.

(** The limit the examples are run with. *)
Definition limits_32 : Limits := {| MAX_DIMS := 32 |}.

(** The coordinate buffers are [cuda.local.array(MAX_DIMS, numba.int32)]:
    of what [to_index] and [broadcast_index] put there, the first [MAX_DIMS]
    entries have a slot, and each is kept as int32.  The slots after the
    rank of the view are never filled. *)
Definition local_int32 `{!Limits} (index : list Z) : list Z :=
  int32 <$> take MAX_DIMS index.

(** A [cuda.local.array] is not initialised: what a slot holds before it is
    written is whatever the device left there.  It is a parameter of the
    model: [fresh_int32 blockIdx threadIdx slot] is the int32 that the slot
    holds in a new buffer of that thread. *)
Class LocalMemory := { fresh_int32 : Z → Z → nat → Z }.

(** The buffers the examples are run with held 0 everywhere. *)
Definition fresh_zero : LocalMemory := {| fresh_int32 := λ _ _ _, 0 |}.

(** All [MAX_DIMS] slots of a new buffer of a thread, and of the buffer
    after [to_index] has put a coordinate into its first slots. *)
Definition local_fresh `{!Limits} `{!LocalMemory} (blockIdx threadIdx : Z) : list Z :=
  fresh_int32 blockIdx threadIdx <$> seq 0 MAX_DIMS.

Definition local_filled `{!Limits} (buffer index : list Z) : list Z :=
  local_int32 index ++ drop (length index) buffer.

(** [buffer[i]] and [buffer[i] = v] on all the slots of a buffer: a negative
    [i] counts from the end of the [MAX_DIMS] slots.  A slot outside the
    buffer is undefined on the device; the model reads 0 and stores nothing
    there. *)
Definition local_item (buffer : list Z) (i : Z) : Z :=
  default 0 (getitem buffer i).

Definition local_set_item (buffer : list Z) (i v : Z) : list Z :=
  default buffer (setitem buffer i v).

Section device.
Context {T : Type} `{!Scalar T} `{!Limits} `{!LocalMemory}.

(** [storage[pos]] on the device.  An access outside the array is undefined
    there; the model reads [zero] and drops the store. *)
Definition load (h : heap T) (a : nat) (pos : Z) : T :=
  default zero (st ← h !! a; getitem st pos).

Definition store (h : heap T) (w : write T) : heap T :=
  let '(a, pos, v) := w in
  match st ← h !! a; setitem st pos v with
  | Some st' => <[a := st']> h
  | None => h
  end.

Definition commit (ws : list (write T)) (h : heap T) : heap T := foldl store h ws.

(** A launch runs the kernel once for every entry of the grid (a thread for
    map and zip, a block for reduce and matrix multiply); each run reads the
    memory it finds and its stores are applied to it. *)
Definition launch {B} (grid : list B) (kernel : B → heap T → list (write T))
    (h : heap T) : heap T :=
  foldl (λ h b, commit (kernel b h) h) h grid.

(** The element of a view at a coordinate. *)
Definition tensor_get (h : heap T) (t : Tensor) (index : list Z) : T :=
  load h (storage t) (index_to_position index (strides t)).

(** Two memories that differ at most in the array [out]. *)
Definition same_outside (out : nat) (h h' : heap T) : Prop :=
  length h = length h' ∧ ∀ a, a ≠ out → h !! a = h' !! a.

(** Stores that all go to the array [out]. *)
Definition into (out : nat) (ws : list (write T)) : Prop :=
  Forall (λ w, w.1.1 = out) ws.

(** *** Elementwise kernels *)

(** The body of [_map] for the thread [threadIdx] of block [blockIdx]. *)
Definition _map (fn : T → T)
    (out : nat) (out_shape out_strides : list Z) (out_size : Z)
    (in_storage : nat) (in_shape in_strides : list Z)
    (blockIdx blockDim threadIdx : Z) (h : heap T) : list (write T) :=
  let i := blockIdx * blockDim + threadIdx in
  if bool_decide (i < out_size) then
    let out_index := local_int32 (to_index i out_shape) in
    let in_index := local_int32 (broadcast_index out_index out_shape in_shape) in
    [(out, index_to_position out_index out_strides,
      fn (load h in_storage (index_to_position in_index in_strides)))]
  else [].

Definition tensor_map (fn : T → T) := _map fn.

(** The body of [_zip] for the thread [threadIdx] of block [blockIdx]. *)
Definition _zip (fn : T → T → T)
    (out : nat) (out_shape out_strides : list Z) (out_size : Z)
    (a_storage : nat) (a_shape a_strides : list Z)
    (b_storage : nat) (b_shape b_strides : list Z)
    (blockIdx blockDim threadIdx : Z) (h : heap T) : list (write T) :=
  let i := blockIdx * blockDim + threadIdx in
  if bool_decide (i < out_size) then
    let out_index := local_int32 (to_index i out_shape) in
    let a_index := local_int32 (broadcast_index out_index out_shape a_shape) in
    let b_index := local_int32 (broadcast_index out_index out_shape b_shape) in
    let a_data := load h a_storage (index_to_position a_index a_strides) in
    let b_data := load h b_storage (index_to_position b_index b_strides) in
    [(out, index_to_position out_index out_strides, fn a_data b_data)]
  else [].

Definition tensor_zip (fn : T → T → T) := _zip fn.

(** The threads of a one-dimensional launch [f[blockspergrid, threadsperblock]],
    and a thread-level kernel run on one of them. *)
Definition threads (blockspergrid threadsperblock : Z) : list (Z * Z) :=
  blockIdx ← seqZ 0 blockspergrid;
  threadIdx ← seqZ 0 threadsperblock;
  [(blockIdx, threadIdx)].

Definition on_thread (blockDim : Z) (kernel : Z → Z → Z → heap T → list (write T))
    (t : Z * Z) : heap T → list (write T) :=
  kernel t.1 blockDim t.2.

(** *** Reduction kernel *)

(** The block of [_reduce] with index [blockIdx], run by [blockDim] threads
    that meet at the barriers: all stage their cell, then the rounds of the
    tree combine follow one another.  In a round the cells written (multiples
    of twice the step) are not the cells other threads read (odd multiples of
    the step), so a round is a simultaneous update of the cache. *)
Section reduce.
Context (fn : T → T → T).
Context (out : nat) (out_shape out_strides : list Z) (out_size : Z).
Context (a_storage : nat) (a_shape a_strides : list Z).
Context (reduce_dim : Z) (reduce_value : T).
Context (blockIdx blockDim : Z) (h : heap T).

Definition BLOCK_DIM : Z := 1024.

(** The buffer [out_index] of the thread [pos] after line 333: [to_index]
    has filled the slots of the dimensions of [out_shape] with the block's
    output coordinate, and the slot [reduce_dim] is overwritten with the
    thread's source coordinate, computed from what the slot held. *)
Definition reduce_buffer (pos : Z) : list Z :=
  let out_index := local_filled (local_fresh blockIdx pos) (to_index blockIdx out_shape) in
  local_set_item out_index reduce_dim
    (int32 (local_item out_index reduce_dim * BLOCK_DIM + pos)).

(** The coordinate that [index_to_position] reads from that buffer: one
    slot for every dimension. *)
Definition reduce_index (pos : Z) : list Z :=
  take (length out_shape) (reduce_buffer pos).

(** The threads that pass both guards: they stage a source value and take
    part in the tree combine. *)
Definition reduce_staged (pos : Z) : bool :=
  bool_decide (blockIdx < out_size)
  && bool_decide (local_item (reduce_buffer pos) reduce_dim < item a_shape reduce_dim).

(** The shared cache holds one cell per thread of the block, each set to
    [reduce_value] by its thread before anything else (line 328). *)
Definition cache_get (cache : list T) (pos : Z) : T :=
  default reduce_value (getitem cache pos).

Definition reduce_stage : list T :=
  (λ pos, if reduce_staged pos
          then load h a_storage (index_to_position (reduce_index pos) a_strides)
          else reduce_value) <$> seqZ 0 blockDim.

Definition reduce_round (idx : Z) (cache : list T) : list T :=
  (λ pos, if reduce_staged pos && bool_decide (pos mod (2 ^ idx * 2) = 0)
          then fn (cache_get cache pos) (cache_get cache (pos + 2 ^ idx))
          else cache_get cache pos) <$> seqZ 0 blockDim.

(** [while 2**idx < BLOCK_DIM: ...; idx += 1]. *)
Fixpoint reduce_loop (fuel : nat) (idx : Z) (cache : list T) : list T :=
  match fuel with
  | O => cache
  | S fuel =>
      if bool_decide (2 ^ idx < BLOCK_DIM)
      then reduce_loop fuel (idx + 1) (reduce_round idx cache)
      else cache
  end.

Definition _reduce : list (write T) :=
  let cache := reduce_loop (Z.to_nat BLOCK_DIM) 0 reduce_stage in
  pos ← seqZ 0 blockDim;
  if bool_decide (blockIdx < out_size) && bool_decide (pos = 0)
  then [(out, index_to_position (reduce_index pos) out_strides, cache_get cache 0)]
  else [].

End reduce.

Definition tensor_reduce (fn : T → T → T) := _reduce fn.

(** The values [x q] for [q] in [l] combined by [fn], nested to the right
    and closed by [start]. *)
Definition combine_right (fn : T → T → T) (start : T) (x : Z → T) (l : list Z) : T :=
  foldr (λ q acc, fn (x q) acc) start l.

(** The tree the rounds of a block build over the first [n] of the values
    [x 0], [x 1], ...: after [rounds] rounds the cell [pos] of a thread
    inside the bound holds its own tree combined with the tree of the cell
    one step to its right; the cell of a thread outside holds [start]. *)
Fixpoint tree_combine (fn : T → T → T) (start : T) (x : Z → T) (n : Z)
    (rounds : nat) (pos : Z) : T :=
  match rounds with
  | O => if bool_decide (pos < n) then x pos else start
  | S r =>
      if bool_decide (pos < n)
      then fn (tree_combine fn start x n r pos)
              (tree_combine fn start x n r (pos + 2 ^ Z.of_nat r))
      else start
  end.

Arguments tree_combine : simpl never.

(** *** Matrix multiply kernel *)

(** A shared tile, one cell per thread [(pi, pj)] of the block, and the
    per-thread accumulators, kept the same way. *)
Definition tile_make (dim_x dim_y : Z) (f : Z → Z → T) : list (list T) :=
  (λ pi, (λ pj, f pi pj) <$> seqZ 0 dim_y) <$> seqZ 0 dim_x.

Definition tile_get (t : list (list T)) (pi pj : Z) : T :=
  default zero (row ← getitem t pi; getitem row pj).

(** The block [blockIdx = (x, y, z)] of [_tensor_matrix_multiply], run by
    [blockDim = (x, y)] threads.  Each pass of the loop over the shared
    dimension fills both tiles, meets at the barrier, lets every thread add
    its products, and meets at the second barrier. *)
Section matrix_multiply.
Context (out : nat) (out_shape out_strides : list Z) (out_size : Z).
Context (a_storage : nat) (a_shape a_strides : list Z).
Context (b_storage : nat) (b_shape b_strides : list Z).
Context (blockIdx : Z * Z * Z) (blockDim : Z * Z) (h : heap T).

(** [BLOCK_DIM = 32] of this kernel (the reduction has its own). *)
Definition mm_BLOCK_DIM : Z := 32.

Definition mm_a_batch_stride : Z :=
  if bool_decide (1 < item a_shape 0) then item a_strides 0 else 0.

Definition mm_b_batch_stride : Z :=
  if bool_decide (1 < item b_shape 0) then item b_strides 0 else 0.

Definition mm_batch : Z := blockIdx.2.
Definition mm_i (pi : Z) : Z := blockIdx.1.1 * blockDim.1 + pi.
Definition mm_j (pj : Z) : Z := blockIdx.1.2 * blockDim.2 + pj.

Definition mm_a_shared (idx : Z) : list (list T) :=
  tile_make blockDim.1 blockDim.2 (λ pi pj,
    if bool_decide (mm_i pi < item a_shape 1) && bool_decide (idx + pj < item a_shape 2)
    then load h a_storage
           (mm_a_batch_stride * mm_batch + item a_strides 1 * mm_i pi
            + item a_strides 2 * (idx + pj))
    else zero).

Definition mm_b_shared (idx : Z) : list (list T) :=
  tile_make blockDim.1 blockDim.2 (λ pi pj,
    if bool_decide (mm_j pj < item b_shape 2) && bool_decide (idx + pi < item b_shape 1)
    then load h b_storage
           (mm_b_batch_stride * mm_batch + item b_strides 1 * (idx + pi)
            + item b_strides 2 * mm_j pj)
    else zero).

(** One pass: [accum] of every thread after the inner loop over [k]. *)
Definition mm_pass (accum : list (list T)) (idx : Z) : list (list T) :=
  let a_shared := mm_a_shared idx in
  let b_shared := mm_b_shared idx in
  tile_make blockDim.1 blockDim.2 (λ pi pj,
    foldl (λ accum k,
             if bool_decide (idx + k < item a_shape 2)
             then add accum (mul (tile_get a_shared pi k) (tile_get b_shared k pj))
             else accum)
          (tile_get accum pi pj) (seqZ 0 mm_BLOCK_DIM)).

Definition mm_accum : list (list T) :=
  foldl mm_pass (tile_make blockDim.1 blockDim.2 (λ _ _, zero))
        (range_step (item a_shape 2) mm_BLOCK_DIM).

Definition _tensor_matrix_multiply : list (write T) :=
  pi ← seqZ 0 blockDim.1;
  pj ← seqZ 0 blockDim.2;
  if bool_decide (mm_batch < item out_shape 0)
     && bool_decide (mm_i pi < item out_shape 1)
     && bool_decide (mm_j pj < item out_shape 2)
  then [(out,
         item out_strides 0 * mm_batch + item out_strides 1 * mm_i pi
         + item out_strides 2 * mm_j pj,
         tile_get mm_accum pi pj)]
  else [].

End matrix_multiply.

(** The products [x k * y k] for [k] below [K] added up from [0.0] in the
    order of [k]: the sum the accumulator of a thread goes through. *)
Definition dot (x y : Z → T) (K : Z) : T :=
  foldl (λ acc k, add acc (mul (x k) (y k))) zero (seqZ 0 K).

(** The launchable kernel, with the signature of the source ([out_size] is
    passed and not used). *)
Definition tensor_matrix_multiply
    (out : nat) (out_shape out_strides : list Z) (out_size : Z)
    (a_storage : nat) (a_shape a_strides : list Z)
    (b_storage : nat) (b_shape b_strides : list Z)
    (blockIdx : Z * Z * Z) (blockDim : Z * Z) (h : heap T) : list (write T) :=
  _tensor_matrix_multiply out out_shape out_strides
    a_storage a_shape a_strides b_storage b_shape b_strides blockIdx blockDim h.

(** *** Practice kernels *)

(** The block [blockIdx] of [_sum_practice], run by [blockDim] threads, one
    per cell of the shared cache.  A thread inside [size] stages its cell of
    [a], the others stage [0.0]; the five rounds of [for stride in
    [1, 2, 4, 8, 16]] follow, each a simultaneous update as in the
    reduction (only the threads inside [size] take part); thread 0, when it
    is inside [size], stores the cell 0 at [out[blockIdx]]. *)
Section sum_practice.
Context (out a : nat) (size : Z).
Context (blockIdx blockDim : Z) (h : heap T).

Definition sum_i (pos : Z) : Z := blockIdx * blockDim + pos.

Definition sum_stage : list T :=
  (λ pos, if bool_decide (sum_i pos < size) then load h a (sum_i pos) else zero)
    <$> seqZ 0 blockDim.

Definition sum_round (cache : list T) (stride : Z) : list T :=
  (λ pos, if bool_decide (sum_i pos < size) && bool_decide (pos mod (2 * stride) = 0)
          then add (cache_get zero cache pos) (cache_get zero cache (pos + stride))
          else cache_get zero cache pos) <$> seqZ 0 blockDim.

Definition _sum_practice : list (write T) :=
  let cache := foldl sum_round sum_stage [1; 2; 4; 8; 16] in
  pos ← seqZ 0 blockDim;
  if bool_decide (sum_i pos < size) && bool_decide (pos = 0)
  then [(out, blockIdx, cache_get zero cache 0)]
  else [].

End sum_practice.

(** [t[pi, pj]] and [t[pi, pj] = v] on a shared tile with the index
    checked: [None] outside the tile, where the access is an [IndexError]
    when the kernel runs with checked indices and is undefined on the
    device. *)
Definition tile_at (t : list (list T)) (pi pj : Z) : option T :=
  row ← getitem t pi; getitem row pj.

Definition tile_put (t : list (list T)) (pi pj : Z) (v : T) : option (list (list T)) :=
  row ← getitem t pi; row' ← setitem row pj v; setitem t pi row'.

(** The threads [(threadIdx.x, threadIdx.y)] of a two-dimensional block. *)
Definition block_threads (blockDim : Z * Z) : list (Z * Z) :=
  tx ← seqZ 0 blockDim.1;
  ty ← seqZ 0 blockDim.2;
  [(tx, ty)].

(** The block [blockIdx = (x, y)] of [_mm_practice].  The threads that pass
    the bounds check each put one cell of [a] and one of [b] into the shared
    tiles, at [(i, j)]; after the barrier each adds up its row of the one
    tile against its column of the other, [size] cells of each, and stores
    the sum.  The tiles have [BLOCK_DIM] rows and columns whatever [size]
    is, so the block has stores to make only when every access to them is
    inside a tile.  (The tiles start with [0.0] here; a cell is read only
    after a thread has filled it.) *)
Section mm_practice.
Context (out a b : nat) (size : Z).
Context (blockIdx blockDim : Z * Z) (h : heap T).

(** [BLOCK_DIM = 32] of this kernel. *)
Definition mmp_BLOCK_DIM : Z := 32.

Definition mmp_i (tx : Z) : Z := blockIdx.1 * mmp_BLOCK_DIM + tx.
Definition mmp_j (ty : Z) : Z := blockIdx.2 * mmp_BLOCK_DIM + ty.

(** The threads that do not return at [if i >= size or j >= size]. *)
Definition mmp_inside (tx ty : Z) : bool :=
  negb (bool_decide (size <= mmp_i tx) || bool_decide (size <= mmp_j ty)).

(** [a_shared] and [b_shared] at the barrier: both are filled from the same
    position [i * size + j] of their source. *)
Definition mmp_shared (src : nat) : option (list (list T)) :=
  foldl (λ shared t,
           shared ← shared;
           if mmp_inside t.1 t.2
           then tile_put shared (mmp_i t.1) (mmp_j t.2)
                  (load h src (mmp_i t.1 * size + mmp_j t.2))
           else Some shared)
        (Some (tile_make mmp_BLOCK_DIM mmp_BLOCK_DIM (λ _ _, zero)))
        (block_threads blockDim).

(** [accum] of the thread at [(i, j)] after [for k in range(size)]. *)
Definition mmp_accum (a_shared b_shared : list (list T)) (i j : Z) : option T :=
  foldl (λ accum k,
           accum ← accum;
           x ← tile_at a_shared i k;
           y ← tile_at b_shared k j;
           Some (add accum (mul x y)))
        (Some zero) (seqZ 0 size).

Definition _mm_practice : option (list (write T)) :=
  a_shared ← mmp_shared a;
  b_shared ← mmp_shared b;
  mjoin <$> mapM (λ t,
    if mmp_inside t.1 t.2 then
      let i := mmp_i t.1 in
      let j := mmp_j t.2 in
      accum ← mmp_accum a_shared b_shared i j;
      Some [(out, i * size + j, accum)]
    else Some []) (block_threads blockDim).

End mm_practice.

End device.

(** ** Host side *)

(** What host code raises: the error of the broadcast check
    ([ShapeMismatchError] in the design), a failed [assert], and an index
    outside a Python sequence. *)
Inductive exn := ShapeMismatchError | AssertionError | IndexError.

(** Host code runs on the device memory and may raise. *)
Definition M (T A : Type) : Type := heap T → (exn + A) * heap T.

Global Instance M_ret {T} : MRet (M T) := λ A x h, (inr x, h).

Global Instance M_bind {T} : MBind (M T) := λ A B f m h,
  match m h with
  | (inl e, h') => (inl e, h')
  | (inr x, h') => f x h'
  end.

Definition raise {T A} (e : exn) : M T A := λ h, (inl e, h).

Definition or_raise {T A} (e : exn) (o : option A) : M T A :=
  match o with Some x => mret x | None => raise e end.

Definition run_kernel {T B} (grid : list B) (kernel : B → heap T → list (write T)) : M T () :=
  λ h, (inr (), launch grid kernel h).

Definition THREADS_PER_BLOCK : Z := 32.

(** Modelled from the spec: [Tensor.zeros] is not under src/.  The [zeros]
    constructor of the Tensor View makes a new storage of [size] cells [0.0]
    and a view of it with the standard contiguous strides. *)
Definition zeros {T} `{!Scalar T} (shape : list Z) : M T Tensor := λ h,
  (inr (mkTensor (length h) shape (strides_from_shape shape)),
   h ++ [replicate (Z.to_nat (prod shape)) zero]).

Module CudaOps.
Section ops.
Context {T : Type} `{!Scalar T} `{!Limits} `{!LocalMemory}.

Definition map (fn : T → T) (a : Tensor) (out : option Tensor) : M T Tensor :=
  out ← match out with None => zeros (shape a) | Some out => mret out end;
  let threadsperblock := THREADS_PER_BLOCK in
  let blockspergrid := (size out + THREADS_PER_BLOCK - 1) / THREADS_PER_BLOCK in
  _ ← run_kernel (threads blockspergrid threadsperblock)
        (on_thread threadsperblock
           (tensor_map fn (storage out) (shape out) (strides out) (size out)
              (storage a) (shape a) (strides a)));
  mret out.

Definition zip (fn : T → T → T) (a b : Tensor) : M T Tensor :=
  c_shape ← or_raise ShapeMismatchError (shape_broadcast (shape a) (shape b));
  out ← zeros c_shape;
  let threadsperblock := THREADS_PER_BLOCK in
  let blockspergrid := (size out + (threadsperblock - 1)) / threadsperblock in
  _ ← run_kernel (threads blockspergrid threadsperblock)
        (on_thread threadsperblock
           (tensor_zip fn (storage out) (shape out) (strides out) (size out)
              (storage a) (shape a) (strides a)
              (storage b) (shape b) (strides b)));
  mret out.

Definition reduce (fn : T → T → T) (start : T) (a : Tensor) (dim : Z) : M T Tensor :=
  a_dim ← or_raise IndexError (getitem (shape a) dim);
  out_shape ← or_raise IndexError (setitem (shape a) dim ((a_dim - 1) / 1024 + 1));
  out_a ← zeros out_shape;
  let threadsperblock := 1024 in
  let blockspergrid := size out_a in
  _ ← run_kernel (seqZ 0 blockspergrid)
        (λ blockIdx,
           tensor_reduce fn (storage out_a) (shape out_a) (strides out_a) (size out_a)
             (storage a) (shape a) (strides a) dim start blockIdx threadsperblock);
  mret out_a.

(** Modelled from the spec: [Tensor.contiguous] is not under src/, and the
    design only says that a 2D operand is treated as one batch of size 1.
    It is taken to copy the view into a new storage in standard layout,
    which the backend does with its own map of the identity. *)
Definition contiguous (a : Tensor) : M T Tensor := map (λ x, x) a None.

(** Modelled from the spec: [Tensor.view] is not under src/.  It is taken to
    read the same storage (views may share one storage) under the new shape
    with the standard strides of that shape. *)
Definition view (a : Tensor) (shape : list Z) : Tensor :=
  mkTensor (storage a) shape (strides_from_shape shape).

(** Lines 110-117: "Make these always be a 3 dimensional multiply". *)
Definition make_3d (a b : Tensor) : M T (Tensor * Tensor * bool) :=
  let both_2d := 0 in
  '(a, both_2d) ←
    (if bool_decide (length (shape a) = 2%nat)
     then a' ← contiguous a;
          mret (view a' [1; item (shape a) 0; item (shape a) 1], both_2d + 1)
     else mret (a, both_2d));
  '(b, both_2d) ←
    (if bool_decide (length (shape b) = 2%nat)
     then b' ← contiguous b;
          mret (view b' [1; item (shape b) 0; item (shape b) 1], both_2d + 1)
     else mret (b, both_2d));
  mret (a, b, bool_decide (both_2d = 2)).

(** The blocks of the launch [tensor_matrix_multiply[blockspergrid, ...]]. *)
Definition blocks (blockspergrid : Z * Z * Z) : list (Z * Z * Z) :=
  z ← seqZ 0 blockspergrid.2;
  y ← seqZ 0 blockspergrid.1.2;
  x ← seqZ 0 blockspergrid.1.1;
  [(x, y, z)].

Definition matrix_multiply (a b : Tensor) : M T Tensor :=
  '(a, b, both_2d) ← make_3d a b;
  ls ← or_raise ShapeMismatchError
         (shape_broadcast (but_last2 (shape a)) (but_last2 (shape b)));
  a_rows ← or_raise IndexError (getitem (shape a) (-2));
  b_cols ← or_raise IndexError (getitem (shape b) (-1));
  let ls := ls ++ [a_rows] ++ [b_cols] in
  a_cols ← or_raise IndexError (getitem (shape a) (-1));
  b_rows ← or_raise IndexError (getitem (shape b) (-2));
  if bool_decide (a_cols = b_rows) then
    out ← zeros ls;
    out_1 ← or_raise IndexError (getitem (shape out) 1);
    out_2 ← or_raise IndexError (getitem (shape out) 2);
    out_0 ← or_raise IndexError (getitem (shape out) 0);
    let blockspergrid :=
      ((out_1 + (THREADS_PER_BLOCK - 1)) / THREADS_PER_BLOCK,
       (out_2 + (THREADS_PER_BLOCK - 1)) / THREADS_PER_BLOCK,
       out_0) in
    (* threadsperblock = (THREADS_PER_BLOCK, THREADS_PER_BLOCK, 1): the
       kernel reads the first two *)
    let threadsperblock := (THREADS_PER_BLOCK, THREADS_PER_BLOCK) in
    _ ← run_kernel (blocks blockspergrid)
          (λ blockIdx,
             tensor_matrix_multiply (storage out) (shape out) (strides out) (size out)
               (storage a) (shape a) (strides a)
               (storage b) (shape b) (strides b) blockIdx threadsperblock);
    if (both_2d : bool)
    then out_1 ← or_raise IndexError (getitem (shape out) 1);
         out_2 ← or_raise IndexError (getitem (shape out) 2);
         mret (view out [out_1; out_2])
    else mret out
  else raise AssertionError.

End ops.
End CudaOps.

(** ** Practice entry points *)

(** [(size,) = a.shape] and [(size, _) = a.shape]: unpacking a tuple of
    another length raises [ValueError], here [None]. *)
Definition unpack_1 (shape : list Z) : option Z :=
  match shape with [size] => Some size | _ => None end.

Definition unpack_2 (shape : list Z) : option (Z * Z) :=
  match shape with [size; other] => Some (size, other) | _ => None end.

(** Modelled from the spec: [TensorData] and its [to_cuda_] are not under
    src/.  [TensorData(storage, shape)] moved to the device is a Tensor View
    of a new array holding the given cells, with the standard contiguous
    strides of the shape. *)
Definition tensor_data {T} (cells : list T) (shape : list Z) (h : heap T)
    : Tensor * heap T :=
  (mkTensor (length h) shape (strides_from_shape shape), h ++ [cells]).

(** The blocks of a launch whose grid is given as one number. *)
Definition blocks_x (blockspergrid : Z) : list (Z * Z) :=
  x ← seqZ 0 blockspergrid; [(x, 0)].

Section practice.
Context {T : Type} `{!Scalar T}.

(** [sum_practice]: a two-cell output, whatever the length of [a], and one
    block for every started chunk of 32 cells, plus one when the length is
    a multiple of 32. *)
Definition sum_practice (a : Tensor) (h : heap T) : option (Tensor * heap T) :=
  size ← unpack_1 (shape a);
  let threadsperblock := THREADS_PER_BLOCK in
  let blockspergrid := size / THREADS_PER_BLOCK + 1 in
  let '(out, h) := tensor_data ((λ _, zero) <$> seqZ 0 2) [2] h in
  Some (out,
        launch (seqZ 0 blockspergrid)
          (λ blockIdx,
             _sum_practice (storage out) (storage a) size blockIdx threadsperblock)
          h).

(** A launch of a kernel whose blocks may have no defined stores; the
    launch has a result when every block has. *)
Definition launch_checked {B} (grid : list B)
    (kernel : B → heap T → option (list (write T))) (h : heap T) : option (heap T) :=
  foldl (λ h b, h ← h; ws ← kernel b h; Some (commit ws h)) (Some h) grid.

(** [mm_practice]: a [(size, size)] output and a single block of 32 by 32
    threads; [size] is the first extent of [a].  [None] when the call has no
    result: the unpacking raises, or the block leaves its tiles. *)
Definition mm_practice (a b : Tensor) (h : heap T) : option (Tensor * heap T) :=
  '(size, _) ← unpack_2 (shape a);
  let threadsperblock := (THREADS_PER_BLOCK, THREADS_PER_BLOCK) in
  let blockspergrid := 1 in
  let '(out, h) := tensor_data ((λ _, zero) <$> seqZ 0 (size * size)) [size; size] h in
  h ← launch_checked (blocks_x blockspergrid)
         (λ blockIdx,
            _mm_practice (storage out) (storage a) (storage b) size blockIdx
              threadsperblock)
         h;
  Some (out, h).

End practice.

(** ** What host code leaves in place *)

(** Host code that leaves the first [n] arrays of the memory as they are
    and takes no array away; [P] holds of what it returns. *)
Definition keeps {T A} (n : nat) (P : A → Prop) (m : M T A) : Prop :=
  ∀ h, (n <= length h)%nat →
    take n (m h).2 = take n h ∧ (length h <= length (m h).2)%nat
    ∧ ∀ x, (m h).1 = inr x → P x.

(** ** Training loop *)

(** The loop of [TensorTrain.train] in [project/run_tensor.py].  The model,
    the optimizer and the tensors it works on are not under src/: what an
    epoch does with them is given by three parameters, the forward pass with
    its total loss (lines 80-85), the update of the parameters by the
    backward pass and the optimizer step (lines 77, 84 and 89), and the
    count of correct predictions (line 94).  The loop keeps the parameters,
    the list [losses], and the calls of [log_fn] made so far, each with its
    four arguments; [losses] is passed as it is at the call. *)
Section train.
Context {Params Out Loss : Type}.
Context (forward_loss : Params → Out * Loss).
Context (update : Params → Params).
Context (count_correct : Out → Z).

Definition train_epoch (max_epochs : Z)
    (st : Params * list Loss * list (Z * Loss * Z * list Loss)) (epoch : Z)
    : Params * list Loss * list (Z * Loss * Z * list Loss) :=
  let '(params, losses, log) := st in
  let '(out, total_loss) := forward_loss params in
  let losses := losses ++ [total_loss] in
  let params := update params in
  if bool_decide (epoch mod 10 = 0) || bool_decide (epoch = max_epochs)
  then
    let correct := count_correct out in
    (params, losses, log ++ [(epoch, total_loss, correct, losses)])
  else (params, losses, log).

Definition train (init : Params) (max_epochs : Z)
    : Params * list Loss * list (Z * Loss * Z * list Loss) :=
  foldl (train_epoch max_epochs) (init, [], []) (seqZ 1 max_epochs).

End train.

(** * Properties *)

Section index_arithmetic.

Lemma prod_pos shape : Forall (λ s, 0 < s) shape → 0 < prod shape.
Proof. induction 1; simpl; [lia|nia]. Qed.

Lemma prod_pos_inv shape :
  Forall (λ s, 0 <= s) shape → 0 < prod shape → Forall (λ s, 0 < s) shape.
Proof.
  induction 1 as [|s shape Hs Hall IH]; intros Hp; [constructor|].
  simpl in Hp.
  assert (0 <= prod shape) by (clear -Hall; induction Hall; simpl; lia).
  assert (s ≠ 0 ∧ prod shape ≠ 0) as [??] by (split; intros Hz; rewrite Hz in Hp; lia).
  constructor; [lia|]. apply IH. lia.
Qed.

Lemma to_index_from_fst ordinal shape :
  Forall (λ s, 0 < s) shape → fst (to_index_from ordinal shape) = ordinal / prod shape.
Proof.
  induction 1 as [|s shape Hs Hall IH]; simpl.
  - by rewrite Z.div_1_r.
  - destruct (to_index_from ordinal shape) as [cur idx]; simpl in *. subst cur.
    pose proof (prod_pos _ Hall).
    rewrite Z.div_div by lia. f_equal. lia.
Qed.

Lemma to_index_cons ordinal s shape :
  Forall (λ s, 0 < s) shape →
  to_index ordinal (s :: shape) = (ordinal / prod shape) mod s :: to_index ordinal shape.
Proof.
  intros Hall. unfold to_index. simpl.
  pose proof (to_index_from_fst ordinal shape Hall) as Hfst.
  destruct (to_index_from ordinal shape) as [cur idx]; simpl in *. by subst.
Qed.

Lemma length_to_index ordinal shape : length (to_index ordinal shape) = length shape.
Proof.
  unfold to_index. induction shape as [|s shape IH]; simpl; [done|].
  destruct (to_index_from ordinal shape); simpl in *. by rewrite IH.
Qed.

Lemma to_index_in_shape ordinal shape :
  Forall (λ s, 0 < s) shape → in_shape (to_index ordinal shape) shape.
Proof.
  induction 1 as [|s shape Hs Hall IH]; [constructor|].
  rewrite to_index_cons by done. constructor; [|done].
  by apply Z.mod_pos_bound.
Qed.

(** The position of a decoded coordinate under the standard strides is the
    ordinal modulo the size. *)
Lemma position_to_index_mod ordinal shape :
  Forall (λ s, 0 < s) shape →
  index_to_position (to_index ordinal shape) (strides_from_shape shape)
  = ordinal mod prod shape.
Proof.
  induction 1 as [|s shape Hs Hall IH].
  - simpl. by rewrite Z.mod_1_r.
  - rewrite to_index_cons by done. simpl. rewrite IH.
    pose proof (prod_pos _ Hall).
    rewrite (Z.mul_comm s), Z.rem_mul_r by lia. lia.
Qed.

Lemma to_index_mod ordinal shape :
  Forall (λ s, 0 < s) shape →
  to_index (ordinal mod prod shape) shape = to_index ordinal shape.
Proof.
  intros Hall. revert ordinal.
  induction Hall as [|s shape Hs Hall IH]; intros ordinal; [done|].
  pose proof (prod_pos _ Hall) as Hp.
  rewrite !to_index_cons by done. simpl.
  rewrite (Z.mul_comm s), Z.rem_mul_r by lia.
  rewrite (Z.mul_comm (prod shape)). f_equal.
  - rewrite Z.add_comm, Z.div_add_l by lia.
    rewrite (Z.div_small (ordinal mod _)) by (by apply Z.mod_pos_bound).
    rewrite Z.add_0_r. by rewrite Z.mod_mod by lia.
  - rewrite <- IH, <- (IH ordinal). f_equal.
    rewrite Z.mod_add by lia. by rewrite Z.mod_mod by lia.
Qed.

Lemma position_in_shape index shape :
  in_shape index shape →
  0 <= index_to_position index (strides_from_shape shape) < prod shape.
Proof.
  induction 1 as [|c s index shape Hc Hall IH]; simpl; [lia|]. nia.
Qed.

Lemma in_shape_pos index shape : in_shape index shape → Forall (λ s, 0 < s) shape.
Proof. induction 1; constructor; [lia|done]. Qed.

(** Decoding the position of a coordinate gives the coordinate back. *)
Lemma to_index_position index shape :
  in_shape index shape →
  to_index (index_to_position index (strides_from_shape shape)) shape = index.
Proof.
  induction 1 as [|c s index shape Hc Hall IH]; [done|].
  pose proof (in_shape_pos _ _ Hall) as Hpos.
  pose proof (prod_pos _ Hpos) as Hp.
  pose proof (position_in_shape _ _ Hall) as Hr.
  rewrite to_index_cons by done. simpl. f_equal.
  - rewrite Z.div_add_l by lia. rewrite Z.div_small by done.
    rewrite Z.add_0_r. apply Z.mod_small. lia.
  - rewrite <- to_index_mod by done.
    rewrite Z.add_comm, Z.mod_add by lia.
    rewrite Z.mod_small by done. done.
Qed.

End index_arithmetic.

(** A position below the size is the position of its own coordinate. *)
Lemma position_of_to_index (S : list Z) (i : Z) :
  Forall (λ s, 0 <= s) S →
  0 <= i < prod S →
  index_to_position (to_index i S) (strides_from_shape S) = i.
Proof.
  intros Hnn Hi.
  rewrite position_to_index_mod by (apply prod_pos_inv; [done|lia]).
  by apply Z.mod_small.
Qed.

(** ** Python containers and machine integers *)

Section containers.
Context {A : Type}.
Implicit Types l : list A.

Lemma getitem_nonneg l i :
  0 <= i < Z.of_nat (length l) → getitem l i = l !! Z.to_nat i.
Proof.
  intros Hi. unfold getitem, py_index. by rewrite bool_decide_true by done.
Qed.

Lemma getitem_None l i :
  Z.of_nat (length l) <= i → getitem l i = None.
Proof.
  intros Hi. unfold getitem, py_index.
  by rewrite !bool_decide_false by lia.
Qed.

Lemma setitem_nonneg l i v :
  0 <= i < Z.of_nat (length l) → setitem l i v = Some (<[Z.to_nat i := v]> l).
Proof.
  intros Hi. unfold setitem, py_index. by rewrite bool_decide_true by done.
Qed.

Lemma setitem_None l i v :
  Z.of_nat (length l) <= i → setitem l i v = None.
Proof.
  intros Hi. unfold setitem, py_index.
  by rewrite !bool_decide_false by lia.
Qed.

Lemma setitem_length l i v l' : setitem l i v = Some l' → length l' = length l.
Proof.
  unfold setitem. destruct (py_index _ _); simpl; [|done].
  intros [= <-]. apply length_insert.
Qed.

Lemma py_index_lt (len : nat) i n : py_index len i = Some n → (n < len)%nat.
Proof. unfold py_index. repeat case_bool_decide; intros [= <-]; lia. Qed.

Lemma getitem_fmap_seqZ (f : Z → A) n i :
  0 <= i < n → getitem (f <$> seqZ 0 n) i = Some (f i).
Proof.
  intros Hi. rewrite getitem_nonneg by (rewrite length_fmap, length_seqZ; lia).
  rewrite list_lookup_fmap, lookup_seqZ_lt by lia. simpl. f_equal. f_equal. lia.
Qed.

End containers.

Lemma int32_small z : - 2 ^ 31 <= z < 2 ^ 31 → int32 z = z.
Proof. intros Hz. unfold int32. rewrite Z.mod_small; lia. Qed.

Lemma local_int32_small `{!Limits} index :
  (length index <= MAX_DIMS)%nat →
  Forall (λ c, - 2 ^ 31 <= c < 2 ^ 31) index → local_int32 index = index.
Proof.
  intros Hlen. unfold local_int32. rewrite take_ge by done. clear Hlen.
  induction 1 as [|c index Hc _ IH]; [done|].
  by rewrite fmap_cons, int32_small, IH.
Qed.

(** ** Device memory *)

Section memory.
Context {T : Type} `{!Scalar T} `{!Limits}.
Implicit Types (h : heap T) (w : write T) (ws : list (write T)).

Lemma same_outside_refl out h : same_outside out h h.
Proof. done. Qed.

Lemma same_outside_trans out h1 h2 h3 :
  same_outside out h1 h2 → same_outside out h2 h3 → same_outside out h1 h3.
Proof.
  intros [Hl1 H1] [Hl2 H2]. split; [congruence|].
  intros a Ha. by rewrite H1, H2.
Qed.

Lemma load_same_outside out h h' a pos :
  same_outside out h h' → a ≠ out → load h a pos = load h' a pos.
Proof. intros [_ Heq] Ha. unfold load. by rewrite Heq. Qed.

Lemma store_same_outside out h w : w.1.1 = out → same_outside out h (store h w).
Proof.
  destruct w as [[a pos] v]; simpl. intros ->. unfold store.
  destruct (_ ≫= _); [|done]. split.
  - by rewrite length_insert.
  - intros a Ha. by rewrite list_lookup_insert_ne.
Qed.

Lemma commit_same_outside out ws h : into out ws → same_outside out h (commit ws h).
Proof.
  unfold commit. intros Hws. revert h.
  induction Hws as [|w ws Hw _ IH]; intros h; simpl; [done|].
  eapply same_outside_trans; [by apply store_same_outside|apply IH].
Qed.

Lemma commit_app ws1 ws2 h : commit (ws1 ++ ws2) h = commit ws2 (commit ws1 h).
Proof. unfold commit. apply foldl_app. Qed.

(** The stores of a launch go where the stores of its kernel go. *)
Lemma launch_same_outside {B} out (grid : list B) kernel h :
  (∀ b h', b ∈ grid → into out (kernel b h')) →
  same_outside out h (launch grid kernel h).
Proof.
  unfold launch. revert h.
  induction grid as [|b grid IH]; intros h Hk; simpl; [done|].
  eapply same_outside_trans.
  - apply commit_same_outside, Hk. left.
  - apply IH. intros b' h' Hb'. apply Hk. by right.
Qed.

(** A kernel that reads nothing of [out] sees the memory of the start of
    the launch, whatever ran before it. *)
Lemma launch_commit {B} out (grid : list B) kernel h :
  (∀ b h', b ∈ grid → same_outside out h h' → kernel b h' = kernel b h) →
  (∀ b, b ∈ grid → into out (kernel b h)) →
  launch grid kernel h = commit (grid ≫= λ b, kernel b h) h.
Proof.
  intros Hread Hinto. unfold launch.
  assert (∀ h', same_outside out h h' →
    foldl (λ h b, commit (kernel b h) h) h' grid
    = commit (grid ≫= λ b, kernel b h) h') as Hgen; [|by apply Hgen].
  induction grid as [|b grid IH]; intros h' Hh'; simpl; [done|].
  rewrite commit_app, Hread by (done || left).
  rewrite IH; [done| | |].
  - intros b' h'' Hb'. apply Hread. by right.
  - intros b' Hb'. apply Hinto. by right.
  - eapply same_outside_trans; [done|]. apply commit_same_outside, Hinto. left.
Qed.

Lemma store_buffer_length h w a :
  length <$> (store h w !! a) = length <$> (h !! a).
Proof.
  destruct w as [[a' pos] v]. unfold store.
  destruct (h !! a') as [st|] eqn:Hst; simpl; [|done].
  destruct (setitem st pos v) as [st'|] eqn:Hset; [|done].
  destruct (decide (a' = a)) as [->|Hne].
  - rewrite list_lookup_insert_eq by (by eapply lookup_lt_Some).
    rewrite Hst. simpl. f_equal. by eapply setitem_length.
  - by rewrite list_lookup_insert_ne.
Qed.

Lemma commit_buffer_length ws h a :
  length <$> (commit ws h !! a) = length <$> (h !! a).
Proof.
  unfold commit. revert h. induction ws as [|w ws IH]; intros h; simpl; [done|].
  by rewrite IH, store_buffer_length.
Qed.

Lemma load_store_eq h out pos v st :
  h !! out = Some st → 0 <= pos < Z.of_nat (length st) →
  load (store h (out, pos, v)) out pos = v.
Proof.
  intros Hst Hpos. unfold load, store. rewrite Hst. simpl.
  rewrite setitem_nonneg by done.
  rewrite list_lookup_insert_eq by (by eapply lookup_lt_Some). simpl.
  rewrite getitem_nonneg by (rewrite length_insert; lia).
  rewrite list_lookup_insert_eq by lia. done.
Qed.

Lemma load_store_ne h w a pos :
  (w.1.1, w.1.2) ≠ (a, pos) → 0 <= pos → 0 <= w.1.2 →
  load (store h w) a pos = load h a pos.
Proof.
  destruct w as [[a' pos'] v]; simpl. intros Hne Hpos Hpos'.
  unfold load, store.
  destruct (h !! a') as [st|] eqn:Hst; simpl; [|done].
  destruct (setitem st pos' v) as [st'|] eqn:Hset; [|done].
  destruct (decide (a' = a)) as [->|Ha].
  - rewrite list_lookup_insert_eq by (by eapply lookup_lt_Some).
    rewrite Hst. simpl.
    destruct (decide (Z.of_nat (length st) <= pos')) as [Hge|Hlt].
    { by rewrite setitem_None in Hset. }
    rewrite setitem_nonneg in Hset by lia. injection Hset as <-.
    destruct (decide (Z.of_nat (length st) <= pos)) as [Hge'|Hlt'].
    { by rewrite !getitem_None by (rewrite ?length_insert; lia). }
    rewrite !getitem_nonneg by (rewrite ?length_insert; lia).
    rewrite list_lookup_insert_ne; [done|]. intros Heq.
    apply Hne. f_equal. lia.
  - by rewrite list_lookup_insert_ne.
Qed.

(** What a launch leaves in a cell of [out]: the value stored there, when
    every store to that cell carries the same value. *)
Lemma load_commit ws h out pos v st :
  h !! out = Some st → 0 <= pos < Z.of_nat (length st) →
  Forall (λ w, 0 <= w.1.2) ws →
  (out, pos, v) ∈ ws →
  (∀ v', (out, pos, v') ∈ ws → v' = v) →
  load (commit ws h) out pos = v.
Proof.
  intros Hst Hpos. induction ws as [|w ws IH] using rev_ind; intros Hnn Hin Huniq.
  { by apply elem_of_nil in Hin. }
  rewrite commit_app. simpl.
  apply Forall_app in Hnn as [Hnn Hw]. rewrite Forall_singleton in Hw.
  destruct (decide ((w.1.1, w.1.2) = (out, pos))) as [Heq|Hne].
  - destruct w as [[a' pos'] v']. simpl in Heq. injection Heq as -> ->.
    rewrite (Huniq v') by (apply elem_of_app; right; by apply list_elem_of_singleton).
    pose proof (commit_buffer_length ws h out) as Hlen. rewrite Hst in Hlen.
    destruct (commit ws h !! out) as [st'|] eqn:Hst'; [|done].
    simpl in Hlen. injection Hlen as Hlen.
    eapply load_store_eq; [done|lia].
  - rewrite load_store_ne by (done || lia).
    apply IH; [done| |].
    + apply elem_of_app in Hin as [Hin|Hin]; [done|].
      apply list_elem_of_singleton in Hin. subst w. by destruct Hne.
    + intros v' Hv'. apply Huniq, elem_of_app. by left.
Qed.

(** The same for a whole launch whose kernel reads nothing of [out]. *)
Lemma launch_cell {B} (grid : list B) kernel out h st (b0 : B) pos v :
  h !! out = Some st → 0 <= pos < Z.of_nat (length st) →
  (∀ b h', b ∈ grid → same_outside out h h' → kernel b h' = kernel b h) →
  (∀ b w, b ∈ grid → w ∈ kernel b h → w.1.1 = out ∧ 0 <= w.1.2) →
  b0 ∈ grid → (out, pos, v) ∈ kernel b0 h →
  (∀ b v', b ∈ grid → (out, pos, v') ∈ kernel b h → v' = v) →
  load (launch grid kernel h) out pos = v.
Proof.
  intros Hst Hpos Hread Hws Hb0 Hin Huniq.
  rewrite (launch_commit out); [|done|].
  - eapply load_commit; [done|done|..].
    + apply Forall_forall. intros w Hw.
      apply list_elem_of_bind in Hw as (b & Hw & Hb). by eapply Hws.
    + apply list_elem_of_bind. eauto.
    + intros v' Hv'. apply list_elem_of_bind in Hv' as (b & Hw & Hb). eauto.
  - intros b Hb. apply Forall_forall. intros w Hw. by eapply Hws.
Qed.

End memory.

(** ** Elementwise kernels *)

Section elementwise.
Context {T : Type} `{!Scalar T} `{!Limits}.
Implicit Types (h : heap T).

Lemma elem_of_threads blockspergrid threadsperblock blockIdx threadIdx :
  (blockIdx, threadIdx) ∈ threads blockspergrid threadsperblock
  ↔ 0 <= blockIdx < blockspergrid ∧ 0 <= threadIdx < threadsperblock.
Proof.
  unfold threads. rewrite list_elem_of_bind. split.
  - intros (x & Hin & Hx). apply list_elem_of_bind in Hin as (y & Hin & Hy).
    apply list_elem_of_singleton in Hin. injection Hin as -> ->.
    apply elem_of_seqZ in Hx, Hy. lia.
  - intros [Hb Ht]. exists blockIdx. split; [|apply elem_of_seqZ; lia].
    apply list_elem_of_bind. exists threadIdx.
    split; [by apply list_elem_of_singleton|apply elem_of_seqZ; lia].
Qed.

(** The launch of map and zip has a thread for every position below
    [size]. *)
Lemma thread_of_position size i :
  0 <= i < size →
  (i / THREADS_PER_BLOCK, i mod THREADS_PER_BLOCK)
    ∈ threads ((size + THREADS_PER_BLOCK - 1) / THREADS_PER_BLOCK) THREADS_PER_BLOCK
  ∧ i / THREADS_PER_BLOCK * THREADS_PER_BLOCK + i mod THREADS_PER_BLOCK = i.
Proof.
  unfold THREADS_PER_BLOCK. intros Hi. split.
  - apply elem_of_threads. split; [|by apply Z.mod_pos_bound].
    split; [apply Z.div_pos; lia|].
    apply Z.div_lt_upper_bound; [lia|].
    pose proof (Z.mul_div_le (size + 32 - 1) 32).
    pose proof (Z.mod_pos_bound (size + 32 - 1) 32).
    pose proof (Z.div_mod (size + 32 - 1) 32). lia.
  - pose proof (Z.div_mod i 32). lia.
Qed.

Lemma in_shape_int32 index shape :
  in_shape index shape → Forall (λ s, s <= 2 ^ 31) shape →
  Forall (λ c, - 2 ^ 31 <= c < 2 ^ 31) index.
Proof.
  induction 1 as [|c s index shape Hc Hin IH]; intros Hle; [constructor|].
  apply Forall_cons in Hle as [Hs Hle]. constructor; [lia|auto].
Qed.

Lemma to_index_int32 i shape :
  (length shape <= MAX_DIMS)%nat →
  Forall (λ s, 0 < s) shape → Forall (λ s, s <= 2 ^ 31) shape →
  local_int32 (to_index i shape) = to_index i shape.
Proof.
  intros Hrank Hpos Hle. apply local_int32_small; [by rewrite length_to_index|].
  eapply in_shape_int32; [by apply to_index_in_shape|done].
Qed.

Lemma broadcast_index_int32 big_index big_shape shape :
  (length big_index <= MAX_DIMS)%nat →
  Forall (λ c, - 2 ^ 31 <= c < 2 ^ 31) big_index →
  local_int32 (broadcast_index big_index big_shape shape)
  = broadcast_index big_index big_shape shape.
Proof.
  intros Hrank Hbig. apply local_int32_small.
  { unfold broadcast_index. rewrite length_zip_with, length_drop. lia. }
  unfold broadcast_index.
  apply (Forall_drop _ (length big_shape - length shape)%nat) in Hbig.
  revert Hbig. generalize (drop (length big_shape - length shape)%nat big_index).
  intros l Hl. clear Hrank big_index big_shape. revert shape.
  induction Hl as [|c l Hc Hl IH]; intros [|s shape]; simpl; try constructor.
  - case_bool_decide; lia.
  - apply IH.
Qed.

(** Broadcasting a coordinate into its own shape changes nothing. *)
Lemma broadcast_index_same index shape :
  in_shape index shape → broadcast_index index shape shape = index.
Proof.
  unfold broadcast_index. rewrite Nat.sub_diag, drop_0.
  induction 1 as [|c s index shape Hc Hin IH]; simpl; [done|].
  rewrite IH. case_bool_decide; [done|]. f_equal. lia.
Qed.

(** What the thread of a position below the size stores. *)
Lemma _map_thread fn out out_shape out_strides in_storage in_shape in_strides
    blockIdx blockDim threadIdx h :
  let i := blockIdx * blockDim + threadIdx in
  (length out_shape <= MAX_DIMS)%nat →
  Forall (λ s, 0 < s) out_shape → Forall (λ s, s <= 2 ^ 31) out_shape →
  i < prod out_shape →
  _map fn out out_shape out_strides (prod out_shape) in_storage in_shape in_strides
    blockIdx blockDim threadIdx h
  = [(out, index_to_position (to_index i out_shape) out_strides,
      fn (load h in_storage
            (index_to_position (broadcast_index (to_index i out_shape) out_shape in_shape)
               in_strides)))].
Proof.
  intros i Hrank Hpos Hle Hi. unfold _map. fold i.
  rewrite bool_decide_true by done.
  rewrite to_index_int32 by done.
  rewrite broadcast_index_int32; [done|by rewrite length_to_index|].
  eapply in_shape_int32; [by apply to_index_in_shape|done].
Qed.

Lemma _zip_thread fn out out_shape out_strides a_storage a_shape a_strides
    b_storage b_shape b_strides blockIdx blockDim threadIdx h :
  let i := blockIdx * blockDim + threadIdx in
  (length out_shape <= MAX_DIMS)%nat →
  Forall (λ s, 0 < s) out_shape → Forall (λ s, s <= 2 ^ 31) out_shape →
  i < prod out_shape →
  _zip fn out out_shape out_strides (prod out_shape) a_storage a_shape a_strides
    b_storage b_shape b_strides blockIdx blockDim threadIdx h
  = [(out, index_to_position (to_index i out_shape) out_strides,
      fn (load h a_storage
            (index_to_position (broadcast_index (to_index i out_shape) out_shape a_shape)
               a_strides))
         (load h b_storage
            (index_to_position (broadcast_index (to_index i out_shape) out_shape b_shape)
               b_strides)))].
Proof.
  intros i Hrank Hpos Hle Hi. unfold _zip. fold i.
  rewrite bool_decide_true by done.
  rewrite to_index_int32 by done.
  rewrite !broadcast_index_int32; [done|..]; try (by rewrite length_to_index);
    (eapply in_shape_int32; [by apply to_index_in_shape|done]).
Qed.

(** A launch whose thread [i] stores [val i] at position [i] when [i] is
    below [size], and nothing otherwise, fills the first [size] cells of
    [out] with [val]. *)
Lemma elementwise_launch (kernel : Z → Z → Z → heap T → list (write T))
    out size (val : Z → T) h st :
  (∀ blockIdx threadIdx h',
     same_outside out h h' → 0 <= blockIdx → 0 <= threadIdx →
     let i := blockIdx * THREADS_PER_BLOCK + threadIdx in
     kernel blockIdx THREADS_PER_BLOCK threadIdx h'
     = if bool_decide (i < size) then [(out, i, val i)] else []) →
  h !! out = Some st → size <= Z.of_nat (length st) →
  ∀ i, 0 <= i < size →
    load (launch (threads ((size + THREADS_PER_BLOCK - 1) / THREADS_PER_BLOCK)
                    THREADS_PER_BLOCK)
            (on_thread THREADS_PER_BLOCK kernel) h) out i
    = val i.
Proof.
  intros Hk Hst Hlen i Hi.
  set (grid := threads _ _).
  assert (∀ t h', t ∈ grid → same_outside out h h' →
    on_thread THREADS_PER_BLOCK kernel t h'
    = if bool_decide (t.1 * THREADS_PER_BLOCK + t.2 < size)
      then [(out, t.1 * THREADS_PER_BLOCK + t.2, val (t.1 * THREADS_PER_BLOCK + t.2))]
      else []) as Hk'.
  { intros [bid tid] h' Ht Hh'. apply elem_of_threads in Ht.
    unfold on_thread. simpl. apply Hk; (done || lia). }
  rewrite (launch_commit out).
  - eapply load_commit; [done|lia|..].
    + apply Forall_forall. intros w Hw.
      apply list_elem_of_bind in Hw as (t & Hw & Ht).
      rewrite Hk' in Hw by done.
      destruct t as [bid tid]. apply elem_of_threads in Ht. simpl in Hw.
      case_bool_decide; [|by apply elem_of_nil in Hw].
      apply list_elem_of_singleton in Hw. subst w. simpl.
      unfold THREADS_PER_BLOCK. lia.
    + destruct (thread_of_position size i Hi) as [Ht Heq].
      apply list_elem_of_bind. eexists. split; [|exact Ht].
      rewrite Hk' by done. simpl. rewrite Heq.
      rewrite bool_decide_true by lia. by apply list_elem_of_singleton.
    + intros v' Hv'.
      apply list_elem_of_bind in Hv' as (t & Hw & Ht).
      rewrite Hk' in Hw by done.
      case_bool_decide; [|by apply elem_of_nil in Hw].
      apply list_elem_of_singleton in Hw. by injection Hw as -> ->.
  - intros t h' Ht Hh'. by rewrite !Hk'.
  - intros t Ht. rewrite Hk' by done.
    case_bool_decide; repeat constructor.
Qed.

End elementwise.

(** ** Host wrappers of map and zip *)

Section host_elementwise.
Context {T : Type} `{!Scalar T} `{!Limits}.
Implicit Types (h : heap T) (a b : Tensor).

Lemma load_alloc h (st : list T) (addr : nat) pos :
  (addr < length h)%nat → load (h ++ [st]) addr pos = load h addr pos.
Proof. intros Ha. unfold load. by rewrite lookup_app_l. Qed.

Lemma lookup_alloc h (st : list T) : (h ++ [st]) !! length h = Some st.
Proof. by rewrite list_lookup_middle. Qed.

Lemma map_elements fn a h :
  (storage a < length h)%nat →
  (length (shape a) <= MAX_DIMS)%nat →
  Forall (λ s, s <= 2 ^ 31) (shape a) →
  ∃ out h',
    CudaOps.map fn a None h = (inr out, h')
    ∧ shape out = shape a
    ∧ storage out = length h
    ∧ strides out = strides_from_shape (shape a)
    ∧ same_outside (length h) (h ++ [replicate (Z.to_nat (prod (shape a))) zero]) h'
    ∧ ∀ index, in_shape index (shape a) →
        tensor_get h' out index = fn (tensor_get h a index).
Proof.
  intros Ha Hrank Hle.
  unfold CudaOps.map, mbind, M_bind, mret, M_ret, zeros, run_kernel, tensor_map, size.
  simpl. eexists _, _. split; [done|]. split; [done|]. split; [done|]. split; [done|].
  set (S := shape a). set (h1 := h ++ _).
  split.
  { apply launch_same_outside. intros [bid tid] h' _.
    unfold on_thread, _map. simpl. case_bool_decide; repeat constructor. }
  intros index Hin.
  pose proof (in_shape_pos _ _ Hin) as Hpos.
  pose proof (position_in_shape _ _ Hin) as Hi.
  unfold tensor_get at 1. simpl.
  rewrite (elementwise_launch _ (length h) (prod S)
    (λ i, fn (load h1 (storage a)
      (index_to_position (broadcast_index (to_index i S) S S) (strides a))))
    h1 (replicate (Z.to_nat (prod S)) zero)).
  - rewrite to_index_position, broadcast_index_same by done.
    unfold tensor_get, h1. by rewrite load_alloc.
  - intros bid tid h' Hh' Hbid Htid i.
    unfold THREADS_PER_BLOCK in *.
    case_bool_decide as Hlt.
    + rewrite _map_thread by done. fold i.
      rewrite position_of_to_index by ((split; [lia|done]) || (eapply Forall_impl; [done|]; simpl; lia)).
      by rewrite <- (load_same_outside (length h) h1 h') by (done || lia).
    + unfold _map. by rewrite bool_decide_false.
  - apply lookup_alloc.
  - rewrite length_replicate. lia.
  - done.
Qed.

End host_elementwise.

(** ** Reduction kernel *)

Lemma item_lookup (l : list Z) i d :
  py_index (length l) i = Some d → item l i = default 0 (l !! d).
Proof. intros Hd. unfold item, getitem. by rewrite Hd. Qed.

Lemma py_index_nonneg (len : nat) i :
  0 <= i < Z.of_nat len → py_index len i = Some (Z.to_nat i).
Proof. intros Hi. unfold py_index. by rewrite bool_decide_true. Qed.

Lemma bind_nil_all {A B} (f : A → list B) (l : list A) :
  (∀ x, x ∈ l → f x = []) → l ≫= f = [].
Proof.
  induction l as [|x l IH]; intros Hf; [done|].
  rewrite bind_cons, Hf, IH; [done| |left].
  intros y Hy. apply Hf. by right.
Qed.

(** *** The tree and the sequential combination *)

Section tree.
Context {T : Type} (fn : T → T → T) (start : T).
Context (fn_assoc : ∀ x y z, fn (fn x y) z = fn x (fn y z)).
Context (start_left : ∀ x, fn start x = x) (start_right : ∀ x, fn x start = x).
Implicit Types (x : Z → T).

Lemma combine_right_ext x y l :
  (∀ q, x q = y q) → combine_right fn start x l = combine_right fn start y l.
Proof using Type.
  intros Hxy. unfold combine_right. induction l as [|q l IH]; simpl; [done|].
  by rewrite IH, Hxy.
Qed.

Lemma tree_combine_0 x n pos :
  tree_combine fn start x n 0 pos = if bool_decide (pos < n) then x pos else start.
Proof using Type. done. Qed.

Lemma tree_combine_S x n r pos :
  tree_combine fn start x n (S r) pos
  = if bool_decide (pos < n)
    then fn (tree_combine fn start x n r pos)
            (tree_combine fn start x n r (pos + 2 ^ Z.of_nat r))
    else start.
Proof using Type. done. Qed.

Lemma tree_combine_ext x y n rounds pos :
  (∀ q, x q = y q) →
  tree_combine fn start x n rounds pos = tree_combine fn start y n rounds pos.
Proof using Type.
  intros Hxy. revert pos. induction rounds as [|r IH]; intros pos.
  - by rewrite !tree_combine_0, Hxy.
  - by rewrite !tree_combine_S, !IH.
Qed.

Lemma tree_combine_outside x n rounds pos :
  n <= pos → tree_combine fn start x n rounds pos = start.
Proof using Type.
  intros Hout. destruct rounds;
    rewrite ?tree_combine_0, ?tree_combine_S; by rewrite bool_decide_false by lia.
Qed.

Lemma combine_right_app x l1 l2 :
  combine_right fn start x (l1 ++ l2)
  = fn (combine_right fn start x l1) (combine_right fn start x l2).
Proof using fn_assoc start_left.
  unfold combine_right. induction l1 as [|q l1 IH]; simpl; [by rewrite start_left|].
  by rewrite IH, fn_assoc.
Qed.

Lemma foldl_combine_right x acc l :
  foldl (λ acc q, fn acc (x q)) acc l = fn acc (combine_right fn start x l).
Proof using fn_assoc start_right.
  unfold combine_right. revert acc. induction l as [|q l IH]; intros acc; simpl.
  - by rewrite start_right.
  - by rewrite IH, fn_assoc.
Qed.

(** Two neighbouring runs of [s] coordinates, cut at [n], make the run of
    [2 s] coordinates cut at [n]. *)
Lemma seqZ_double pos s n :
  0 < s →
  seqZ pos (Z.min s (n - pos)) ++ seqZ (pos + s) (Z.min s (n - (pos + s)))
  = seqZ pos (Z.min (s * 2) (n - pos)).
Proof using Type.
  intros Hs.
  destruct (decide (s <= n - pos)) as [Hfull|Hpart].
  - rewrite (Z.min_l s (n - pos)) by done.
    destruct (decide (0 <= n - (pos + s))) as [Hnn|Hneg].
    + rewrite <- seqZ_app by lia. f_equal. lia.
    + rewrite (Z.min_r s (n - (pos + s))) by lia.
      unfold seqZ at 2. rewrite Z2Nat.nonpos by lia. simpl.
      rewrite app_nil_r. f_equal. lia.
  - rewrite (Z.min_r s (n - pos)), (Z.min_r (s * 2) (n - pos)) by lia.
    unfold seqZ at 2. rewrite Z2Nat.nonpos by lia. simpl. by rewrite app_nil_r.
Qed.

(** For an associative [fn] with identity [start] the tree over a cell is
    the combination of the values it stands for, in their order. *)
Lemma tree_combine_sequential x n rounds pos :
  tree_combine fn start x n rounds pos
  = combine_right fn start x (seqZ pos (Z.min (2 ^ Z.of_nat rounds) (n - pos))).
Proof using fn_assoc start_left start_right.
  revert pos. induction rounds as [|r IH]; intros pos.
  - rewrite tree_combine_0. case_bool_decide.
    + rewrite Z.min_l by lia. simpl. by rewrite start_right.
    + unfold seqZ. by rewrite Z2Nat.nonpos by lia.
  - rewrite tree_combine_S. case_bool_decide.
    + rewrite !IH, <- combine_right_app.
      assert (0 < 2 ^ Z.of_nat r) by (apply Z.pow_pos_nonneg; lia).
      rewrite seqZ_double by done. do 2 f_equal.
      rewrite Nat2Z.inj_succ, Z.pow_succ_r by lia. lia.
    + unfold seqZ. by rewrite Z2Nat.nonpos by lia.
Qed.

Lemma combine_right_shift x base len :
  combine_right fn start (λ pos, x (base + pos)) (seqZ 0 len)
  = combine_right fn start x (seqZ base len).
Proof using Type.
  replace (seqZ base len) with (Z.add base <$> seqZ 0 len)
    by (by rewrite fmap_add_seqZ, Z.add_0_r).
  unfold combine_right. induction (seqZ 0 len) as [|q l IH]; [done|].
  rewrite fmap_cons. simpl. by rewrite IH.
Qed.

End tree.

(** *** One block *)

Section reduce_block.
Context {T : Type} `{!Scalar T} `{!Limits} `{!LocalMemory}.
Context (fn : T → T → T) (start : T).
Context (out : nat) (out_shape out_strides : list Z).
Context (a_storage : nat) (a_shape a_strides : list Z).
Context (reduce_dim : Z) (blockIdx : Z) (h : heap T).
Context (Hrank : (length out_shape <= MAX_DIMS)%nat).
Context (Hpos : Forall (λ s, 0 < s) out_shape).
Context (Hle : Forall (λ s, s <= 2 ^ 31) out_shape).
Context (Hdim : 0 <= reduce_dim < Z.of_nat (length out_shape)).
Context (Hblock : 0 <= blockIdx < prod out_shape).

(** The reduced dimension, the output coordinate of the block, its entry on
    the reduced dimension (the number of the chunk), and the extent of that
    dimension in the input. *)
Local Abbreviation d := (Z.to_nat reduce_dim).
Local Abbreviation c := (to_index blockIdx out_shape).
Local Abbreviation k := (default 0 (to_index blockIdx out_shape !! d)).
Local Abbreviation n := (item a_shape reduce_dim).

(** The source value of the thread [pos]. *)
Local Abbreviation x :=
  (λ pos, load h a_storage
            (index_to_position (<[d := k * BLOCK_DIM + pos]> c) a_strides)).

Local Abbreviation tree := (tree_combine fn start x (n - k * BLOCK_DIM)).

Local Lemma k_bounds : 0 <= k.
Proof using Hrank Hpos.
  pose proof (to_index_in_shape blockIdx out_shape Hpos) as Hin.
  destruct (c !! d) as [v|] eqn:Hv; simpl; [|lia].
  eapply Forall2_lookup_l in Hin as (s & _ & ?); [|done]. lia.
Qed.

Context (Hk : (k + 1) * BLOCK_DIM <= 2 ^ 31).

(** For an axis given from 0 on the slot overwritten is the one of the
    reduced dimension; the slots after the coordinate stay as they were. *)
Lemma reduce_buffer_chunk pos :
  0 <= pos < BLOCK_DIM →
  reduce_buffer out_shape reduce_dim blockIdx pos
  = <[d := k * BLOCK_DIM + pos]> c ++ drop (length out_shape) (local_fresh blockIdx pos).
Proof using Hrank Hpos Hle Hdim Hk.
  intros Hp. unfold reduce_buffer, local_filled, local_set_item, local_item.
  rewrite to_index_int32, length_to_index by done.
  assert (d < length c)%nat as Hd by (rewrite length_to_index; lia).
  rewrite getitem_nonneg, setitem_nonneg by (rewrite length_app; lia).
  rewrite lookup_app_l, insert_app_l by done. cbn [default from_option].
  pose proof k_bounds. unfold BLOCK_DIM in *.
  destruct (c !! d) as [v|] eqn:Hv; cbn [default from_option] in *;
    (rewrite int32_small; [done|lia]).
Qed.

Lemma reduce_index_chunk pos :
  0 <= pos < BLOCK_DIM →
  reduce_index out_shape reduce_dim blockIdx pos = <[d := k * BLOCK_DIM + pos]> c.
Proof using Hrank Hpos Hle Hdim Hk.
  intros Hp. unfold reduce_index. rewrite reduce_buffer_chunk by done.
  apply take_app_length'. by rewrite length_insert, length_to_index.
Qed.

Lemma reduce_staged_chunk pos :
  0 <= pos < BLOCK_DIM →
  reduce_staged out_shape (prod out_shape) a_shape reduce_dim blockIdx pos
  = bool_decide (pos < n - k * BLOCK_DIM).
Proof using Hrank Hpos Hle Hdim Hk Hblock.
  intros Hp. unfold reduce_staged. rewrite reduce_buffer_chunk by done.
  rewrite bool_decide_true by lia. simpl.
  unfold local_item.
  rewrite getitem_nonneg by (rewrite length_app, length_insert, length_to_index; lia).
  rewrite lookup_app_l by (rewrite length_insert, length_to_index; lia).
  rewrite list_lookup_insert_eq by (rewrite length_to_index; lia). simpl.
  apply bool_decide_ext. lia.
Qed.

Local Abbreviation stage :=
  (reduce_stage out_shape (prod out_shape) a_storage a_shape a_strides reduce_dim
     start blockIdx BLOCK_DIM h).
Local Abbreviation round :=
  (reduce_round fn out_shape (prod out_shape) a_shape reduce_dim start blockIdx BLOCK_DIM).
Local Abbreviation loop :=
  (reduce_loop fn out_shape (prod out_shape) a_shape reduce_dim start blockIdx BLOCK_DIM).

(** A thread outside the input's bound leaves the start value in its
    cell; one inside stages its source value. *)
Lemma reduce_stage_cell pos :
  0 <= pos < BLOCK_DIM →
  cache_get start stage pos
  = if bool_decide (pos < n - k * BLOCK_DIM) then x pos else start.
Proof using Hrank Hpos Hle Hdim Hk Hblock.
  intros Hp. unfold cache_get, reduce_stage.
  rewrite getitem_fmap_seqZ by done. simpl.
  rewrite reduce_staged_chunk by done.
  case_bool_decide; [|done]. by rewrite reduce_index_chunk.
Qed.



Lemma reduce_round_tree (r : nat) cache :
  (∃ m, BLOCK_DIM = 2 ^ Z.of_nat r * 2 * m) →
  (∀ pos, 0 <= pos < BLOCK_DIM → pos mod 2 ^ Z.of_nat r = 0 →
     cache_get start cache pos = tree r pos) →
  ∀ pos, 0 <= pos < BLOCK_DIM → pos mod 2 ^ Z.of_nat (S r) = 0 →
    cache_get start (round (Z.of_nat r) cache) pos = tree (S r) pos.
Proof using Hrank Hpos Hle Hdim Hk Hblock.
  intros [m Hm] Hinv pos Hp Hmod.
  rewrite Nat2Z.inj_succ, Z.pow_succ_r in Hmod by lia.
  assert (0 < 2 ^ Z.of_nat r) as Hs by (apply Z.pow_pos_nonneg; lia).
  rewrite tree_combine_S. set (s := 2 ^ Z.of_nat r) in *.
  apply Z.mod_divide in Hmod as [j Hj]; [|lia].
  assert (pos mod s = 0) as Hmods.
  { rewrite Hj. replace (j * (2 * s)) with (j * 2 * s) by lia. apply Z.mod_mul. lia. }
  assert ((pos + s) mod s = 0) as Hmods'.
  { rewrite <- Z.add_mod_idemp_l, Hmods by lia. simpl. apply Z.mod_same. lia. }
  assert (pos + s < BLOCK_DIM) as Hnext.
  { assert (j < m) as Hjm by (apply (Z.mul_lt_mono_pos_r (s * 2)); lia).
    assert (j * (s * 2) <= (m - 1) * (s * 2)) by (apply Z.mul_le_mono_nonneg_r; lia).
    lia. }
  unfold cache_get at 1, reduce_round.
  rewrite getitem_fmap_seqZ by done. simpl.
  rewrite reduce_staged_chunk by done. fold s.
  rewrite (bool_decide_true (pos mod (s * 2) = 0))
    by (rewrite Hj, (Z.mul_comm s 2); apply Z.mod_mul; lia).
  rewrite andb_true_r.
  case_bool_decide.
  - by rewrite !Hinv by (done || lia).
  - rewrite Hinv by done. apply tree_combine_outside. lia.
Qed.

(** The loop runs its ten rounds and stops on its own condition. *)
Lemma reduce_loop_tree (fuel r : nat) cache :
  (r <= 10)%nat → (10 - r <= fuel)%nat →
  (∀ pos, 0 <= pos < BLOCK_DIM → pos mod 2 ^ Z.of_nat r = 0 →
     cache_get start cache pos = tree r pos) →
  cache_get start (loop fuel (Z.of_nat r) cache) 0 = tree 10%nat 0.
Proof using Hrank Hpos Hle Hdim Hk Hblock.
  revert r cache. induction fuel as [|fuel IH]; intros r cache Hr Hfuel Hinv.
  - assert (r = 10%nat) as -> by lia. cbn [reduce_loop]. by apply Hinv.
  - cbn [reduce_loop]. case_bool_decide as Hlt.
    + assert (r < 10)%nat as Hlt10.
      { destruct (decide (r = 10%nat)) as [->|]; [done|lia]. }
      replace (Z.of_nat r + 1) with (Z.of_nat (S r)) by lia.
      apply IH; [lia|lia|].
      apply reduce_round_tree; [|done].
      exists (2 ^ (9 - Z.of_nat r)).
      replace (2 ^ Z.of_nat r * 2) with (2 ^ (Z.of_nat r + 1))
        by (by rewrite Z.pow_add_r by lia).
      rewrite <- Z.pow_add_r by lia.
      by replace (Z.of_nat r + 1 + (9 - Z.of_nat r)) with 10 by lia.
    + assert (r = 10%nat) as ->.
      { destruct (decide (r = 10%nat)) as [|Hne]; [done|]. exfalso. apply Hlt.
        unfold BLOCK_DIM. change 1024 with (2 ^ 10).
        apply Z.pow_lt_mono_r; lia. }
      by apply Hinv.
Qed.

(** What a block of the launch stores, for any [fn]: the tree over its
    chunk, at the position computed from the thread's overwritten
    coordinate. *)
Lemma _reduce_block_tree :
  _reduce fn out out_shape out_strides (prod out_shape) a_storage a_shape a_strides
    reduce_dim start blockIdx BLOCK_DIM h
  = [(out, index_to_position (<[d := k * BLOCK_DIM]> c) out_strides, tree 10%nat 0)].
Proof using Hrank Hpos Hle Hdim Hk Hblock.
  unfold _reduce.
  rewrite (reduce_loop_tree _ 0); [|lia|unfold BLOCK_DIM; lia|].
  - rewrite (seqZ_cons 0 BLOCK_DIM) by done. rewrite bind_cons.
    rewrite bind_nil_all.
    + rewrite !bool_decide_true by lia. rewrite app_nil_r. unfold andb.
      rewrite reduce_index_chunk by done.
      by rewrite !Z.add_0_r.
    + intros pos Hin. apply elem_of_seqZ in Hin.
      rewrite (bool_decide_false (pos = 0)) by lia. by rewrite andb_false_r.
  - intros pos Hp _. by rewrite reduce_stage_cell, tree_combine_0.
Qed.

End reduce_block.

(** ** Host wrapper of reduce *)

Section host_reduce.
Context {T : Type} `{!Scalar T} `{!Limits} `{!LocalMemory}.
Implicit Types (h : heap T) (a : Tensor).

Lemma getitem_py_index {A} (l : list A) i d :
  py_index (length l) i = Some d → getitem l i = l !! d.
Proof. intros Hd. unfold getitem. by rewrite Hd. Qed.

(** The shape of the output of reduce and what its launch is run on. *)
Lemma reduce_unfold fn start a dim h d n :
  py_index (length (shape a)) dim = Some d →
  shape a !! d = Some n →
  let out_shape := <[d := (n - 1) / 1024 + 1]> (shape a) in
  let out_a := mkTensor (length h) out_shape (strides_from_shape out_shape) in
  CudaOps.reduce fn start a dim h
  = (inr out_a,
     launch (seqZ 0 (prod out_shape))
       (λ blockIdx,
          _reduce fn (length h) out_shape (strides_from_shape out_shape) (prod out_shape)
            (storage a) (shape a) (strides a) dim start blockIdx 1024)
       (h ++ [replicate (Z.to_nat (prod out_shape)) zero])).
Proof.
  intros Hd Hn. unfold CudaOps.reduce, mbind, M_bind, or_raise.
  rewrite (getitem_py_index _ _ d), Hn by done.
  unfold setitem. rewrite Hd. done.
Qed.

(** With one chunk the block's coordinate on the reduced dimension is 0, so
    the block stores at its own position. *)
Lemma single_chunk_position out_shape d blockIdx :
  Forall (λ s, 0 < s) out_shape → out_shape !! d = Some 1 →
  0 <= blockIdx < prod out_shape →
  default 0 (to_index blockIdx out_shape !! d) = 0
  ∧ index_to_position
      (<[d := 0]> (to_index blockIdx out_shape)) (strides_from_shape out_shape)
    = blockIdx.
Proof.
  intros Hpos Hd Hb.
  pose proof (to_index_in_shape blockIdx out_shape Hpos) as Hin.
  eapply Forall2_lookup_r in Hin as (v & Hv & Hbound); [|done].
  assert (v = 0) as -> by lia. rewrite Hv. split; [done|].
  rewrite list_insert_id by done.
  apply position_of_to_index; [|done]. eapply Forall_impl; [done|]. simpl. lia.
Qed.

(** The output shape of a single chunk that has a coordinate at all: the
    reduced extent is 1 and the input extent is at least 1. *)
Lemma single_chunk_shape (shape : list Z) d n :
  shape !! d = Some n → n <= BLOCK_DIM →
  Forall (λ s, 0 < s) (<[d := (n - 1) / 1024 + 1]> shape) →
  1 <= n ∧ <[d := (n - 1) / 1024 + 1]> shape !! d = Some 1.
Proof.
  intros Hn Hsmall Hpos.
  assert (d < length shape)%nat as Hdlt by (by eapply lookup_lt_Some).
  assert (0 < (n - 1) / 1024 + 1) as Hr.
  { rewrite Forall_forall in Hpos. apply Hpos.
    apply list_elem_of_lookup. exists d. by rewrite list_lookup_insert_eq. }
  assert (1 <= n) as Hn1.
  { destruct (decide (0 <= n - 1)) as [|Hneg]; [lia|].
    assert ((n - 1) / 1024 < 0) by (apply Z.div_lt_upper_bound; lia). lia. }
  split; [done|]. rewrite list_lookup_insert_eq by done. f_equal.
  unfold BLOCK_DIM in Hsmall. rewrite Z.div_small; lia.
Qed.

(** Reduce over a single chunk, for any [fn]: every element of the output
    is the tree over its slice. *)
Lemma reduce_single_chunk_tree fn start a dim h n :
  (storage a < length h)%nat →
  0 <= dim < Z.of_nat (length (shape a)) →
  (length (shape a) <= MAX_DIMS)%nat →
  shape a !! Z.to_nat dim = Some n → n <= BLOCK_DIM →
  Forall (λ s, s <= 2 ^ 31) (shape a) →
  ∃ out h',
    CudaOps.reduce fn start a dim h = (inr out, h')
    ∧ shape out = <[Z.to_nat dim := (n - 1) / 1024 + 1]> (shape a)
    ∧ strides out = strides_from_shape (shape out)
    ∧ ∀ index, in_shape index (shape out) →
        tensor_get h' out index
        = tree_combine fn start
            (λ q, tensor_get h a (<[Z.to_nat dim := q]> index)) n 10 0.
Proof.
  intros Ha Hdim Hrank Hn Hsmall Hle.
  set (d := Z.to_nat dim) in *.
  assert (py_index (length (shape a)) dim = Some d) as Hd by (by apply py_index_nonneg).
  rewrite (reduce_unfold _ _ _ _ _ d n) by done. cbv zeta.
  eexists _, _. split; [reflexivity|]. split; [reflexivity|]. split; [reflexivity|].
  cbn [shape strides storage].
  set (S' := <[d := _]> (shape a)). set (h1 := h ++ _).
  intros index Hin.
  pose proof (in_shape_pos _ _ Hin) as Hpos.
  pose proof (position_in_shape _ _ Hin) as Hi.
  destruct (single_chunk_shape (shape a) d n Hn Hsmall Hpos) as [Hn1 HS'd].
  fold S' in HS'd.
  assert (Forall (λ s, s <= 2 ^ 31) S') as Hle'.
  { rewrite Forall_lookup. intros d' s Hs.
    destruct (decide (d' = d)) as [->|Hne].
    - rewrite HS'd in Hs. injection Hs as <-. lia.
    - unfold S' in Hs. rewrite list_lookup_insert_ne in Hs by done.
      rewrite Forall_lookup in Hle. by eapply Hle. }
  assert (length S' = length (shape a)) as Hlen by apply length_insert.
  assert (item (shape a) dim = n) as Hitem.
  { by rewrite (item_lookup _ _ d), Hn. }
  set (V := λ b, tree_combine fn start
      (λ q, load h (storage a) (index_to_position (<[d := q]> (to_index b S')) (strides a)))
      n 10 0).
  assert (∀ b h', 0 <= b < prod S' → same_outside (length h) h1 h' →
    _reduce fn (length h) S' (strides_from_shape S') (prod S')
      (storage a) (shape a) (strides a) dim start b 1024 h'
    = [(length h, b, V b)]) as Hkern.
  { intros b h' Hb Hh'.
    destruct (single_chunk_position S' d b Hpos HS'd Hb) as [Hk0 Hposn].
    change 1024 with BLOCK_DIM.
    rewrite _reduce_block_tree
      by (done || lia || (fold d; rewrite Hk0; unfold BLOCK_DIM; lia)).
    fold d. rewrite Hk0, Z.mul_0_l, Hposn, Hitem, Z.sub_0_r.
    do 2 f_equal. unfold V. apply tree_combine_ext. intros q.
    rewrite Z.add_0_l.
    rewrite <- (load_same_outside (length h) h1 h') by (done || lia).
    by apply load_alloc. }
  unfold tensor_get at 1. cbn [shape strides storage].
  rewrite (launch_cell _ _ (length h) h1 (replicate (Z.to_nat (prod S')) zero)
    (index_to_position index (strides_from_shape S'))
    (index_to_position index (strides_from_shape S'))
    (V (index_to_position index (strides_from_shape S')))).
  - unfold V. by rewrite to_index_position.
  - apply lookup_alloc.
  - rewrite length_replicate. lia.
  - intros b h' Hb Hh'. apply elem_of_seqZ in Hb.
    rewrite !Hkern; done || lia.
  - intros b w Hb Hw. apply elem_of_seqZ in Hb.
    rewrite Hkern in Hw by (done || lia).
    apply list_elem_of_singleton in Hw. subst w. simpl. split; [done|lia].
  - apply elem_of_seqZ. lia.
  - rewrite Hkern by done. by apply list_elem_of_singleton.
  - intros b v' Hb Hv'. apply elem_of_seqZ in Hb.
    rewrite Hkern in Hv' by (done || lia).
    apply list_elem_of_singleton in Hv'. by injection Hv' as <- ->.
Qed.

(** The same for an associative [fn] with identity [start]: the tree is
    the sequential combination of the slice. *)
Lemma reduce_single_chunk fn start a dim h n :
  (∀ x y z, fn (fn x y) z = fn x (fn y z)) →
  (∀ x, fn start x = x) → (∀ x, fn x start = x) →
  (storage a < length h)%nat →
  0 <= dim < Z.of_nat (length (shape a)) →
  (length (shape a) <= MAX_DIMS)%nat →
  shape a !! Z.to_nat dim = Some n → n <= BLOCK_DIM →
  Forall (λ s, s <= 2 ^ 31) (shape a) →
  ∃ out h',
    CudaOps.reduce fn start a dim h = (inr out, h')
    ∧ shape out = <[Z.to_nat dim := (n - 1) / 1024 + 1]> (shape a)
    ∧ strides out = strides_from_shape (shape out)
    ∧ ∀ index, in_shape index (shape out) →
        tensor_get h' out index
        = foldl (λ acc q, fn acc (tensor_get h a (<[Z.to_nat dim := q]> index)))
            start (seqZ 0 n).
Proof.
  intros Hassoc Hleft Hright Ha Hdim Hrank Hn Hsmall Hle.
  destruct (reduce_single_chunk_tree fn start a dim h n)
    as (out & h' & Hrun & Hshape & Hstr & Hget); try done.
  exists out, h'. split; [done|]. split; [done|]. split; [done|].
  intros index Hin. rewrite Hget by done.
  rewrite (tree_combine_sequential fn start) by done.
  rewrite (foldl_combine_right fn start) by done. rewrite Hleft.
  rewrite Z.sub_0_r. unfold BLOCK_DIM in Hsmall.
  change (2 ^ Z.of_nat 10) with 1024. by rewrite Z.min_r by lia.
Qed.

End host_reduce.

(** *** A negative axis

    The kernel indexes [out_index] with the axis as it is given.  For a
    negative axis that is a slot counted from the end of the [MAX_DIMS]
    slots, which lies after the coordinate unless the rank is close to
    [MAX_DIMS].  The coordinate then stays the block's own, so that every
    thread that passes the guard stages the same cell of the input; which
    threads pass depends on what the slot held before. *)
Section reduce_negative_axis.
Context {T : Type} `{!Scalar T} `{!Limits} `{!LocalMemory}.
Context (fn : T → T → T) (start : T).
Context (out : nat) (out_shape out_strides : list Z) (out_size : Z).
Context (a_storage : nat) (a_shape a_strides : list Z).
Context (reduce_dim : Z) (blockIdx : Z) (h : heap T).
Context (Hrank : (length out_shape <= MAX_DIMS)%nat).
Context (Hpos : Forall (λ s, 0 < s) out_shape).
Context (Hle : Forall (λ s, s <= 2 ^ 31) out_shape).
Context (Hdim : reduce_dim < 0).
Context (Hslot : Z.of_nat (length out_shape) <= Z.of_nat MAX_DIMS + reduce_dim).




End reduce_negative_axis.

(** ** Matrix multiply kernel *)

Lemma foldl_ext_in {A B} (f g : A → B → A) (l : list B) (a : A) :
  (∀ acc x, x ∈ l → f acc x = g acc x) → foldl f a l = foldl g a l.
Proof.
  revert a. induction l as [|x l IH]; intros a Hfg; simpl; [done|].
  rewrite Hfg by left. apply IH. intros acc y Hy. apply Hfg. by right.
Qed.

Lemma bind_ext_in {A B} (f g : A → list B) (l : list A) :
  (∀ x, x ∈ l → f x = g x) → l ≫= f = l ≫= g.
Proof.
  induction l as [|x l IH]; intros Hfg; [done|].
  rewrite !bind_cons, Hfg by left. f_equal. apply IH.
  intros y Hy. apply Hfg. by right.
Qed.

(** A loop over [k] below [len] that skips every [k] with [idx + k] not
    below [K] is the loop over the coordinates from [idx] that are below
    [K]. *)
Lemma foldl_guarded {A} (g : A → Z → A) (idx K : Z) (len : nat) (a : A) :
  foldl (λ acc k, if bool_decide (idx + k < K) then g acc (idx + k) else acc) a
        (seqZ 0 (Z.of_nat len))
  = foldl g a (seqZ idx (Z.min (Z.of_nat len) (K - idx))).
Proof.
  induction len as [|len IH].
  - simpl. unfold seqZ. by rewrite Z2Nat.nonpos by lia.
  - rewrite seqZ_S, foldl_app, IH. simpl.
    case_bool_decide as Hlt.
    + rewrite (Z.min_l (Z.of_nat len)), (Z.min_l (Z.of_nat (S len))) by lia.
      rewrite seqZ_S, foldl_app. done.
    + by rewrite (Z.min_r (Z.of_nat len)), (Z.min_r (Z.of_nat (S len))) by lia.
Qed.

Section tiles.
Context {T : Type} `{!Scalar T} `{!Limits}.

Lemma tile_get_make dim_x dim_y (f : Z → Z → T) pi pj :
  0 <= pi < dim_x → 0 <= pj < dim_y →
  tile_get (tile_make dim_x dim_y f) pi pj = f pi pj.
Proof.
  intros Hpi Hpj. unfold tile_get, tile_make.
  rewrite getitem_fmap_seqZ by done. simpl.
  by rewrite getitem_fmap_seqZ by done.
Qed.

End tiles.

Section matrix_multiply_block.
Context {T : Type} `{!Scalar T} `{!Limits}.
Context (out : nat) (out_shape out_strides : list Z).
Context (a_storage : nat) (a_shape a_strides : list Z).
Context (b_storage : nat) (b_shape b_strides : list Z).
Context (bx by_ bz : Z) (h : heap T).
Context (Hinner : item b_shape 1 = item a_shape 2).

Local Abbreviation blockIdx := (bx, by_, bz).
Local Abbreviation blockDim := (mm_BLOCK_DIM, mm_BLOCK_DIM).
Local Abbreviation M := (item a_shape 1).
Local Abbreviation K := (item a_shape 2).
Local Abbreviation N := (item b_shape 2).

(** The cells of the two operands that the block's batch sees. *)
Local Abbreviation a_cell := (λ i k,
  load h a_storage
    (mm_a_batch_stride a_shape a_strides * bz + item a_strides 1 * i + item a_strides 2 * k)).
Local Abbreviation b_cell := (λ k j,
  load h b_storage
    (mm_b_batch_stride b_shape b_strides * bz + item b_strides 1 * k + item b_strides 2 * j)).

Local Abbreviation step i j :=
  (λ acc k, add acc (mul (a_cell i k) (b_cell k j))).

Lemma mm_pass_cell accum idx pi pj :
  0 <= pi < mm_BLOCK_DIM → 0 <= pj < mm_BLOCK_DIM →
  let i := mm_i blockIdx blockDim pi in
  let j := mm_j blockIdx blockDim pj in
  i < M → j < N →
  tile_get (mm_pass a_storage a_shape a_strides b_storage b_shape b_strides
              blockIdx blockDim h accum idx) pi pj
  = foldl (step i j) (tile_get accum pi pj)
      (seqZ idx (Z.min mm_BLOCK_DIM (K - idx))).
Proof using Hinner.
  intros Hpi Hpj i j Hi Hj. unfold mm_pass.
  rewrite tile_get_make by done.
  rewrite <- (foldl_guarded (step i j) idx K 32).
  apply foldl_ext_in. intros acc k Hk. apply elem_of_seqZ in Hk.
  case_bool_decide as Hlt; [|done].
  unfold mm_a_shared, mm_b_shared.
  rewrite !tile_get_make by (done || (unfold mm_BLOCK_DIM; simpl; lia)).
  fold i j. rewrite Hinner.
  by rewrite !bool_decide_true by done.
Qed.

Lemma mm_chunks_cell (chunks : nat) pi pj :
  0 <= pi < mm_BLOCK_DIM → 0 <= pj < mm_BLOCK_DIM →
  let i := mm_i blockIdx blockDim pi in
  let j := mm_j blockIdx blockDim pj in
  i < M → j < N →
  tile_get
    (foldl (mm_pass a_storage a_shape a_strides b_storage b_shape b_strides
              blockIdx blockDim h)
       (tile_make mm_BLOCK_DIM mm_BLOCK_DIM (λ _ _, zero))
       ((λ q, q * mm_BLOCK_DIM) <$> seqZ 0 (Z.of_nat chunks))) pi pj
  = foldl (step i j) zero (seqZ 0 (Z.min (Z.of_nat chunks * mm_BLOCK_DIM) K)).
Proof using Hinner.
  intros Hpi Hpj i j Hi Hj. induction chunks as [|chunks IH].
  - simpl. rewrite tile_get_make by done.
    unfold seqZ. by rewrite Z2Nat.nonpos by lia.
  - rewrite seqZ_S, fmap_app, foldl_app. simpl.
    rewrite mm_pass_cell by done. fold i j. rewrite IH.
    rewrite <- foldl_app. f_equal.
    unfold mm_BLOCK_DIM.
    destruct (decide (Z.of_nat chunks * 32 <= K)) as [Hfull|Hpart].
    + rewrite (Z.min_l (Z.of_nat chunks * 32)) by done.
      rewrite <- seqZ_app by lia. f_equal. lia.
    + rewrite (Z.min_r (Z.of_nat chunks * 32)) by lia.
      rewrite (Z.min_r (Z.of_nat (S chunks) * 32)) by lia.
      rewrite (Z.min_r 32) by lia.
      unfold seqZ at 2. rewrite Z2Nat.nonpos by lia. simpl. by rewrite app_nil_r.
Qed.

(** The accumulator of a thread inside the output after all passes. *)
Lemma mm_accum_cell pi pj :
  0 <= pi < mm_BLOCK_DIM → 0 <= pj < mm_BLOCK_DIM →
  let i := mm_i blockIdx blockDim pi in
  let j := mm_j blockIdx blockDim pj in
  i < M → j < N →
  tile_get (mm_accum a_storage a_shape a_strides b_storage b_shape b_strides
              blockIdx blockDim h) pi pj
  = dot (a_cell i) (λ k, b_cell k j) K.
Proof using Hinner.
  intros Hpi Hpj i j Hi Hj. unfold mm_accum, range_step, dot.
  set (Q := (K + mm_BLOCK_DIM - 1) / mm_BLOCK_DIM).
  assert (seqZ 0 Q = seqZ 0 (Z.of_nat (Z.to_nat Q))) as ->.
  { unfold seqZ. by rewrite Nat2Z.id. }
  cbn [fst snd].
  rewrite mm_chunks_cell by done. fold i j. f_equal.
  unfold Q, mm_BLOCK_DIM.
  destruct (decide (0 < K)) as [Hpos|Hneg].
  - rewrite Z2Nat.id by (apply Z.div_pos; lia).
    rewrite Z.min_r; [done|].
    pose proof (Z.div_mod (K + 32 - 1) 32).
    pose proof (Z.mod_pos_bound (K + 32 - 1) 32). lia.
  - assert ((K + 32 - 1) / 32 <= 0).
    { apply Z.lt_succ_r, Z.div_lt_upper_bound; lia. }
    rewrite Z2Nat.nonpos by done. simpl.
    unfold seqZ. by rewrite !Z2Nat.nonpos by lia.
Qed.

(** What the block stores: every thread inside the output stores the sum
    of products of its row and column. *)
Lemma mm_block_writes :
  item out_shape 1 = M → item out_shape 2 = N →
  _tensor_matrix_multiply out out_shape out_strides a_storage a_shape a_strides
    b_storage b_shape b_strides blockIdx blockDim h
  = (pi ← seqZ 0 mm_BLOCK_DIM;
     pj ← seqZ 0 mm_BLOCK_DIM;
     let i := bx * mm_BLOCK_DIM + pi in
     let j := by_ * mm_BLOCK_DIM + pj in
     if bool_decide (bz < item out_shape 0)
        && bool_decide (i < item out_shape 1)
        && bool_decide (j < item out_shape 2)
     then [(out,
            item out_strides 0 * bz + item out_strides 1 * i + item out_strides 2 * j,
            dot (a_cell i) (λ k, b_cell k j) K)]
     else []).
Proof using Hinner.
  intros Hrows Hcols. unfold _tensor_matrix_multiply. cbn [fst snd].
  apply bind_ext_in. intros pi Hpi. apply elem_of_seqZ in Hpi.
  apply bind_ext_in. intros pj Hpj. apply elem_of_seqZ in Hpj.
  unfold mm_batch, mm_i, mm_j. cbn [fst snd].
  destruct (bool_decide (bz < item out_shape 0)); [|done].
  case_bool_decide as Hi; [|done]. case_bool_decide as Hj; [|done]. simpl.
  do 3 f_equal. rewrite Hrows in Hi. rewrite Hcols in Hj.
  by rewrite mm_accum_cell by (done || lia).
Qed.

End matrix_multiply_block.

Lemma position3 strides x y z :
  index_to_position [x; y; z] strides
  = item strides 0 * x + item strides 1 * y + item strides 2 * z.
Proof.
  unfold item.
  destruct strides as [|s0 [|s1 [|s2 rest]]];
    rewrite ?getitem_None by (simpl; lia);
    rewrite ?getitem_nonneg by (simpl; lia); simpl; lia.
Qed.

(** ** Host wrapper of matrix multiply *)

Section host_matrix_multiply.
Context {T : Type} `{!Scalar T} `{!Limits}.
Implicit Types (h : heap T) (a b : Tensor).

Lemma elem_of_blocks gx gy gz x y z :
  (x, y, z) ∈ CudaOps.blocks (gx, gy, gz)
  ↔ 0 <= x < gx ∧ 0 <= y < gy ∧ 0 <= z < gz.
Proof.
  unfold CudaOps.blocks. cbn [fst snd]. rewrite list_elem_of_bind. split.
  - intros (z' & Hin & Hz). apply list_elem_of_bind in Hin as (y' & Hin & Hy).
    apply list_elem_of_bind in Hin as (x' & Hin & Hx).
    apply list_elem_of_singleton in Hin. injection Hin as -> -> ->.
    apply elem_of_seqZ in Hx, Hy, Hz. lia.
  - intros (Hx & Hy & Hz). exists z. split; [|apply elem_of_seqZ; lia].
    apply list_elem_of_bind. exists y. split; [|apply elem_of_seqZ; lia].
    apply list_elem_of_bind. exists x. split; [|apply elem_of_seqZ; lia].
    by apply list_elem_of_singleton.
Qed.

Lemma make_3d_rank3 a b h :
  length (shape a) ≠ 2%nat → length (shape b) ≠ 2%nat →
  CudaOps.make_3d a b h = (inr (a, b, false), h).
Proof.
  intros Ha Hb. unfold CudaOps.make_3d, mbind, M_bind.
  by rewrite !bool_decide_false by done.
Qed.

Lemma shape_broadcast_batch Ba Bb :
  Ba = Bb ∨ Ba = 1 ∨ Bb = 1 → shape_broadcast [Ba] [Bb] = Some [Z.max Ba Bb].
Proof.
  intros Hc. unfold shape_broadcast. simpl. by rewrite bool_decide_true.
Qed.

(** What rank normalization returns: a two-dimensional operand becomes a
    view of shape [(1, rows, columns)], any other operand is passed on, and
    the flag tells whether both were two-dimensional. *)
Lemma make_3d_result a b h :
  ∃ a' b' h1,
    CudaOps.make_3d a b h
    = (inr (a', b',
            bool_decide (length (shape a) = 2%nat ∧ length (shape b) = 2%nat)), h1)
    ∧ (if bool_decide (length (shape a) = 2%nat)
       then shape a' = [1; item (shape a) 0; item (shape a) 1]
       else a' = a)
    ∧ (if bool_decide (length (shape b) = 2%nat)
       then shape b' = [1; item (shape b) 0; item (shape b) 1]
       else b' = b).
Proof.
  unfold CudaOps.make_3d, CudaOps.contiguous, CudaOps.map, mbind, M_bind,
    mret, M_ret, zeros, run_kernel.
  destruct (decide (length (shape a) = 2%nat)) as [Ha|Ha],
           (decide (length (shape b) = 2%nat)) as [Hb|Hb];
    rewrite ?(bool_decide_true (length (shape a) = 2%nat)),
            ?(bool_decide_false (length (shape a) = 2%nat)),
            ?(bool_decide_true (length (shape b) = 2%nat)),
            ?(bool_decide_false (length (shape b) = 2%nat)),
            ?(bool_decide_true (_ ∧ _)), ?(bool_decide_false (_ ∧ _)) by tauto;
    simpl; eexists _, _, _; (split; [reflexivity|split; reflexivity]).
Qed.

(** Normalized operands with matching inner extent: the output that is
    allocated and the launch that fills it. *)
Lemma matrix_multiply_unfold a b h a' b' both_2d h1 Ba Bb M K N :
  CudaOps.make_3d a b h = (inr (a', b', both_2d), h1) →
  shape a' = [Ba; M; K] → shape b' = [Bb; K; N] →
  Ba = Bb ∨ Ba = 1 ∨ Bb = 1 →
  let ls := [Z.max Ba Bb; M; N] in
  let out := mkTensor (length h1) ls (strides_from_shape ls) in
  CudaOps.matrix_multiply a b h
  = (inr (if both_2d then CudaOps.view out [M; N] else out),
     launch
       (CudaOps.blocks ((M + (THREADS_PER_BLOCK - 1)) / THREADS_PER_BLOCK,
                        (N + (THREADS_PER_BLOCK - 1)) / THREADS_PER_BLOCK,
                        Z.max Ba Bb))
       (λ blockIdx,
          tensor_matrix_multiply (length h1) ls (strides_from_shape ls) (prod ls)
            (storage a') (shape a') (strides a') (storage b') (shape b') (strides b')
            blockIdx (THREADS_PER_BLOCK, THREADS_PER_BLOCK))
       (h1 ++ [replicate (Z.to_nat (prod ls)) zero])).
Proof.
  intros Hmk Hsa Hsb Hc. unfold CudaOps.matrix_multiply.
  unfold mbind at 1. unfold M_bind at 1. rewrite Hmk.
  rewrite Hsa, Hsb. unfold but_last2. simpl take.
  unfold mbind, M_bind, or_raise. rewrite shape_broadcast_batch by done.
  simpl. rewrite bool_decide_true by done. by destruct both_2d.
Qed.

End host_matrix_multiply.

(** * The properties of the design, one by one *)

Section properties.
Context {T : Type} `{!Scalar T} `{!Limits} `{!LocalMemory}.
Implicit Types (h : heap T) (a b : Tensor).

(** C10: for every shape [S] and every flat position [i] with
    [0 <= i < size S], the position of [to_index i S] under the standard
    contiguous strides of [S] is [i]; and the other way round, decoding the
    position of a coordinate of [S] gives the coordinate back, so the two
    functions are mutual inverses for these strides. *)
Theorem to_index_position_inverse (S : list Z) :
  Forall (λ s, 0 <= s) S →
  (∀ i, 0 <= i < prod S →
     index_to_position (to_index i S) (strides_from_shape S) = i)
  ∧ (∀ index, in_shape index S →
       to_index (index_to_position index (strides_from_shape S)) S = index).
Proof.
  intros Hnn. split.
  - intros i Hi. by apply position_of_to_index.
  - intros index Hin. by apply to_index_position.
Qed.

(** C6: for every tensor [a], [map fn] called without an output returns a
    tensor of the shape of [a] whose element at every coordinate is [fn]
    of the element of [a] at that coordinate. *)
Theorem map_applies_fn (fn : T → T) a h :
  (storage a < length h)%nat →
  (length (shape a) <= MAX_DIMS)%nat →
  Forall (λ s, s <= 2 ^ 31) (shape a) →
  ∃ out h',
    CudaOps.map fn a None h = (inr out, h')
    ∧ shape out = shape a
    ∧ ∀ index, in_shape index (shape a) →
        tensor_get h' out index = fn (tensor_get h a index).
Proof.
  intros Ha Hrank Hle.
  destruct (map_elements fn a h Ha Hrank Hle)
    as (out & h' & Hrun & Hshape & _ & _ & _ & Hget).
  by exists out, h'.
Qed.

(** C3: for broadcast-compatible tensors [a] and [b] and every binary
    [fn], [zip fn a b] returns a tensor whose shape is the broadcast of the
    two shapes and whose element at every coordinate is [fn] of the element
    of [a] and the element of [b] at the coordinates [broadcast_index] gives
    for their shapes. *)
Theorem zip_applies_fn_broadcast (fn : T → T → T) a b h c_shape :
  (storage a < length h)%nat → (storage b < length h)%nat →
  shape_broadcast (shape a) (shape b) = Some c_shape →
  (length c_shape <= MAX_DIMS)%nat →
  Forall (λ s, s <= 2 ^ 31) c_shape →
  ∃ out h',
    CudaOps.zip fn a b h = (inr out, h')
    ∧ shape out = c_shape
    ∧ ∀ index, in_shape index c_shape →
        tensor_get h' out index
        = fn (tensor_get h a (broadcast_index index c_shape (shape a)))
             (tensor_get h b (broadcast_index index c_shape (shape b))).
Proof.
  intros Ha Hb Hbc Hrank Hle.
  unfold CudaOps.zip, mbind, M_bind, or_raise. rewrite Hbc.
  unfold mret, M_ret, zeros, run_kernel, tensor_zip, size.
  simpl. eexists _, _. split; [done|]. split; [done|].
  set (S := c_shape). set (h1 := h ++ _).
  intros index Hin.
  pose proof (in_shape_pos _ _ Hin) as Hpos.
  pose proof (position_in_shape _ _ Hin) as Hi.
  unfold tensor_get at 1. simpl.
  replace (prod S + (THREADS_PER_BLOCK - 1)) with (prod S + THREADS_PER_BLOCK - 1) by lia.
  rewrite (elementwise_launch _ (length h) (prod S)
    (λ i, fn (load h1 (storage a)
                (index_to_position (broadcast_index (to_index i S) S (shape a)) (strides a)))
             (load h1 (storage b)
                (index_to_position (broadcast_index (to_index i S) S (shape b)) (strides b))))
    h1 (replicate (Z.to_nat (prod S)) zero)).
  - rewrite to_index_position by done.
    unfold tensor_get, h1. by rewrite !load_alloc.
  - intros bid tid h' Hh' Hbid Htid i.
    unfold THREADS_PER_BLOCK in *.
    case_bool_decide as Hlt.
    + rewrite _zip_thread by done. fold i.
      rewrite position_of_to_index by ((split; [lia|done]) || (eapply Forall_impl; [done|]; simpl; lia)).
      by rewrite <- !(load_same_outside (length h) h1 h') by (done || lia).
    + unfold _zip. by rewrite bool_decide_false.
  - apply lookup_alloc.
  - rewrite length_replicate. lia.
  - done.
Qed.

(** C9: in a launch of the map or the zip kernel, a thread whose linear
    index is not below [out_size] stores nothing; a thread below it stores
    exactly once, into [out], at the position of its own output coordinate;
    every array other than [out], so every input storage, is left as it
    was by the thread and by the whole launch. *)
Theorem elementwise_thread_writes (f1 : T → T) (f2 : T → T → T)
    out out_shape out_strides out_size in_storage in_shape in_strides
    a_storage a_shape a_strides b_storage b_shape b_strides
    blockIdx blockDim threadIdx h :
  (length out_shape <= MAX_DIMS)%nat →
  Forall (λ s, 0 < s) out_shape → Forall (λ s, s <= 2 ^ 31) out_shape →
  let i := blockIdx * blockDim + threadIdx in
  let map_kernel :=
    _map f1 out out_shape out_strides out_size in_storage in_shape in_strides in
  let zip_kernel :=
    _zip f2 out out_shape out_strides out_size a_storage a_shape a_strides
      b_storage b_shape b_strides in
  let own_position := index_to_position (to_index i out_shape) out_strides in
  (out_size <= i →
     map_kernel blockIdx blockDim threadIdx h = []
     ∧ zip_kernel blockIdx blockDim threadIdx h = [])
  ∧ (i < out_size →
     ∃ v1 v2,
       map_kernel blockIdx blockDim threadIdx h = [(out, own_position, v1)]
       ∧ zip_kernel blockIdx blockDim threadIdx h = [(out, own_position, v2)])
  ∧ (∀ addr, addr ≠ out →
       commit (map_kernel blockIdx blockDim threadIdx h) h !! addr = h !! addr
       ∧ commit (zip_kernel blockIdx blockDim threadIdx h) h !! addr = h !! addr)
  ∧ (∀ blockspergrid addr, addr ≠ out →
       launch (threads blockspergrid blockDim) (on_thread blockDim map_kernel) h !! addr
       = h !! addr
       ∧ launch (threads blockspergrid blockDim) (on_thread blockDim zip_kernel) h !! addr
         = h !! addr).
Proof.
  intros Hrank Hpos Hle i map_kernel zip_kernel own_position.
  assert (∀ bid bdim tid h', into out (map_kernel bid bdim tid h')) as Hmap.
  { intros. unfold map_kernel, _map. case_bool_decide; repeat constructor. }
  assert (∀ bid bdim tid h', into out (zip_kernel bid bdim tid h')) as Hzip.
  { intros. unfold zip_kernel, _zip. case_bool_decide; repeat constructor. }
  split; [|split; [|split]].
  - intros Hge. unfold map_kernel, zip_kernel, _map, _zip. fold i.
    by rewrite !bool_decide_false by lia.
  - intros Hlt. eexists _, _. unfold map_kernel, zip_kernel, _map, _zip. fold i.
    rewrite !bool_decide_true by done. rewrite to_index_int32 by done.
    split; reflexivity.
  - intros addr Hne. split; symmetry.
    + by apply (commit_same_outside out _ h (Hmap _ _ _ _)).
    + by apply (commit_same_outside out _ h (Hzip _ _ _ _)).
  - intros blockspergrid addr Hne. split; symmetry.
    + apply (launch_same_outside out); [|done]. intros [bid tid] h' _. apply Hmap.
    + apply (launch_same_outside out); [|done]. intros [bid tid] h' _. apply Hzip.
Qed.

(** C5: for every tensor [a] and every valid axis [dim], the output of
    reduce has the shape of [a] with the extent [n] of dimension [dim]
    replaced by the ceiling of [n / 1024] (the [r] with
    [1024 * (r - 1) < n <= 1024 * r]); the other extents are unchanged. *)
Theorem reduce_output_shape (fn : T → T → T) (start : T) a dim h d :
  py_index (length (shape a)) dim = Some d →
  ∃ out h' n r,
    CudaOps.reduce fn start a dim h = (inr out, h')
    ∧ shape a !! d = Some n
    ∧ 1024 * (r - 1) < n <= 1024 * r
    ∧ shape out = <[d := r]> (shape a)
    ∧ length (shape out) = length (shape a)
    ∧ shape out !! d = Some r
    ∧ ∀ d', d' ≠ d → shape out !! d' = shape a !! d'.
Proof.
  intros Hd. pose proof (py_index_lt _ _ _ Hd) as Hlt.
  destruct (lookup_lt_is_Some_2 (shape a) d Hlt) as [n Hn].
  rewrite (reduce_unfold fn start a dim h d n Hd Hn). simpl.
  eexists _, _, n, ((n - 1) / 1024 + 1). split; [done|]. split; [done|].
  split.
  { pose proof (Z.div_mod (n - 1) 1024). pose proof (Z.mod_pos_bound (n - 1) 1024). lia. }
  simpl. split; [done|]. split; [by rewrite length_insert|].
  split; [by apply list_lookup_insert_eq|].
  intros d' Hne. by apply list_lookup_insert_ne.
Qed.


(** C2: for three-dimensional views [a] of shape [(Ba, M, K)] and [b] of
    shape [(Bb, K, N)] with equal batch sizes or one of them 1,
    matrix_multiply returns a tensor of shape [(max Ba Bb, M, N)] whose
    element [(p, i, j)] is the sum over [k < K] of
    [a[p or 0, i, k] * b[p or 0, k, j]], batch 0 being read whenever the
    operand has a single batch, for every [M], [N] and [K], multiples of
    the tile width or not. *)
Theorem matrix_multiply_batched a b h Ba Bb M K N :
  (storage a < length h)%nat → (storage b < length h)%nat →
  shape a = [Ba; M; K] → shape b = [Bb; K; N] →
  Ba = Bb ∨ Ba = 1 ∨ Bb = 1 →
  ∃ out h',
    CudaOps.matrix_multiply a b h = (inr out, h')
    ∧ shape out = [Z.max Ba Bb; M; N]
    ∧ ∀ p i j, 0 <= p < Z.max Ba Bb → 0 <= i < M → 0 <= j < N →
        tensor_get h' out [p; i; j]
        = dot (λ k, tensor_get h a [if bool_decide (1 < Ba) then p else 0; i; k])
              (λ k, tensor_get h b [if bool_decide (1 < Bb) then p else 0; k; j])
              K.
Proof.
  intros Ha Hb Hsa Hsb Hc.
  rewrite (matrix_multiply_unfold a b h a b false h Ba Bb M K N)
    by (done || (apply make_3d_rank3; by rewrite ?Hsa, ?Hsb)).
  eexists _, _. split; [done|]. split; [done|].
  set (ls := [Z.max Ba Bb; M; N]). set (h1 := h ++ _).
  set (V := λ p i j,
    dot (λ k, tensor_get h a [if bool_decide (1 < Ba) then p else 0; i; k])
        (λ k, tensor_get h b [if bool_decide (1 < Bb) then p else 0; k; j]) K).
  set (NF := λ blk : Z * Z * Z,
    pi ← seqZ 0 mm_BLOCK_DIM;
    pj ← seqZ 0 mm_BLOCK_DIM;
    let i := blk.1.1 * mm_BLOCK_DIM + pi in
    let j := blk.1.2 * mm_BLOCK_DIM + pj in
    if bool_decide (blk.2 < Z.max Ba Bb) && bool_decide (i < M) && bool_decide (j < N)
    then [(length h, index_to_position [blk.2; i; j] (strides_from_shape ls), V blk.2 i j)]
    else []).
  assert (∀ blk h', same_outside (length h) h1 h' →
    tensor_matrix_multiply (length h) ls (strides_from_shape ls) (prod ls)
      (storage a) (shape a) (strides a) (storage b) (shape b) (strides b)
      blk (THREADS_PER_BLOCK, THREADS_PER_BLOCK) h' = NF blk) as Hkern.
  { intros [[bx by_] bz] h' Hh'. unfold tensor_matrix_multiply.
    change (THREADS_PER_BLOCK, THREADS_PER_BLOCK) with (mm_BLOCK_DIM, mm_BLOCK_DIM).
    rewrite mm_block_writes by (by rewrite ?Hsa, ?Hsb).
    unfold NF. cbn [fst snd].
    apply bind_ext_in. intros pi Hpi. apply bind_ext_in. intros pj Hpj.
    change (item ls 0) with (Z.max Ba Bb).
    change (item ls 1) with M. change (item ls 2) with N.
    destruct (_ && _ && _); [|done].
    rewrite <- position3. do 3 f_equal. unfold V.
    rewrite Hsa, Hsb.
    change (item [Ba; M; K] 2) with K.
    unfold dot. apply foldl_ext_in. intros acc k _. f_equal.
    unfold tensor_get. rewrite !position3.
    rewrite <- !(load_same_outside (length h) h1 h') by (done || lia).
    unfold h1. rewrite !load_alloc by done.
    unfold mm_a_batch_stride, mm_b_batch_stride.
    change (item [Ba; M; K] 0) with Ba. change (item [Bb; K; N] 0) with Bb.
    f_equal; f_equal; repeat case_bool_decide; lia. }
  assert (∀ blk w, blk ∈ CudaOps.blocks
      ((M + (THREADS_PER_BLOCK - 1)) / THREADS_PER_BLOCK,
       (N + (THREADS_PER_BLOCK - 1)) / THREADS_PER_BLOCK, Z.max Ba Bb) →
    w ∈ NF blk →
    ∃ p i j, in_shape [p; i; j] ls
      ∧ w = (length h, index_to_position [p; i; j] (strides_from_shape ls), V p i j))
    as Hwrites.
  { intros [[bx by_] bz] w Hblk Hw. apply elem_of_blocks in Hblk.
    unfold NF in Hw. cbn [fst snd] in Hw.
    apply list_elem_of_bind in Hw as (pi & Hw & Hpi).
    apply list_elem_of_bind in Hw as (pj & Hw & Hpj).
    apply elem_of_seqZ in Hpi, Hpj. unfold mm_BLOCK_DIM in *.
    repeat case_bool_decide; cbn [andb] in Hw; try by apply elem_of_nil in Hw.
    apply list_elem_of_singleton in Hw.
    exists bz, (bx * 32 + pi), (by_ * 32 + pj). split; [|exact Hw].
    unfold ls. repeat constructor; lia. }
  intros p i j Hp Hi Hj.
  assert (in_shape [p; i; j] ls) as Hin by (unfold ls; repeat constructor; lia).
  pose proof (position_in_shape _ _ Hin) as Hposn.
  unfold tensor_get at 1. cbn [storage strides].
  eapply (launch_cell _ _ (length h) h1 (replicate (Z.to_nat (prod ls)) zero)
            (i / THREADS_PER_BLOCK, j / THREADS_PER_BLOCK, p)).
  - apply lookup_alloc.
  - rewrite length_replicate. lia.
  - intros blk h' _ Hh'. by rewrite !Hkern.
  - intros blk w Hblk Hw. rewrite Hkern in Hw by done.
    destruct (Hwrites blk w Hblk Hw) as (p' & i' & j' & Hin' & ->).
    split; [done|]. cbn [fst snd]. by apply position_in_shape.
  - apply elem_of_blocks. unfold THREADS_PER_BLOCK.
    repeat split; try lia; try (apply Z.div_pos; lia);
      apply Z.div_lt_upper_bound; try lia.
    + pose proof (Z.div_mod (M + (32 - 1)) 32).
      pose proof (Z.mod_pos_bound (M + (32 - 1)) 32). lia.
    + pose proof (Z.div_mod (N + (32 - 1)) 32).
      pose proof (Z.mod_pos_bound (N + (32 - 1)) 32). lia.
  - rewrite Hkern by done. unfold NF. cbn [fst snd].
    unfold THREADS_PER_BLOCK, mm_BLOCK_DIM.
    apply list_elem_of_bind. exists (i mod 32).
    split; [|apply elem_of_seqZ; pose proof (Z.mod_pos_bound i 32); lia].
    apply list_elem_of_bind. exists (j mod 32).
    split; [|apply elem_of_seqZ; pose proof (Z.mod_pos_bound j 32); lia].
    assert (i / 32 * 32 + i mod 32 = i) as -> by (pose proof (Z.div_mod i 32); lia).
    assert (j / 32 * 32 + j mod 32 = j) as -> by (pose proof (Z.div_mod j 32); lia).
    rewrite (bool_decide_true (p < _)), (bool_decide_true (i < M)),
      (bool_decide_true (j < N)) by lia.
    by apply list_elem_of_singleton.
  - intros blk v' Hblk Hv'. rewrite Hkern in Hv' by done.
    destruct (Hwrites blk _ Hblk Hv') as (p' & i' & j' & Hin' & Heq).
    assert (index_to_position [p; i; j] (strides_from_shape ls)
            = index_to_position [p'; i'; j'] (strides_from_shape ls)) as Hpos'
      by congruence.
    assert (v' = V p' i' j') as -> by congruence.
    assert ([p'; i'; j'] = [p; i; j]) as [= -> -> ->]; [|done].
    rewrite <- (to_index_position [p'; i'; j'] ls), <- (to_index_position [p; i; j] ls) by done.
    by rewrite Hpos'.
Qed.

(** C7: every two-dimensional operand goes into the multiply as a view of
    shape [(1, rows, columns)], and the batch dimension is taken off the
    result exactly when both operands were two-dimensional: [(M, K)] times
    [(K, N)] gives [(M, N)]; when only one operand is two-dimensional, or
    none, the result is three-dimensional. *)
Theorem matrix_multiply_rank a b h (B M K N : Z) :
  (shape a = [M; K] → shape b = [K; N] →
     ∃ a' b' h1 out h',
       CudaOps.make_3d a b h = (inr (a', b', true), h1)
       ∧ shape a' = [1; M; K] ∧ shape b' = [1; K; N]
       ∧ CudaOps.matrix_multiply a b h = (inr out, h')
       ∧ shape out = [M; N])
  ∧ (shape a = [M; K] → shape b = [B; K; N] →
     ∃ a' h1 out h',
       CudaOps.make_3d a b h = (inr (a', b, false), h1)
       ∧ shape a' = [1; M; K]
       ∧ CudaOps.matrix_multiply a b h = (inr out, h')
       ∧ shape out = [Z.max 1 B; M; N])
  ∧ (shape a = [B; M; K] → shape b = [K; N] →
     ∃ b' h1 out h',
       CudaOps.make_3d a b h = (inr (a, b', false), h1)
       ∧ shape b' = [1; K; N]
       ∧ CudaOps.matrix_multiply a b h = (inr out, h')
       ∧ shape out = [Z.max B 1; M; N])
  ∧ (∀ B', shape a = [B; M; K] → shape b = [B'; K; N] →
     B = B' ∨ B = 1 ∨ B' = 1 →
     ∃ out h',
       CudaOps.make_3d a b h = (inr (a, b, false), h)
       ∧ CudaOps.matrix_multiply a b h = (inr out, h')
       ∧ shape out = [Z.max B B'; M; N]).
Proof.
  destruct (make_3d_result a b h) as (a' & b' & h1 & Hmk & Ha' & Hb').
  split; [|split; [|split]].
  - intros Hsa Hsb. rewrite Hsa, Hsb in *.
    rewrite !bool_decide_true in * by done.
    change (item [M; K] 0) with M in Ha'. change (item [M; K] 1) with K in Ha'.
    change (item [K; N] 0) with K in Hb'. change (item [K; N] 1) with N in Hb'.
    eexists a', b', h1, _, _. split; [done|]. split; [done|]. split; [done|].
    rewrite (matrix_multiply_unfold a b h a' b' true h1 1 1 M K N) by auto.
    split; reflexivity.
  - intros Hsa Hsb. rewrite Hsa, Hsb in *.
    rewrite bool_decide_true in Ha' by done.
    rewrite bool_decide_false in Hb' by done. subst b'.
    rewrite bool_decide_false in Hmk by (intros [_ [=]]).
    change (item [M; K] 0) with M in Ha'. change (item [M; K] 1) with K in Ha'.
    eexists a', h1, _, _. split; [done|]. split; [done|].
    rewrite (matrix_multiply_unfold a b h a' b false h1 1 B M K N) by auto.
    split; reflexivity.
  - intros Hsa Hsb. rewrite Hsa, Hsb in *.
    rewrite bool_decide_false in Ha' by done. subst a'.
    rewrite bool_decide_true in Hb' by done.
    rewrite bool_decide_false in Hmk by (intros [[=] _]).
    change (item [K; N] 0) with K in Hb'. change (item [K; N] 1) with N in Hb'.
    eexists b', h1, _, _. split; [done|]. split; [done|].
    rewrite (matrix_multiply_unfold a b h a b' false h1 B 1 M K N) by auto.
    split; reflexivity.
  - intros B' Hsa Hsb Hc.
    assert (CudaOps.make_3d a b h = (inr (a, b, false), h)) as Hmk3
      by (apply make_3d_rank3; by rewrite ?Hsa, ?Hsb).
    eexists _, _. split; [done|].
    rewrite (matrix_multiply_unfold a b h a b false h B B' M K N) by done.
    split; reflexivity.
Qed.

(** C8: once the operands are normalized, and before an output is
    allocated or a kernel launched, matrix_multiply checks that the last
    extent of [a] is the extent before last of [b]; when they differ the
    call ends in an error (the assertion error, whenever the batch shapes
    broadcast), returns no tensor and leaves the memory as normalization
    left it. *)
Theorem matrix_multiply_inner_mismatch a b h a' b' both_2d h1 a_cols b_rows :
  CudaOps.make_3d a b h = (inr (a', b', both_2d), h1) →
  (2 <= length (shape a'))%nat →
  getitem (shape a') (-1) = Some a_cols →
  getitem (shape b') (-2) = Some b_rows →
  a_cols ≠ b_rows →
  ∃ e,
    CudaOps.matrix_multiply a b h = (inl e, h1)
    ∧ (is_Some (shape_broadcast (but_last2 (shape a')) (but_last2 (shape b')))
       → e = AssertionError).
Proof.
  intros Hmk Hrank Hac Hbr Hne. unfold CudaOps.matrix_multiply.
  unfold mbind at 1. unfold M_bind at 1. rewrite Hmk.
  unfold mbind, M_bind, or_raise.
  destruct (shape_broadcast _ _) as [ls|]; simpl.
  2:{ exists ShapeMismatchError. split; [done|]. by intros [? [=]]. }
  assert (is_Some (getitem (shape a') (-2))) as [a_rows ->].
  { unfold getitem, py_index. rewrite bool_decide_false by lia.
    rewrite bool_decide_true by lia. simpl. apply lookup_lt_is_Some. lia. }
  assert (is_Some (getitem (shape b') (-1))) as [b_cols ->].
  { unfold getitem, py_index in *. rewrite bool_decide_false in * by lia.
    case_bool_decide; [|done].
    rewrite bool_decide_true by lia. simpl. apply lookup_lt_is_Some. lia. }
  simpl. rewrite Hac, Hbr. simpl. rewrite bool_decide_false by done.
  by exists AssertionError.
Qed.

End properties.

(** * Further properties of the code *)

(** ** Order of the stores *)

Section memory_order.
Context {T : Type} `{!Scalar T}.
Implicit Types (h : heap T) (w : write T) (ws : list (write T)).

(** A store at a position from 0 on changes one cell of one array, when
    there is such a cell. *)
Lemma store_alter h addr pos v :
  0 <= pos → store h (addr, pos, v) = alter (<[Z.to_nat pos := v]>) addr h.
Proof.
  intros Hpos. unfold store.
  destruct (h !! addr) as [st|] eqn:Hst; simpl.
  - destruct (decide (pos < Z.of_nat (length st))) as [Hlt|Hge].
    + rewrite setitem_nonneg by lia.
      apply list_eq. intros n. destruct (decide (n = addr)) as [->|Hne].
      * rewrite list_lookup_insert_eq by (by eapply lookup_lt_Some).
        by rewrite list_lookup_alter_eq, Hst.
      * by rewrite list_lookup_insert_ne, list_lookup_alter_ne.
    + rewrite setitem_None by lia.
      apply list_eq. intros n. destruct (decide (n = addr)) as [->|Hne].
      * rewrite list_lookup_alter_eq, Hst. simpl.
        by rewrite list_insert_ge by lia.
      * by rewrite list_lookup_alter_ne.
  - apply list_eq. intros n. destruct (decide (n = addr)) as [->|Hne].
    + by rewrite list_lookup_alter_eq, Hst.
    + by rewrite list_lookup_alter_ne.
Qed.

(** Two stores to different cells can be made in either order. *)
Lemma store_comm h w1 w2 :
  0 <= w1.1.2 → 0 <= w2.1.2 → (w1.1.1, w1.1.2) ≠ (w2.1.1, w2.1.2) →
  store (store h w1) w2 = store (store h w2) w1.
Proof.
  destruct w1 as [[a1 p1] v1], w2 as [[a2 p2] v2]; cbn [fst snd]. intros Hp1 Hp2 Hne.
  rewrite !store_alter by done.
  destruct (decide (a1 = a2)) as [->|Ha].
  - rewrite !list_alter_alter_eq. apply list_alter_ext; [|done].
    intros st _. simpl. apply list_insert_insert_ne. intros Heq.
    apply Hne. f_equal. lia.
  - by apply list_alter_alter_ne.
Qed.

(** The stores of a launch that never puts two values into one cell can
    be made in any order. *)
Lemma commit_Permutation ws ws' h :
  ws ≡ₚ ws' →
  Forall (λ w, 0 <= w.1.2) ws →
  (∀ w1 w2, w1 ∈ ws → w2 ∈ ws → (w1.1.1, w1.1.2) = (w2.1.1, w2.1.2) → w1 = w2) →
  commit ws h = commit ws' h.
Proof.
  intros Hperm. revert h.
  induction Hperm as [|w ws ws' Hperm IH|w1 w2 ws|ws ws' ws'' Hperm IH Hperm' IH'];
    intros h Hnn Hfun.
  - done.
  - unfold commit in *. simpl. apply IH.
    + by apply Forall_cons in Hnn as [_ ?].
    + intros w1 w2 H1 H2. apply Hfun; by right.
  - unfold commit. simpl. f_equal.
    apply Forall_cons in Hnn as [Hw2 Hnn]. apply Forall_cons in Hnn as [Hw1 _].
    destruct (decide ((w1.1.1, w1.1.2) = (w2.1.1, w2.1.2))) as [Heq|Hne].
    + rewrite (Hfun w1 w2); [done| | |done].
      * right. left.
      * left.
    + symmetry. by apply store_comm.
  - rewrite IH by done. apply IH'.
    + by rewrite <- Hperm.
    + intros w1 w2 H1 H2. apply Hfun; by rewrite Hperm.
Qed.

(** A cell no store of the launch goes to keeps what it held. *)
Lemma load_commit_other ws h addr pos :
  0 <= pos →
  Forall (λ w, 0 <= w.1.2) ws →
  (∀ w, w ∈ ws → (w.1.1, w.1.2) ≠ (addr, pos)) →
  load (commit ws h) addr pos = load h addr pos.
Proof.
  intros Hpos. induction ws as [|w ws IH] using rev_ind; intros Hnn Hother; [done|].
  rewrite commit_app. simpl.
  apply Forall_app in Hnn as [Hnn Hw]. rewrite Forall_singleton in Hw.
  rewrite load_store_ne.
  - apply IH; [done|]. intros w' Hw'. apply Hother, elem_of_app. by left.
  - apply Hother, elem_of_app. right. by apply list_elem_of_singleton.
  - done.
  - done.
Qed.

End memory_order.

(** The threads of a launch come in the order of their linear index. *)
Lemma threads_bind {B} (g : Z → list B) blockspergrid threadsperblock :
  0 <= threadsperblock →
  threads blockspergrid threadsperblock ≫= (λ t, g (t.1 * threadsperblock + t.2))
  = seqZ 0 (blockspergrid * threadsperblock) ≫= g.
Proof.
  intros Hn. unfold threads.
  destruct (decide (0 <= blockspergrid)) as [Hb|Hb].
  2:{ assert (blockspergrid * threadsperblock <= 0) by nia.
      by rewrite (seqZ_nil 0 blockspergrid), (seqZ_nil 0 (_ * _)) by lia. }
  rewrite <- (Z2Nat.id blockspergrid) by done.
  induction (Z.to_nat blockspergrid) as [|b IH]; [done|].
  rewrite seqZ_S, !bind_app, IH, bind_singleton. simpl.
  replace (Z.of_nat (S b) * threadsperblock)
    with (Z.of_nat b * threadsperblock + threadsperblock) by lia.
  rewrite seqZ_app, bind_app by nia. f_equal.
  rewrite Z.add_0_l, <- (Z.add_0_r (Z.of_nat b * _)).
  rewrite <- (fmap_add_seqZ (Z.of_nat b * threadsperblock) 0).
  rewrite list_fmap_bind. clear IH.
  induction (seqZ 0 threadsperblock) as [|tid l IHl]; [done|].
  rewrite !bind_cons, bind_app, IHl. f_equal.
  by rewrite bind_singleton.
Qed.

(** A loop that stores once for every position below [size] and nothing
    for the positions after. *)
Lemma bind_below {B} (v : Z → B) size n :
  0 <= size <= n →
  seqZ 0 n ≫= (λ i, if bool_decide (i < size) then [v i] else []) = v <$> seqZ 0 size.
Proof.
  intros Hs. replace n with (size + (n - size)) by lia.
  rewrite seqZ_app, bind_app by lia.
  rewrite (bind_nil_all _ (seqZ (0 + size) _)), app_nil_r.
  - induction (seqZ 0 size) as [|i l IH] eqn:Hl using rev_ind; [done|].
    assert (Forall (λ i, i < size) (l ++ [i])) as Hall.
    { rewrite <- Hl. apply Forall_seqZ. lia. }
    clear Hl. apply Forall_app in Hall as [Hall Hi]. rewrite Forall_singleton in Hi.
    rewrite bind_app, fmap_app, bind_singleton. simpl.
    rewrite bool_decide_true by done. f_equal.
    clear IH. induction Hall as [|j l Hj Hall IH]; [done|].
    rewrite bind_cons, fmap_cons, IH. by rewrite bool_decide_true.
  - intros i Hi. apply elem_of_seqZ in Hi. by rewrite bool_decide_false by lia.
Qed.

Lemma grid_covers size :
  0 <= size →
  size <= (size + THREADS_PER_BLOCK - 1) / THREADS_PER_BLOCK * THREADS_PER_BLOCK.
Proof.
  unfold THREADS_PER_BLOCK. intros Hs.
  pose proof (Z.div_mod (size + 32 - 1) 32). pose proof (Z.mod_pos_bound (size + 32 - 1) 32).
  lia.
Qed.

Section elementwise_contiguous.
Context {T : Type} `{!Scalar T} `{!Limits}.
Implicit Types (h : heap T).

Lemma prod_nonneg shape : Forall (λ s, 0 <= s) shape → 0 <= prod shape.
Proof. induction 1; simpl; lia. Qed.

(** With the standard strides, the thread [i] stores at position [i]. *)
Lemma _map_thread_contiguous fn out S in_storage in_shape in_strides bid tid h :
  (length S <= MAX_DIMS)%nat →
  Forall (λ s, 0 <= s) S → Forall (λ s, s <= 2 ^ 31) S →
  0 <= bid → 0 <= tid →
  let i := bid * THREADS_PER_BLOCK + tid in
  _map fn out S (strides_from_shape S) (prod S) in_storage in_shape in_strides
    bid THREADS_PER_BLOCK tid h
  = if bool_decide (i < prod S)
    then [(out, i,
           fn (load h in_storage
                 (index_to_position (broadcast_index (to_index i S) S in_shape)
                    in_strides)))]
    else [].
Proof.
  intros Hrank Hnn Hle Hbid Htid i. unfold THREADS_PER_BLOCK in *.
  case_bool_decide as Hlt.
  - assert (0 <= i) by lia.
    rewrite _map_thread by (done || (apply prod_pos_inv; [done|lia])). fold i.
    by rewrite position_of_to_index by (done || lia).
  - unfold _map. by rewrite bool_decide_false.
Qed.

Lemma _zip_thread_contiguous fn out S a_storage a_shape a_strides
    b_storage b_shape b_strides bid tid h :
  (length S <= MAX_DIMS)%nat →
  Forall (λ s, 0 <= s) S → Forall (λ s, s <= 2 ^ 31) S →
  0 <= bid → 0 <= tid →
  let i := bid * THREADS_PER_BLOCK + tid in
  _zip fn out S (strides_from_shape S) (prod S) a_storage a_shape a_strides
    b_storage b_shape b_strides bid THREADS_PER_BLOCK tid h
  = if bool_decide (i < prod S)
    then [(out, i,
           fn (load h a_storage
                 (index_to_position (broadcast_index (to_index i S) S a_shape) a_strides))
              (load h b_storage
                 (index_to_position (broadcast_index (to_index i S) S b_shape) b_strides)))]
    else [].
Proof.
  intros Hrank Hnn Hle Hbid Htid i. unfold THREADS_PER_BLOCK in *.
  case_bool_decide as Hlt.
  - assert (0 <= i) by lia.
    rewrite _zip_thread by (done || (apply prod_pos_inv; [done|lia])). fold i.
    by rewrite position_of_to_index by (done || lia).
  - unfold _zip. by rewrite bool_decide_false.
Qed.

(** The stores of a launch of thread-level kernels that each store their
    own position: one for every position, in order. *)
Lemma launch_stores (kernel : Z → Z → Z → heap T → list (write T)) out size
    (val : Z → T) h :
  0 <= size →
  (∀ bid tid, 0 <= bid → 0 <= tid →
     kernel bid THREADS_PER_BLOCK tid h
     = if bool_decide (bid * THREADS_PER_BLOCK + tid < size)
       then [(out, bid * THREADS_PER_BLOCK + tid, val (bid * THREADS_PER_BLOCK + tid))]
       else []) →
  threads ((size + THREADS_PER_BLOCK - 1) / THREADS_PER_BLOCK) THREADS_PER_BLOCK
    ≫= (λ t, on_thread THREADS_PER_BLOCK kernel t h)
  = (λ i, (out, i, val i)) <$> seqZ 0 size.
Proof.
  intros Hs Hk.
  rewrite <- (bind_below _ size
    ((size + THREADS_PER_BLOCK - 1) / THREADS_PER_BLOCK * THREADS_PER_BLOCK))
    by (split; [done|by apply grid_covers]).
  rewrite <- threads_bind by done.
  apply bind_ext_in. intros [bid tid] Ht. apply elem_of_threads in Ht.
  unfold on_thread. cbn [fst snd]. apply Hk; lia.
Qed.

End elementwise_contiguous.

Lemma bind_singleton_fmap {A B} (f : A → B) (l : list A) : l ≫= (λ x, [f x]) = f <$> l.
Proof. induction l as [|x l IH]; [done|]. by rewrite bind_cons, fmap_cons, IH. Qed.

(** The linear indices of the threads of a launch, in its order. *)
Lemma threads_index blockspergrid threadsperblock :
  0 <= threadsperblock →
  (λ t, t.1 * threadsperblock + t.2) <$> threads blockspergrid threadsperblock
  = seqZ 0 (blockspergrid * threadsperblock).
Proof.
  intros Hn. rewrite <- bind_singleton_fmap.
  rewrite (threads_bind (λ i, [i])) by done.
  by rewrite bind_singleton_fmap, list_fmap_id.
Qed.

(** ** More on the elementwise kernels *)

Section more_elementwise.
Context {T : Type} `{!Scalar T} `{!Limits}.
Implicit Types (h : heap T) (a b : Tensor).

(** A launch runs its threads in the order of their linear index. *)
Lemma launch_in_order (kernel : Z → Z → Z → heap T → list (write T))
    (G : Z → heap T → list (write T)) blockspergrid threadsperblock h :
  0 <= threadsperblock →
  (∀ bid tid h', 0 <= bid → 0 <= tid →
     kernel bid threadsperblock tid h' = G (bid * threadsperblock + tid) h') →
  launch (threads blockspergrid threadsperblock) (on_thread threadsperblock kernel) h
  = foldl (λ h i, commit (G i h) h) h (seqZ 0 (blockspergrid * threadsperblock)).
Proof.
  intros Hn Hk. unfold launch.
  rewrite <- threads_index by done. rewrite foldl_fmap.
  apply foldl_ext_in. intros h' [bid tid] Ht. apply elem_of_threads in Ht.
  unfold on_thread. cbn [fst snd]. rewrite Hk by lia. done.
Qed.

(** X1: called with an output tensor, map allocates nothing: given a
    contiguous [out] on another storage than [a], it returns [out] itself,
    changes no other array, and leaves at every coordinate of [out] the
    value of [fn] at the element of [a] that [broadcast_index] gives for that
    coordinate (so [a] is broadcast to the shape of [out]). *)
Theorem map_into_out (fn : T → T) a out h st :
  h !! storage out = Some st → size out <= Z.of_nat (length st) →
  storage a ≠ storage out →
  strides out = strides_from_shape (shape out) →
  (length (shape out) <= MAX_DIMS)%nat →
  Forall (λ s, s <= 2 ^ 31) (shape out) →
  ∃ h',
    CudaOps.map fn a (Some out) h = (inr out, h')
    ∧ same_outside (storage out) h h'
    ∧ ∀ index, in_shape index (shape out) →
        tensor_get h' out index
        = fn (tensor_get h a (broadcast_index index (shape out) (shape a))).
Proof.
  intros Hst Hlen Hne Hstr Hrank Hle.
  unfold CudaOps.map, mbind, M_bind, mret, M_ret, run_kernel, tensor_map, size in *.
  eexists. split; [done|]. split.
  { apply launch_same_outside. intros [bid tid] h' _.
    unfold on_thread, _map. simpl. case_bool_decide; repeat constructor. }
  set (S := shape out) in *.
  intros index Hin.
  pose proof (in_shape_pos _ _ Hin) as Hpos.
  pose proof (position_in_shape _ _ Hin) as Hi.
  unfold tensor_get at 1. rewrite Hstr.
  rewrite (elementwise_launch _ (storage out) (prod S)
    (λ i, fn (load h (storage a)
      (index_to_position (broadcast_index (to_index i S) S (shape a)) (strides a))))
    h st).
  - by rewrite to_index_position.
  - intros bid tid h' Hh' Hbid Htid i.
    rewrite _map_thread_contiguous
      by (done || (eapply Forall_impl; [exact Hpos|]; simpl; lia)).
    fold i. case_bool_decide; [|done].
    by rewrite <- (load_same_outside (storage out) h h').
  - done.
  - done.
  - done.
Qed.

(** X2: map may be run in place: with the contiguous tensor [a] itself as
    the output, a thread reads and stores its own cell only, so every
    element of [a] is replaced by [fn] of the value it held before the call,
    and no other array changes. *)
Theorem map_in_place (fn : T → T) a h st :
  h !! storage a = Some st → size a <= Z.of_nat (length st) →
  strides a = strides_from_shape (shape a) →
  (length (shape a) <= MAX_DIMS)%nat →
  Forall (λ s, 0 <= s) (shape a) →
  Forall (λ s, s <= 2 ^ 31) (shape a) →
  ∃ h',
    CudaOps.map fn a (Some a) h = (inr a, h')
    ∧ same_outside (storage a) h h'
    ∧ (∀ i, 0 <= i < size a → load h' (storage a) i = fn (load h (storage a) i))
    ∧ ∀ index, in_shape index (shape a) →
        tensor_get h' a index = fn (tensor_get h a index).
Proof.
  intros Hst Hlen Hstr Hrank Hnn Hle.
  unfold CudaOps.map, mbind, M_bind, mret, M_ret, run_kernel, tensor_map, size in *.
  eexists. split; [done|].
  set (S := shape a) in *. set (out := storage a) in *.
  set (B := (prod S + THREADS_PER_BLOCK - 1) / THREADS_PER_BLOCK).
  set (G := λ i (h' : heap T),
    if bool_decide (i < prod S) then [(out, i, fn (load h' out i))] else []).
  rewrite Hstr.
  rewrite (launch_in_order _ G).
  2:{ done. }
  2:{ intros bid tid h' Hbid Htid. rewrite _map_thread_contiguous by done.
      unfold G. case_bool_decide as Hlt; [|done].
      rewrite broadcast_index_same
        by (apply to_index_in_shape, prod_pos_inv; [done|unfold THREADS_PER_BLOCK in *; lia]).
      by rewrite position_of_to_index by (done || unfold THREADS_PER_BLOCK in *; lia). }
  assert (∀ m : nat,
    let hm := foldl (λ h i, commit (G i h) h) h (seqZ 0 (Z.of_nat m)) in
    same_outside out h hm
    ∧ ∀ i, 0 <= i < prod S →
        load hm out i = if bool_decide (i < Z.of_nat m) then fn (load h out i)
                        else load h out i) as Hinv.
  { induction m as [|m [Hsame IH]]; intros hm.
    { split; [done|]. intros i Hi. by rewrite bool_decide_false by lia. }
    unfold hm. rewrite seqZ_S, foldl_app. cbn [foldl]. rewrite Z.add_0_l.
    set (hm' := foldl _ h (seqZ 0 (Z.of_nat m))) in *.
    destruct (decide (Z.of_nat m < prod S)) as [Hlt|Hlt].
    - assert (G (Z.of_nat m) hm' = [(out, Z.of_nat m, fn (load hm' out (Z.of_nat m)))])
        as -> by (unfold G; by rewrite bool_decide_true).
      split.
      + eapply same_outside_trans; [exact Hsame|].
        apply commit_same_outside. by repeat constructor.
      + intros i Hi. unfold commit. cbn [foldl].
        assert (∃ st', hm' !! out = Some st' ∧ length st' = length st) as (st' & Hst' & Hlen').
        { destruct Hsame as [Hl Hs].
          assert (length <$> hm' !! out = length <$> h !! out) as Hbl.
          { unfold hm'. clear. induction (seqZ 0 (Z.of_nat m)) as [|j l IHl] using rev_ind;
              [done|]. rewrite foldl_app. cbn [foldl].
            by rewrite commit_buffer_length. }
          rewrite Hst in Hbl. destruct (hm' !! out) as [st'|]; [|done].
          injection Hbl as Hbl. eauto. }
        destruct (decide (i = Z.of_nat m)) as [->|Hne].
        * rewrite (load_store_eq _ _ _ _ st') by (done || lia).
          rewrite bool_decide_true by lia. f_equal.
          rewrite IH by lia. by rewrite bool_decide_false by lia.
        * rewrite load_store_ne by (cbn [fst snd]; (congruence || lia)).
          rewrite IH by lia. apply (f_equal (λ c : bool, if c then _ else _)).
          apply bool_decide_ext. lia.
    - assert (G (Z.of_nat m) hm' = []) as -> by (unfold G; by rewrite bool_decide_false).
      split; [done|]. intros i Hi. unfold commit. cbn [foldl].
      rewrite IH by lia. apply (f_equal (λ c : bool, if c then _ else _)).
      apply bool_decide_ext. lia. }
  pose proof (prod_nonneg S Hnn) as Hsize.
  assert (0 <= B * THREADS_PER_BLOCK) as HB.
  { pose proof (grid_covers (prod S) Hsize). unfold B. lia. }
  destruct (Hinv (Z.to_nat (B * THREADS_PER_BLOCK))) as [Hsame Hcells].
  rewrite Z2Nat.id in Hsame, Hcells by done.
  split; [done|]. split.
  - intros i Hi. rewrite Hcells by done.
    pose proof (grid_covers (prod S) Hsize) as Hcov. fold B in Hcov.
    by rewrite bool_decide_true by lia.
  - intros index Hin. unfold tensor_get. fold out. rewrite Hstr.
    pose proof (position_in_shape _ _ Hin) as Hposn.
    rewrite Hcells by done.
    pose proof (grid_covers (prod S) Hsize) as Hcov. fold B in Hcov.
    by rewrite bool_decide_true by lia.
Qed.

(** X3: in the launch that map and zip make for a contiguous output, the
    stores of all the threads, in thread order, go to the positions
    0, 1, ..., size - 1 of [out]: each position is stored to exactly once, and
    the threads that the rounded-up grid adds beyond the size store
    nothing. *)
Theorem elementwise_stores_once (f1 : T → T) (f2 : T → T → T)
    out S in_storage in_shape in_strides
    a_storage a_shape a_strides b_storage b_shape b_strides h :
  (length S <= MAX_DIMS)%nat →
  Forall (λ s, 0 <= s) S → Forall (λ s, s <= 2 ^ 31) S →
  let grid :=
    threads ((prod S + THREADS_PER_BLOCK - 1) / THREADS_PER_BLOCK) THREADS_PER_BLOCK in
  let map_kernel :=
    tensor_map f1 out S (strides_from_shape S) (prod S) in_storage in_shape in_strides in
  let zip_kernel :=
    tensor_zip f2 out S (strides_from_shape S) (prod S) a_storage a_shape a_strides
      b_storage b_shape b_strides in
  (grid ≫= λ t, on_thread THREADS_PER_BLOCK map_kernel t h).*1
  = (λ i, (out, i)) <$> seqZ 0 (prod S)
  ∧ (grid ≫= λ t, on_thread THREADS_PER_BLOCK zip_kernel t h).*1
    = (λ i, (out, i)) <$> seqZ 0 (prod S).
Proof.
  intros Hrank Hnn Hle grid map_kernel zip_kernel.
  pose proof (prod_nonneg S Hnn) as Hsize.
  split.
  - unfold grid.
    rewrite (launch_stores _ out (prod S) (λ i, f1 (load h in_storage
      (index_to_position (broadcast_index (to_index i S) S in_shape) in_strides)))).
    + by rewrite <- list_fmap_compose.
    + done.
    + intros bid tid Hbid Htid. unfold map_kernel, tensor_map.
      by rewrite _map_thread_contiguous.
  - unfold grid.
    rewrite (launch_stores _ out (prod S) (λ i, f2
      (load h a_storage
         (index_to_position (broadcast_index (to_index i S) S a_shape) a_strides))
      (load h b_storage
         (index_to_position (broadcast_index (to_index i S) S b_shape) b_strides)))).
    + by rewrite <- list_fmap_compose.
    + done.
    + intros bid tid Hbid Htid. unfold zip_kernel, tensor_zip.
      by rewrite _zip_thread_contiguous.
Qed.

(** X4: the memory after the launch of the map or the zip kernel, on a
    contiguous output that is not one of the inputs, does not depend on the
    order in which the threads run: any permutation of the grid leaves the
    same memory. *)
Theorem elementwise_order_independent (f1 : T → T) (f2 : T → T → T)
    out S in_storage in_shape in_strides
    a_storage a_shape a_strides b_storage b_shape b_strides h grid' :
  (length S <= MAX_DIMS)%nat →
  Forall (λ s, 0 <= s) S → Forall (λ s, s <= 2 ^ 31) S →
  in_storage ≠ out → a_storage ≠ out → b_storage ≠ out →
  let grid :=
    threads ((prod S + THREADS_PER_BLOCK - 1) / THREADS_PER_BLOCK) THREADS_PER_BLOCK in
  let map_kernel :=
    tensor_map f1 out S (strides_from_shape S) (prod S) in_storage in_shape in_strides in
  let zip_kernel :=
    tensor_zip f2 out S (strides_from_shape S) (prod S) a_storage a_shape a_strides
      b_storage b_shape b_strides in
  grid' ≡ₚ grid →
  launch grid' (on_thread THREADS_PER_BLOCK map_kernel) h
  = launch grid (on_thread THREADS_PER_BLOCK map_kernel) h
  ∧ launch grid' (on_thread THREADS_PER_BLOCK zip_kernel) h
    = launch grid (on_thread THREADS_PER_BLOCK zip_kernel) h.
Proof.
  intros Hrank Hnn Hle Hin Ha Hb grid map_kernel zip_kernel Hperm.
  assert (∀ (kernel : Z → Z → Z → heap T → list (write T)) (val : heap T → Z → T),
    (∀ bid tid h', 0 <= bid → 0 <= tid →
       kernel bid THREADS_PER_BLOCK tid h'
       = if bool_decide (bid * THREADS_PER_BLOCK + tid < prod S)
         then [(out, bid * THREADS_PER_BLOCK + tid,
                val h' (bid * THREADS_PER_BLOCK + tid))]
         else []) →
    (∀ h' i, same_outside out h h' → val h' i = val h i) →
    launch grid' (on_thread THREADS_PER_BLOCK kernel) h
    = launch grid (on_thread THREADS_PER_BLOCK kernel) h) as Hgen.
  { intros kernel val Hk Hval.
    assert (∀ t h', t ∈ grid → same_outside out h h' →
      on_thread THREADS_PER_BLOCK kernel t h'
      = if bool_decide (t.1 * THREADS_PER_BLOCK + t.2 < prod S)
        then [(out, t.1 * THREADS_PER_BLOCK + t.2,
               val h (t.1 * THREADS_PER_BLOCK + t.2))]
        else []) as Hk'.
    { intros [bid tid] h' Ht Hh'. apply elem_of_threads in Ht.
      unfold on_thread. cbn [fst snd]. rewrite Hk by lia.
      case_bool_decide; [|done]. by rewrite Hval. }
    assert (∀ t w, t ∈ grid → w ∈ on_thread THREADS_PER_BLOCK kernel t h →
      ∃ i, 0 <= i ∧ w = (out, i, val h i)) as Hw.
    { intros [bid tid] w Ht Hin'. rewrite Hk' in Hin' by done.
      apply elem_of_threads in Ht. cbn [fst snd] in Hin'.
      case_bool_decide; [|by apply elem_of_nil in Hin'].
      apply list_elem_of_singleton in Hin'. eexists. split; [|done].
      unfold THREADS_PER_BLOCK. lia. }
    rewrite !(launch_commit out).
    - symmetry. apply commit_Permutation.
      + by rewrite Hperm.
      + apply Forall_forall. intros w Hin'.
        apply list_elem_of_bind in Hin' as (t & Hin' & Ht).
        destruct (Hw t w Ht Hin') as (i & Hi & ->). done.
      + intros w1 w2 H1 H2 Heq.
        apply list_elem_of_bind in H1 as (t1 & H1 & Ht1).
        apply list_elem_of_bind in H2 as (t2 & H2 & Ht2).
        destruct (Hw t1 w1 Ht1 H1) as (i1 & _ & ->).
        destruct (Hw t2 w2 Ht2 H2) as (i2 & _ & ->).
        cbn [fst snd] in Heq. by injection Heq as ->.
    - intros t h' Ht Hh'. by rewrite !Hk'.
    - intros t Ht. rewrite Hk' by done. case_bool_decide; repeat constructor.
    - intros t h' Ht Hh'. rewrite Hperm in Ht. by rewrite !Hk'.
    - intros t Ht. rewrite Hperm in Ht. rewrite Hk' by done.
      case_bool_decide; repeat constructor. }
  split.
  - apply (Hgen _ (λ h' i, f1 (load h' in_storage
      (index_to_position (broadcast_index (to_index i S) S in_shape) in_strides)))).
    + intros bid tid h' Hbid Htid. unfold map_kernel, tensor_map.
      by rewrite _map_thread_contiguous.
    + intros h' i Hh'. f_equal. symmetry. by apply (load_same_outside out).
  - apply (Hgen _ (λ h' i, f2
      (load h' a_storage
         (index_to_position (broadcast_index (to_index i S) S a_shape) a_strides))
      (load h' b_storage
         (index_to_position (broadcast_index (to_index i S) S b_shape) b_strides)))).
    + intros bid tid h' Hbid Htid. unfold zip_kernel, tensor_zip.
      by rewrite _zip_thread_contiguous.
    + intros h' i Hh'. f_equal; symmetry; by apply (load_same_outside out).
Qed.

(** X5: two maps in a row compose: [map g] of the result of [map f] holds
    [g (f x)] at every coordinate, and neither the input nor the
    intermediate result is changed by the second call. *)
Theorem map_after_map (f g : T → T) a h :
  (storage a < length h)%nat →
  (length (shape a) <= MAX_DIMS)%nat →
  Forall (λ s, s <= 2 ^ 31) (shape a) →
  ∃ b c h1 h2,
    CudaOps.map f a None h = (inr b, h1)
    ∧ CudaOps.map g b None h1 = (inr c, h2)
    ∧ shape c = shape a
    ∧ ∀ index, in_shape index (shape a) →
        tensor_get h2 c index = g (f (tensor_get h a index))
        ∧ tensor_get h2 b index = tensor_get h1 b index
        ∧ tensor_get h2 a index = tensor_get h a index.
Proof.
  intros Ha Hrank Hle.
  destruct (map_elements f a h Ha Hrank Hle)
    as (b & h1 & Hrun1 & Hshape1 & Hsto1 & Hstr1 & Hframe1 & Hget1).
  assert (length h1 = S (length h)) as Hlen1.
  { destruct Hframe1 as [<- _]. rewrite length_app. simpl. lia. }
  destruct (map_elements g b h1) as (c & h2 & Hrun2 & Hshape2 & Hsto2 & Hstr2 & Hframe2 & Hget2).
  { lia. }
  { by rewrite Hshape1. }
  { by rewrite Hshape1. }
  exists b, c, h1, h2. split; [done|]. split; [done|]. split; [congruence|].
  intros index Hin. split; [|split].
  - rewrite Hget2 by (by rewrite Hshape1). by rewrite Hget1.
  - unfold tensor_get. rewrite <- (load_same_outside (length h1) (h1 ++ _) h2) by (done || lia).
    rewrite load_alloc by lia. done.
  - unfold tensor_get.
    rewrite <- (load_same_outside (length h1) (h1 ++ _) h2) by (done || lia).
    rewrite load_alloc by lia.
    rewrite <- (load_same_outside (length h) (h ++ _) h1) by (done || lia).
    by rewrite load_alloc.
Qed.

End more_elementwise.

(** ** More on the reduction *)

(** Changing one entry of a coordinate moves its position by the change
    times the stride of that dimension. *)
Lemma position_insert (index strides : list Z) d v c s :
  index !! d = Some c → strides !! d = Some s →
  index_to_position (<[d := v]> index) strides
  = index_to_position index strides + (v - c) * s.
Proof.
  revert strides d. induction index as [|c0 index IH]; intros [|s0 strides] [|d] Hc Hs;
    simplify_eq/=; try lia.
  rewrite (IH strides d) by done. lia.
Qed.

Lemma strides_from_shape_lookup shape d :
  (d < length shape)%nat →
  strides_from_shape shape !! d = Some (prod (drop (S d) shape)).
Proof.
  revert d. induction shape as [|s shape IH]; intros [|d] Hd; simpl in *; try lia.
  - by rewrite drop_0.
  - apply IH. lia.
Qed.

Section tree_start.
Context {T : Type} (fn : T → T → T).
Implicit Types (x : Z → T).

(** A tree whose cells are all inside the bound never meets the start
    value. *)
Lemma tree_combine_full start start' x n rounds pos :
  pos + 2 ^ Z.of_nat rounds <= n →
  tree_combine fn start x n rounds pos = tree_combine fn start' x n rounds pos.
Proof.
  revert pos. induction rounds as [|r IH]; intros pos Hin.
  - rewrite !tree_combine_0. simpl in Hin. by rewrite !bool_decide_true by lia.
  - rewrite !tree_combine_S.
    rewrite Nat2Z.inj_succ, Z.pow_succ_r in Hin by lia.
    assert (0 < 2 ^ Z.of_nat r) by (apply Z.pow_pos_nonneg; lia).
    rewrite !bool_decide_true by lia.
    by rewrite !(IH _) by lia.
Qed.

(** A tree over a single value combines it with the start value once in
    every round. *)
Lemma tree_combine_single start x rounds :
  tree_combine fn start x 1 rounds 0 = Nat.iter rounds (λ v, fn v start) (x 0).
Proof.
  induction rounds as [|r IH].
  - rewrite tree_combine_0. by rewrite bool_decide_true by lia.
  - rewrite tree_combine_S, bool_decide_true by lia.
    rewrite IH, tree_combine_outside; [done|].
    assert (0 < 2 ^ Z.of_nat r) by (apply Z.pow_pos_nonneg; lia). lia.
Qed.

End tree_start.

Section more_reduce.
Context {T : Type} `{!Scalar T} `{!Limits} `{!LocalMemory}.
Implicit Types (h : heap T) (a : Tensor).

(** X6: reduce accepts exactly the axes [-rank <= dim < rank]: for these it
    allocates one array and returns a view of it; for any other [dim] it
    ends in IndexError and leaves the memory as it was (the axis is looked
    up in the shape before anything is allocated). *)
Theorem reduce_axis_check (fn : T → T → T) (start : T) a dim h :
  let rank := Z.of_nat (length (shape a)) in
  (- rank <= dim < rank →
     ∃ out h', CudaOps.reduce fn start a dim h = (inr out, h')
       ∧ storage out = length h ∧ length h' = S (length h))
  ∧ (¬ (- rank <= dim < rank) →
     CudaOps.reduce fn start a dim h = (inl IndexError, h)).
Proof.
  intros rank. split.
  - intros Hdim.
    assert (∃ d, py_index (length (shape a)) dim = Some d) as [d Hd].
    { unfold py_index. destruct (decide (0 <= dim)).
      - rewrite bool_decide_true by (unfold rank in *; lia). eauto.
      - rewrite bool_decide_false by lia.
        rewrite bool_decide_true by (unfold rank in *; lia). eauto. }
    destruct (lookup_lt_is_Some_2 (shape a) d (py_index_lt _ _ _ Hd)) as [n Hn].
    rewrite (reduce_unfold fn start a dim h d n Hd Hn). cbv zeta.
    eexists _, _. split; [reflexivity|]. split; [reflexivity|].
    set (out_shape := <[d := _]> (shape a)).
    destruct (launch_same_outside (length h) (seqZ 0 (prod out_shape))
      (λ blockIdx, _reduce fn (length h) out_shape (strides_from_shape out_shape)
         (prod out_shape) (storage a) (shape a) (strides a) dim start blockIdx 1024)
      (h ++ [replicate (Z.to_nat (prod out_shape)) zero])) as [<- _].
    + intros blk h' _. unfold _reduce. apply Forall_forall. intros w Hw.
      apply list_elem_of_bind in Hw as (pos & Hw & _).
      destruct (_ && _); [|by apply elem_of_nil in Hw].
      apply list_elem_of_singleton in Hw. by subst w.
    + rewrite length_app. simpl. lia.
  - intros Hdim. unfold CudaOps.reduce, mbind, M_bind, or_raise.
    unfold getitem, py_index. by rewrite !bool_decide_false by (unfold rank in *; lia).
Qed.

(** X7: the one store a block of the reduce launch makes.  With [k] the
    block's coordinate on the reduced axis (the number of its chunk) and
    [stride] the output stride of that axis, the block stores the tree
    combination of its chunk at flat position
    [blockIdx + 1023 * k * stride]; that is the block's own position
    [blockIdx] exactly when [k = 0]. *)
Theorem reduce_block_position (fn : T → T → T) (start : T)
    out out_shape a_storage a_shape a_strides reduce_dim blockIdx h :
  (length out_shape <= MAX_DIMS)%nat →
  Forall (λ s, 0 < s) out_shape → Forall (λ s, s <= 2 ^ 31) out_shape →
  0 <= reduce_dim < Z.of_nat (length out_shape) →
  0 <= blockIdx < prod out_shape →
  let d := Z.to_nat reduce_dim in
  let c := to_index blockIdx out_shape in
  let k := default 0 (c !! d) in
  let stride := default 0 (strides_from_shape out_shape !! d) in
  (k + 1) * BLOCK_DIM <= 2 ^ 31 →
  _reduce fn out out_shape (strides_from_shape out_shape) (prod out_shape)
    a_storage a_shape a_strides reduce_dim start blockIdx BLOCK_DIM h
  = [(out, blockIdx + (BLOCK_DIM - 1) * k * stride,
      tree_combine fn start
        (λ pos, load h a_storage
                  (index_to_position (<[d := k * BLOCK_DIM + pos]> c) a_strides))
        (item a_shape reduce_dim - k * BLOCK_DIM) 10 0)]
  ∧ 0 <= k ∧ 0 < stride
  ∧ (blockIdx + (BLOCK_DIM - 1) * k * stride = blockIdx ↔ k = 0).
Proof.
  intros Hrank Hpos Hle Hdim Hblock d c k stride Hk.
  assert (d < length out_shape)%nat as Hd by lia.
  pose proof (to_index_in_shape blockIdx out_shape Hpos) as Hin.
  destruct (lookup_lt_is_Some_2 c d) as [k' Hk'].
  { unfold c. by rewrite length_to_index. }
  assert (k = k') as Hkk by (unfold k; by rewrite Hk').
  assert (0 <= k) as Hk0.
  { eapply Forall2_lookup_l in Hin as (s & _ & ?); [|exact Hk']. lia. }
  assert (stride = prod (drop (S d) out_shape)) as Hstride.
  { unfold stride. by rewrite strides_from_shape_lookup. }
  assert (0 < stride) as Hs0.
  { rewrite Hstride. apply prod_pos. by apply Forall_drop. }
  split; [|split; [done|split; [done|]]].
  - rewrite _reduce_block_tree by done. fold d c k. do 3 f_equal.
    rewrite (position_insert _ _ d _ k' stride);
      [|done|by rewrite strides_from_shape_lookup, Hstride].
    unfold c. rewrite position_of_to_index
      by (done || (eapply Forall_impl; [exact Hpos|]; simpl; lia)).
    unfold BLOCK_DIM. lia.
  - unfold BLOCK_DIM. split; [|intros ->; lia].
    intros Heq. assert (k * stride = 0) as Hz by lia.
    apply Z.mul_eq_0 in Hz. lia.
Qed.

(** X8: a reduced axis of exactly 1024 cells fills every cell of the
    block's cache from the input, so the start value never enters the
    result: reduce gives the same elements whatever start value it is
    called with. *)
Theorem reduce_full_chunk_ignores_start (fn : T → T → T) (start start' : T) a dim h :
  (storage a < length h)%nat →
  0 <= dim < Z.of_nat (length (shape a)) →
  (length (shape a) <= MAX_DIMS)%nat →
  shape a !! Z.to_nat dim = Some 1024 →
  Forall (λ s, s <= 2 ^ 31) (shape a) →
  ∃ out h1 h1',
    CudaOps.reduce fn start a dim h = (inr out, h1)
    ∧ CudaOps.reduce fn start' a dim h = (inr out, h1')
    ∧ ∀ index, in_shape index (shape out) →
        tensor_get h1 out index = tensor_get h1' out index.
Proof.
  intros Ha Hdim Hrank Hn Hle.
  destruct (reduce_single_chunk_tree fn start a dim h 1024)
    as (out & h1 & Hrun & Hshape & Hstr & Hget); try done.
  destruct (reduce_single_chunk_tree fn start' a dim h 1024)
    as (out' & h1' & Hrun' & Hshape' & Hstr' & Hget'); try done.
  assert (out' = out) as ->.
  { assert (py_index (length (shape a)) dim = Some (Z.to_nat dim)) as Hd
      by (by apply py_index_nonneg).
    rewrite (reduce_unfold _ _ a dim h _ 1024 Hd Hn) in Hrun.
    rewrite (reduce_unfold _ _ a dim h _ 1024 Hd Hn) in Hrun'.
    cbv zeta in Hrun, Hrun'. congruence. }
  exists out, h1, h1'. split; [done|]. split; [done|].
  intros index Hin. rewrite Hget, Hget' by done.
  by apply tree_combine_full.
Qed.

(** X9: along an axis of a single cell the block's tree combines that
    cell with the start value once in each of its ten rounds: every element
    of the output is [fn (... (fn (fn x start) start) ...) start], ten
    applications, where [x] is the element of the input; the output has the
    shape of the input. *)
Theorem reduce_single_element (fn : T → T → T) (start : T) a dim h :
  (storage a < length h)%nat →
  0 <= dim < Z.of_nat (length (shape a)) →
  (length (shape a) <= MAX_DIMS)%nat →
  shape a !! Z.to_nat dim = Some 1 →
  Forall (λ s, s <= 2 ^ 31) (shape a) →
  ∃ out h',
    CudaOps.reduce fn start a dim h = (inr out, h')
    ∧ shape out = shape a
    ∧ ∀ index, in_shape index (shape a) →
        tensor_get h' out index
        = Nat.iter 10 (λ v, fn v start) (tensor_get h a index).
Proof.
  intros Ha Hdim Hrank Hn Hle.
  destruct (reduce_single_chunk_tree fn start a dim h 1)
    as (out & h' & Hrun & Hshape & Hstr & Hget); try done.
  assert (shape out = shape a) as Hsame.
  { rewrite Hshape. by apply list_insert_id. }
  exists out, h'. split; [done|]. split; [done|].
  intros index Hin. rewrite Hget by (by rewrite Hsame).
  rewrite tree_combine_single. do 2 f_equal.
  apply list_insert_id.
  eapply Forall2_lookup_r in Hin as (v & Hv & Hbound); [|exact Hn].
  rewrite Hv. f_equal. lia.
Qed.

End more_reduce.

Section reduce_single.
Context {T : Type} `{!Scalar T} `{!Limits} `{!LocalMemory}.
Implicit Types (h : heap T) (a : Tensor).

Lemma launch_buffer_length {B} (grid : list B) kernel h addr :
  length <$> (launch grid kernel h !! addr) = length <$> (h !! addr).
Proof.
  unfold launch. revert h. induction grid as [|b grid IH]; intros h; simpl; [done|].
  by rewrite IH, commit_buffer_length.
Qed.

(** A memory that differs from [h] with one more array only in that array
    is [h] with one more array. *)
Lemma same_outside_alloc h (st : list T) h' :
  same_outside (length h) (h ++ [st]) h' →
  ∃ st', h' = h ++ [st'].
Proof.
  intros [Hlen Hsame]. rewrite length_app in Hlen. simpl in Hlen.
  destruct (lookup_lt_is_Some_2 h' (length h)) as [st' Hst']; [lia|].
  exists st'. apply list_eq. intros addr.
  destruct (decide (addr = length h)) as [->|Hne].
  - by rewrite Hst', list_lookup_middle.
  - rewrite <- Hsame by done.
    destruct (decide (addr < length h)%nat).
    + by rewrite !lookup_app_l by done.
    + by rewrite !lookup_ge_None_2 by (rewrite length_app; simpl; lia).
Qed.

(** X20: along an axis of at most 1024 cells (a single chunk) reduce adds
    exactly one array, with one cell for every element of the output, and
    every block of its launch makes exactly one store, at its own output
    position [blockIdx]: each cell of the output is stored to once and no
    store leaves the output. *)
Theorem reduce_single_chunk_stores (fn : T → T → T) (start : T) a dim h n :
  0 <= dim < Z.of_nat (length (shape a)) →
  (length (shape a) <= MAX_DIMS)%nat →
  shape a !! Z.to_nat dim = Some n → n <= BLOCK_DIM →
  Forall (λ s, 0 <= s) (shape a) →
  Forall (λ s, s <= 2 ^ 31) (shape a) →
  ∃ out cells,
    CudaOps.reduce fn start a dim h = (inr out, h ++ [cells])
    ∧ storage out = length h
    ∧ Z.of_nat (length cells) = size out
    ∧ ∀ blockIdx h', 0 <= blockIdx < size out →
        ∃ v, tensor_reduce fn (storage out) (shape out) (strides out) (size out)
               (storage a) (shape a) (strides a) dim start blockIdx 1024 h'
             = [(storage out, blockIdx, v)].
Proof.
  intros Hdim Hrank Hn Hsmall Hnn Hle.
  set (d := Z.to_nat dim) in *.
  assert (py_index (length (shape a)) dim = Some d) as Hd by (by apply py_index_nonneg).
  rewrite (reduce_unfold _ _ _ _ _ d n) by done. cbv zeta.
  set (S' := <[d := (n - 1) / 1024 + 1]> (shape a)).
  set (h1 := h ++ [replicate (Z.to_nat (prod S')) zero]).
  set (kernel := λ blockIdx, _reduce fn (length h) S' (strides_from_shape S') (prod S')
                   (storage a) (shape a) (strides a) dim start blockIdx 1024).
  assert (same_outside (length h) h1 (launch (seqZ 0 (prod S')) kernel h1)) as Hsame.
  { apply launch_same_outside. intros blk h' _. unfold kernel, _reduce.
    apply Forall_forall. intros w Hw.
    apply list_elem_of_bind in Hw as (pos & Hw & _).
    destruct (_ && _); [|by apply elem_of_nil in Hw].
    apply list_elem_of_singleton in Hw. by subst w. }
  destruct (same_outside_alloc h _ _ Hsame) as [cells Hcells].
  exists (mkTensor (length h) S' (strides_from_shape S')), cells.
  split; [by rewrite <- Hcells|]. split; [done|].
  assert (0 <= n) as Hn0.
  { rewrite Forall_lookup in Hnn. by apply (Hnn d). }
  assert (0 <= (n - 1) / 1024 + 1) as Hr.
  { assert (-1 <= (n - 1) / 1024) by (apply Z.div_le_lower_bound; lia). lia. }
  assert (Forall (λ s, 0 <= s) S') as Hnn'.
  { rewrite Forall_lookup. intros d' s Hs.
    destruct (decide (d' = d)) as [->|Hne].
    - unfold S' in Hs. rewrite list_lookup_insert_eq in Hs by (by eapply lookup_lt_Some).
      by injection Hs as <-.
    - unfold S' in Hs. rewrite list_lookup_insert_ne in Hs by done.
      rewrite Forall_lookup in Hnn. by apply (Hnn d'). }
  split.
  { pose proof (launch_buffer_length (seqZ 0 (prod S')) kernel h1 (length h)) as Hlen.
    rewrite Hcells in Hlen. unfold h1 in Hlen. rewrite !list_lookup_middle in Hlen by done.
    simpl in Hlen. injection Hlen as ->. rewrite length_replicate.
    unfold size. cbn [shape]. pose proof (prod_nonneg S' Hnn'). lia. }
  intros blockIdx h' Hb. unfold size in *. cbn [shape strides storage] in *.
  assert (Forall (λ s, 0 < s) S') as Hpos by (apply prod_pos_inv; [done|lia]).
  destruct (single_chunk_shape (shape a) d n Hn Hsmall Hpos) as [Hn1 HS'd].
  fold S' in HS'd.
  assert (Forall (λ s, s <= 2 ^ 31) S') as Hle'.
  { rewrite Forall_lookup. intros d' s Hs.
    destruct (decide (d' = d)) as [->|Hne].
    - rewrite HS'd in Hs. injection Hs as <-. lia.
    - unfold S' in Hs. rewrite list_lookup_insert_ne in Hs by done.
      rewrite Forall_lookup in Hle. by eapply Hle. }
  assert (length S' = length (shape a)) as Hlen by apply length_insert.
  destruct (single_chunk_position S' d blockIdx Hpos HS'd Hb) as [Hk0 Hposn].
  eexists. unfold tensor_reduce. change 1024 with BLOCK_DIM.
  rewrite _reduce_block_tree
    by (done || lia || (fold d; rewrite Hk0; unfold BLOCK_DIM; lia)).
  fold d. rewrite Hk0, Z.mul_0_l, Hposn. reflexivity.
Qed.

End reduce_single.

(** ** More on the matrix multiply *)

Section more_matrix_multiply.
Context {T : Type} `{!Scalar T} `{!Limits}.
Implicit Types (h : heap T) (a b : Tensor).

(** The stores of a block of the launch over three-dimensional views, in
    terms of the elements of the operands. *)
Lemma mm_block_stores a b h Ba Bb M K N blk h' :
  (storage a < length h)%nat → (storage b < length h)%nat →
  shape a = [Ba; M; K] → shape b = [Bb; K; N] →
  let ls := [Z.max Ba Bb; M; N] in
  same_outside (length h) (h ++ [replicate (Z.to_nat (prod ls)) zero]) h' →
  tensor_matrix_multiply (length h) ls (strides_from_shape ls) (prod ls)
    (storage a) (shape a) (strides a) (storage b) (shape b) (strides b)
    blk (THREADS_PER_BLOCK, THREADS_PER_BLOCK) h'
  = (pi ← seqZ 0 mm_BLOCK_DIM;
     pj ← seqZ 0 mm_BLOCK_DIM;
     let i := blk.1.1 * mm_BLOCK_DIM + pi in
     let j := blk.1.2 * mm_BLOCK_DIM + pj in
     if bool_decide (blk.2 < Z.max Ba Bb) && bool_decide (i < M) && bool_decide (j < N)
     then [(length h, index_to_position [blk.2; i; j] (strides_from_shape ls),
            dot (λ k, tensor_get h a [if bool_decide (1 < Ba) then blk.2 else 0; i; k])
                (λ k, tensor_get h b [if bool_decide (1 < Bb) then blk.2 else 0; k; j])
                K)]
     else []).
Proof.
  intros Ha Hb Hsa Hsb ls Hh'. destruct blk as [[bx by_] bz].
  unfold tensor_matrix_multiply.
  change (THREADS_PER_BLOCK, THREADS_PER_BLOCK) with (mm_BLOCK_DIM, mm_BLOCK_DIM).
  rewrite mm_block_writes by (by rewrite ?Hsa, ?Hsb).
  cbn [fst snd].
  apply bind_ext_in. intros pi Hpi. apply bind_ext_in. intros pj Hpj.
  change (item ls 0) with (Z.max Ba Bb).
  change (item ls 1) with M. change (item ls 2) with N.
  destruct (_ && _ && _); [|done].
  rewrite <- position3. do 2 f_equal.
  rewrite Hsa, Hsb.
  change (item [Ba; M; K] 2) with K.
  unfold dot. apply foldl_ext_in. intros acc k _. f_equal.
  unfold tensor_get. rewrite !position3.
  rewrite <- !(load_same_outside (length h) (h ++ _) h') by (done || lia).
  rewrite !load_alloc by done.
  unfold mm_a_batch_stride, mm_b_batch_stride.
  change (item [Ba; M; K] 0) with Ba. change (item [Bb; K; N] 0) with Bb.
  f_equal; f_equal; repeat case_bool_decide; lia.
Qed.

(** Every store of a block of the grid goes to the cell of a coordinate of
    the output and carries the sum of products of that coordinate. *)
Lemma mm_block_stores_cell a b h Ba Bb M K N blk h' w :
  (storage a < length h)%nat → (storage b < length h)%nat →
  shape a = [Ba; M; K] → shape b = [Bb; K; N] →
  let ls := [Z.max Ba Bb; M; N] in
  same_outside (length h) (h ++ [replicate (Z.to_nat (prod ls)) zero]) h' →
  0 <= blk.1.1 → 0 <= blk.1.2 → 0 <= blk.2 →
  w ∈ tensor_matrix_multiply (length h) ls (strides_from_shape ls) (prod ls)
        (storage a) (shape a) (strides a) (storage b) (shape b) (strides b)
        blk (THREADS_PER_BLOCK, THREADS_PER_BLOCK) h' →
  ∃ p i j, in_shape [p; i; j] ls
    ∧ w = (length h, index_to_position [p; i; j] (strides_from_shape ls),
           dot (λ k, tensor_get h a [if bool_decide (1 < Ba) then p else 0; i; k])
               (λ k, tensor_get h b [if bool_decide (1 < Bb) then p else 0; k; j])
               K).
Proof.
  intros Ha Hb Hsa Hsb ls Hh' Hbx Hby Hbz Hw.
  rewrite (mm_block_stores a b h Ba Bb M K N) in Hw by done.
  destruct blk as [[bx by_] bz]. cbn [fst snd] in *.
  apply list_elem_of_bind in Hw as (pi & Hw & Hpi).
  apply list_elem_of_bind in Hw as (pj & Hw & Hpj).
  apply elem_of_seqZ in Hpi, Hpj. unfold mm_BLOCK_DIM in *.
  destruct (decide (bz < Z.max Ba Bb));
    [rewrite (bool_decide_true (bz < _)) in Hw by done
    |rewrite (bool_decide_false (bz < _)) in Hw by done; by apply elem_of_nil in Hw].
  destruct (decide (bx * 32 + pi < M));
    [rewrite (bool_decide_true (_ < M)) in Hw by done
    |rewrite (bool_decide_false (_ < M)) in Hw by done; by apply elem_of_nil in Hw].
  destruct (decide (by_ * 32 + pj < N));
    [rewrite (bool_decide_true (_ < N)) in Hw by done
    |rewrite (bool_decide_false (_ < N)) in Hw by done; by apply elem_of_nil in Hw].
  cbn [andb] in Hw. apply list_elem_of_singleton in Hw.
  exists bz, (bx * 32 + pi), (by_ * 32 + pj). split; [|exact Hw].
  unfold ls. repeat constructor; lia.
Qed.

Lemma mm_grid_covers n : 0 <= n → n <= (n + (32 - 1)) / 32 * 32.
Proof.
  intros Hn. pose proof (Z.div_mod (n + (32 - 1)) 32).
  pose proof (Z.mod_pos_bound (n + (32 - 1)) 32). lia.
Qed.

(** The multiply of two three-dimensional views: the output it allocates
    and what every cell of it holds. *)
Lemma matrix_multiply_cells a b h Ba Bb M K N :
  (storage a < length h)%nat → (storage b < length h)%nat →
  shape a = [Ba; M; K] → shape b = [Bb; K; N] →
  Ba = Bb ∨ Ba = 1 ∨ Bb = 1 →
  let ls := [Z.max Ba Bb; M; N] in
  ∃ h',
    CudaOps.matrix_multiply a b h
    = (inr (mkTensor (length h) ls (strides_from_shape ls)), h')
    ∧ same_outside (length h) (h ++ [replicate (Z.to_nat (prod ls)) zero]) h'
    ∧ ∀ p i j, 0 <= p < Z.max Ba Bb → 0 <= i < M → 0 <= j < N →
        load h' (length h) (index_to_position [p; i; j] (strides_from_shape ls))
        = dot (λ k, tensor_get h a [if bool_decide (1 < Ba) then p else 0; i; k])
              (λ k, tensor_get h b [if bool_decide (1 < Bb) then p else 0; k; j])
              K.
Proof.
  intros Ha Hb Hsa Hsb Hc ls.
  rewrite (matrix_multiply_unfold a b h a b false h Ba Bb M K N)
    by (done || (apply make_3d_rank3; by rewrite ?Hsa, ?Hsb)).
  eexists. split; [done|]. fold ls.
  set (h1 := h ++ _).
  split.
  { apply launch_same_outside. intros blk h' _.
    apply Forall_forall. intros w Hw.
    unfold tensor_matrix_multiply, _tensor_matrix_multiply in Hw.
    apply list_elem_of_bind in Hw as (pi & Hw & _).
    apply list_elem_of_bind in Hw as (pj & Hw & _).
    destruct (_ && _ && _); [|by apply elem_of_nil in Hw].
    apply list_elem_of_singleton in Hw. by subst w. }
  intros p i j Hp Hi Hj.
  assert (in_shape [p; i; j] ls) as Hin by (unfold ls; repeat constructor; lia).
  pose proof (position_in_shape _ _ Hin) as Hposn.
  eapply (launch_cell _ _ (length h) h1 (replicate (Z.to_nat (prod ls)) zero)
            (i / THREADS_PER_BLOCK, j / THREADS_PER_BLOCK, p)).
  - apply lookup_alloc.
  - rewrite length_replicate. lia.
  - intros blk h' _ Hh'.
    rewrite !(mm_block_stores a b h Ba Bb M K N); done.
  - intros [[bx by_] bz] w Hblk Hw. apply elem_of_blocks in Hblk.
    apply (mm_block_stores_cell a b h Ba Bb M K N) in Hw
      as (p' & i' & j' & Hin' & ->); cbn [fst snd]; (done || lia || idtac).
    split; [done|]. by apply position_in_shape.
  - apply elem_of_blocks. unfold THREADS_PER_BLOCK.
    pose proof (mm_grid_covers M). pose proof (mm_grid_covers N).
    repeat split; try lia; try (apply Z.div_pos; lia);
      apply Z.div_lt_upper_bound; lia.
  - rewrite (mm_block_stores a b h Ba Bb M K N) by done. cbn [fst snd].
    unfold THREADS_PER_BLOCK, mm_BLOCK_DIM.
    apply list_elem_of_bind. exists (i mod 32).
    split; [|apply elem_of_seqZ; pose proof (Z.mod_pos_bound i 32); lia].
    apply list_elem_of_bind. exists (j mod 32).
    split; [|apply elem_of_seqZ; pose proof (Z.mod_pos_bound j 32); lia].
    assert (i / 32 * 32 + i mod 32 = i) as -> by (pose proof (Z.div_mod i 32); lia).
    assert (j / 32 * 32 + j mod 32 = j) as -> by (pose proof (Z.div_mod j 32); lia).
    rewrite (bool_decide_true (p < _)), (bool_decide_true (i < M)),
      (bool_decide_true (j < N)) by lia.
    by apply list_elem_of_singleton.
  - intros [[bx by_] bz] v' Hblk Hv'. apply elem_of_blocks in Hblk.
    apply (mm_block_stores_cell a b h Ba Bb M K N) in Hv'
      as (p' & i' & j' & Hin' & Heq); cbn [fst snd]; (done || lia || idtac).
    fold ls in Heq, Hin'.
    assert (index_to_position [p; i; j] (strides_from_shape ls)
            = index_to_position [p'; i'; j'] (strides_from_shape ls)) as Hpos'
      by congruence.
    assert ([p'; i'; j'] = [p; i; j]) as [= -> -> ->]; [|congruence].
    rewrite <- (to_index_position [p'; i'; j'] ls), <- (to_index_position [p; i; j] ls) by done.
    by rewrite Hpos'.
Qed.

(** X13: the memory after the launch of the matrix multiply kernel over
    three-dimensional operands does not depend on the order in which the
    blocks run: a cell of the output is stored to by one thread of one
    block only, so any permutation of the grid leaves the same memory. *)
Theorem matrix_multiply_order_independent a b h Ba Bb M K N grid' :
  (storage a < length h)%nat → (storage b < length h)%nat →
  shape a = [Ba; M; K] → shape b = [Bb; K; N] →
  let ls := [Z.max Ba Bb; M; N] in
  let kernel := λ blockIdx,
    tensor_matrix_multiply (length h) ls (strides_from_shape ls) (prod ls)
      (storage a) (shape a) (strides a) (storage b) (shape b) (strides b)
      blockIdx (THREADS_PER_BLOCK, THREADS_PER_BLOCK) in
  let grid :=
    CudaOps.blocks ((M + (THREADS_PER_BLOCK - 1)) / THREADS_PER_BLOCK,
                    (N + (THREADS_PER_BLOCK - 1)) / THREADS_PER_BLOCK,
                    Z.max Ba Bb) in
  let h1 := h ++ [replicate (Z.to_nat (prod ls)) zero] in
  grid' ≡ₚ grid →
  launch grid' kernel h1 = launch grid kernel h1.
Proof.
  intros Ha Hb Hsa Hsb ls kernel grid h1 Hperm.
  assert (∀ blk h', blk ∈ grid → same_outside (length h) h1 h' →
    kernel blk h' = kernel blk h1) as Hread.
  { intros blk h' _ Hh'. unfold kernel.
    rewrite !(mm_block_stores a b h Ba Bb M K N); done. }
  assert (∀ blk w, blk ∈ grid → w ∈ kernel blk h1 →
    ∃ p i j, in_shape [p; i; j] ls
      ∧ w = (length h, index_to_position [p; i; j] (strides_from_shape ls),
             dot (λ k, tensor_get h a [if bool_decide (1 < Ba) then p else 0; i; k])
                 (λ k, tensor_get h b [if bool_decide (1 < Bb) then p else 0; k; j])
                 K)) as Hcell.
  { intros [[bx by_] bz] w Hblk Hw. apply elem_of_blocks in Hblk.
    apply (mm_block_stores_cell a b h Ba Bb M K N) in Hw; cbn [fst snd];
      (done || lia). }
  assert (∀ blk, blk ∈ grid → into (length h) (kernel blk h1)) as Hinto.
  { intros blk Hblk. apply Forall_forall. intros w Hw.
    destruct (Hcell blk w Hblk Hw) as (p & i & j & _ & ->). done. }
  assert (∀ blk h', blk ∈ grid' → same_outside (length h) h1 h' →
    kernel blk h' = kernel blk h1) as Hread'.
  { intros blk h' Hblk. rewrite Hperm in Hblk. by apply Hread. }
  assert (∀ blk, blk ∈ grid' → into (length h) (kernel blk h1)) as Hinto'.
  { intros blk Hblk. rewrite Hperm in Hblk. by apply Hinto. }
  rewrite (launch_commit (length h) grid' kernel h1 Hread' Hinto').
  rewrite (launch_commit (length h) grid kernel h1 Hread Hinto).
  symmetry. apply commit_Permutation.
  - by rewrite Hperm.
  - apply Forall_forall. intros w Hw.
    apply list_elem_of_bind in Hw as (blk & Hw & Hblk).
    destruct (Hcell blk w Hblk Hw) as (p & i & j & Hin & ->). cbn [fst snd].
    by apply position_in_shape.
  - intros w1 w2 H1 H2 Heq.
    apply list_elem_of_bind in H1 as (blk1 & H1 & Hblk1).
    apply list_elem_of_bind in H2 as (blk2 & H2 & Hblk2).
    destruct (Hcell blk1 w1 Hblk1 H1) as (p1 & i1 & j1 & Hin1 & ->).
    destruct (Hcell blk2 w2 Hblk2 H2) as (p2 & i2 & j2 & Hin2 & ->).
    cbn [fst snd] in Heq. fold ls in Heq.
    assert (index_to_position [p1; i1; j1] (strides_from_shape ls)
            = index_to_position [p2; i2; j2] (strides_from_shape ls)) as Hpos
      by congruence.
    assert ([p1; i1; j1] = [p2; i2; j2]) as [= -> -> ->]; [|done].
    rewrite <- (to_index_position [p1; i1; j1] ls), <- (to_index_position [p2; i2; j2] ls)
      by done.
    by rewrite Hpos.
Qed.

(** X10: for two-dimensional operands of shapes [(M, K)] and [(K, N)] and
    of any strides (transposed or otherwise non-contiguous views as well),
    matrix_multiply returns a tensor of shape [(M, N)] whose element
    [(i, j)] is the sum over [k] of [a[i, k] * b[k, j]], added up from [0.0]
    in the order of [k]; the arrays that were there before the call are
    unchanged. *)
Theorem matrix_multiply_2d_product a b h M K N :
  (storage a < length h)%nat → (storage b < length h)%nat →
  shape a = [M; K] → shape b = [K; N] →
  (2 <= MAX_DIMS)%nat → M <= 2 ^ 31 → K <= 2 ^ 31 → N <= 2 ^ 31 →
  ∃ out h',
    CudaOps.matrix_multiply a b h = (inr out, h')
    ∧ shape out = [M; N]
    ∧ (∀ addr, (addr < length h)%nat → h' !! addr = h !! addr)
    ∧ ∀ i j, 0 <= i < M → 0 <= j < N →
        tensor_get h' out [i; j]
        = dot (λ k, tensor_get h a [i; k]) (λ k, tensor_get h b [k; j]) K.
Proof.
  intros Ha Hb Hsa Hsb Hdims HM HK HN.
  destruct (map_elements (λ x, x) a h) as (a1 & h1 & Hrun1 & Hs1 & Hst1 & Hstr1 & Hfr1 & Hget1);
    [done|by rewrite Hsa|rewrite Hsa; repeat constructor; lia|].
  assert (length h1 = S (length h)) as Hlen1.
  { destruct Hfr1 as [<- _]. rewrite length_app. simpl. lia. }
  destruct (map_elements (λ x, x) b h1) as (b1 & h2 & Hrun2 & Hs2 & Hst2 & Hstr2 & Hfr2 & Hget2);
    [lia|by rewrite Hsb|rewrite Hsb; repeat constructor; lia|].
  assert (length h2 = S (length h1)) as Hlen2.
  { destruct Hfr2 as [<- _]. rewrite length_app. simpl. lia. }
  set (a' := CudaOps.view a1 [1; M; K]). set (b' := CudaOps.view b1 [1; K; N]).
  assert (CudaOps.make_3d a b h = (inr (a', b', true), h2)) as Hmk.
  { unfold CudaOps.make_3d, CudaOps.contiguous. rewrite Hsa, Hsb.
    rewrite !bool_decide_true by done.
    unfold mbind at 1. unfold M_bind at 1.
    unfold mbind at 1. unfold M_bind at 1. rewrite Hrun1.
    unfold mret at 1. unfold M_ret at 1.
    unfold mbind at 1. unfold M_bind at 1.
    unfold mbind at 1. unfold M_bind at 1. rewrite Hrun2.
    done. }
  assert (CudaOps.make_3d a' b' h2 = (inr (a', b', false), h2)) as Hmk'
    by (by apply make_3d_rank3).
  destruct (matrix_multiply_cells a' b' h2 1 1 M K N)
    as (h' & Hrun & Hfr & Hcells); [simpl; lia|simpl; lia|done|done|by left|].
  change (Z.max 1 1) with 1 in *.
  rewrite (matrix_multiply_unfold a' b' h2 a' b' false h2 1 1 M K N) in Hrun by auto.
  injection Hrun as Hh'. subst h'.
  eexists (CudaOps.view (mkTensor (length h2) [1; M; N] (strides_from_shape [1; M; N])) [M; N]), _.
  split.
  { rewrite (matrix_multiply_unfold a b h a' b' true h2 1 1 M K N) by auto.
    reflexivity. }
  split; [done|]. split.
  - intros addr Haddr.
    destruct Hfr as [_ Hfr]. rewrite <- Hfr by lia.
    rewrite lookup_app_l by lia.
    destruct Hfr2 as [_ Hfr2]. rewrite <- Hfr2 by lia.
    rewrite lookup_app_l by lia.
    destruct Hfr1 as [_ Hfr1]. rewrite <- Hfr1 by lia.
    by rewrite lookup_app_l by lia.
  - intros i j Hi Hj. unfold tensor_get at 1. cbn [storage strides CudaOps.view].
    replace (index_to_position [i; j] (strides_from_shape [M; N]))
      with (index_to_position [0; i; j] (strides_from_shape [1; M; N])) by (simpl; lia).
    rewrite Hcells by lia.
    unfold dot. apply foldl_ext_in. intros acc k Hk. apply elem_of_seqZ in Hk.
    rewrite !bool_decide_false by lia. f_equal. f_equal.
    + transitivity (tensor_get h1 a1 [i; k]).
      * unfold tensor_get, a'. cbn [storage strides CudaOps.view].
        rewrite Hstr1, Hsa.
        rewrite <- (load_same_outside (length h1) (h1 ++ _) h2) by (done || lia).
        rewrite load_alloc by lia. f_equal; simpl; lia.
      * rewrite Hget1; [done|]. rewrite Hsa. repeat constructor; lia.
    + transitivity (tensor_get h2 b1 [k; j]).
      * unfold tensor_get, b'. cbn [storage strides CudaOps.view].
        rewrite Hstr2, Hsb. f_equal; simpl; lia.
      * rewrite Hget2 by (rewrite Hsb; repeat constructor; lia).
        unfold tensor_get.
        rewrite <- (load_same_outside (length h) (h ++ _) h1) by (done || lia).
        by rewrite load_alloc.
Qed.

End more_matrix_multiply.

(** *** What the host calls leave in place *)

Section keeps.
Context {T : Type} `{!Scalar T} `{!Limits}.
Implicit Types (h : heap T) (n : nat).

Lemma keeps_ret {A} n (P : A → Prop) (x : A) : P x → keeps (T:=T) n P (mret x).
Proof. intros HP h Hn. simpl. split; [done|]. split; [done|]. by intros ? [= <-]. Qed.

Lemma keeps_raise {A} n (P : A → Prop) e : keeps (T:=T) n P (raise e).
Proof. intros h Hn. simpl. done. Qed.

Lemma keeps_or_raise {A} n (P : A → Prop) e (o : option A) :
  (∀ x, o = Some x → P x) → keeps (T:=T) n P (or_raise e o).
Proof.
  intros HP. destruct o as [x|]; [apply keeps_ret; auto|apply keeps_raise].
Qed.

Lemma keeps_bind {A B} n (P : A → Prop) (Q : B → Prop) (m : M T A) (f : A → M T B) :
  keeps n P m → (∀ x, P x → keeps n Q (f x)) → keeps n Q (m ≫= f).
Proof.
  intros Hm Hf h Hn. unfold mbind, M_bind.
  destruct (Hm h Hn) as (Htake & Hlen & HP).
  destruct (m h) as [[e|x] h1]; simpl in *; [done|].
  destruct (Hf x (HP x eq_refl) h1) as (Htake' & Hlen' & HQ); [lia|].
  split; [congruence|]. split; [lia|done].
Qed.

Lemma keeps_zeros n (shape : list Z) :
  keeps (T:=T) n (λ out, (n <= storage out)%nat) (zeros shape).
Proof.
  intros h Hn. unfold zeros. simpl. split; [by rewrite take_app_le|].
  split; [rewrite length_app; lia|]. by intros ? [= <-].
Qed.

Lemma keeps_run_kernel {B} n out (grid : list B) kernel :
  (n <= out)%nat → (∀ b h', into out (kernel b h')) →
  keeps (T:=T) n (λ _, True) (run_kernel grid kernel).
Proof.
  intros Hout Hinto h Hn. unfold run_kernel. simpl.
  destruct (launch_same_outside out grid kernel h) as [Hlen Hsame]; [auto|].
  split; [|split; [lia|done]].
  apply list_eq. intros addr. rewrite !lookup_take.
  case_decide; [|done]. symmetry. apply Hsame. lia.
Qed.

Lemma keeps_map n (fn : T → T) a : keeps n (λ _, True) (CudaOps.map fn a None).
Proof.
  unfold CudaOps.map. eapply keeps_bind; [apply keeps_zeros|].
  intros out Hout. eapply keeps_bind; [|intros; by apply keeps_ret].
  apply (keeps_run_kernel n (storage out)); [done|].
  intros [bid tid] h'. unfold on_thread, tensor_map, _map. cbn [fst snd].
  case_bool_decide; repeat constructor.
Qed.

Lemma keeps_make_3d n a b : keeps n (λ _, True) (CudaOps.make_3d a b).
Proof.
  unfold CudaOps.make_3d. cbv zeta.
  eapply (keeps_bind n (λ _, True)).
  { case_bool_decide; [|by apply keeps_ret].
    eapply keeps_bind; [apply keeps_map|]. intros; by apply keeps_ret. }
  intros [a' n1] _.
  eapply (keeps_bind n (λ _, True)).
  { case_bool_decide; [|by apply keeps_ret].
    eapply keeps_bind; [apply keeps_map|]. intros; by apply keeps_ret. }
  intros [b' n2] _. by apply keeps_ret.
Qed.

(** X11: whatever the operands, and also when it ends in an error,
    matrix_multiply only adds arrays (the copies of two-dimensional
    operands, the output) after the ones it found: the memory before the
    call is a prefix of the memory after it. *)
Theorem matrix_multiply_only_appends a b h :
  h `prefix_of` (CudaOps.matrix_multiply a b h).2.
Proof.
  assert (keeps (length h) (λ _, True) (CudaOps.matrix_multiply a b)) as Hkeeps.
  { set (n := length h). unfold CudaOps.matrix_multiply.
    eapply keeps_bind; [apply keeps_make_3d|]. intros [[a' b'] both_2d] _.
    eapply (keeps_bind n (λ _, True)); [by apply keeps_or_raise|]. intros ls _.
    eapply (keeps_bind n (λ _, True)); [by apply keeps_or_raise|]. intros a_rows _.
    eapply (keeps_bind n (λ _, True)); [by apply keeps_or_raise|]. intros b_cols _.
    eapply (keeps_bind n (λ _, True)); [by apply keeps_or_raise|]. intros a_cols _.
    eapply (keeps_bind n (λ _, True)); [by apply keeps_or_raise|]. intros b_rows _.
    case_bool_decide; [|apply keeps_raise].
    eapply keeps_bind; [apply keeps_zeros|]. intros out Hout.
    eapply (keeps_bind n (λ _, True)); [by apply keeps_or_raise|]. intros out_1 _.
    eapply (keeps_bind n (λ _, True)); [by apply keeps_or_raise|]. intros out_2 _.
    eapply (keeps_bind n (λ _, True)); [by apply keeps_or_raise|]. intros out_0 _.
    eapply (keeps_bind n (λ _, True)).
    { apply (keeps_run_kernel n (storage out)); [done|].
      intros blk h'. apply Forall_forall. intros w Hw.
      unfold tensor_matrix_multiply, _tensor_matrix_multiply in Hw.
      apply list_elem_of_bind in Hw as (pi & Hw & _).
      apply list_elem_of_bind in Hw as (pj & Hw & _).
      destruct (_ && _ && _); [|by apply elem_of_nil in Hw].
      apply list_elem_of_singleton in Hw. by subst w. }
    intros _ _. destruct both_2d; [|by apply keeps_ret].
    eapply (keeps_bind n (λ _, True)); [by apply keeps_or_raise|]. intros ? _.
    eapply (keeps_bind n (λ _, True)); [by apply keeps_or_raise|]. intros ? _.
    by apply keeps_ret. }
  destruct (Hkeeps h) as (Htake & Hlen & _); [done|].
  rewrite firstn_all in Htake. rewrite <- Htake at 1. apply prefix_take.
Qed.

(** X12: an operand with fewer than two dimensions is rejected: when
    neither operand is two-dimensional and one of them has rank 0 or 1,
    matrix_multiply ends in IndexError (raised by [shape[-2]] or
    [shape[-1]]) and the memory is as it was. *)
Theorem matrix_multiply_rank_below_2 a b h :
  length (shape a) ≠ 2%nat → length (shape b) ≠ 2%nat →
  (length (shape a) < 2)%nat ∨ (length (shape b) < 2)%nat →
  CudaOps.matrix_multiply a b h = (inl IndexError, h).
Proof.
  intros Ha Hb Hlow. unfold CudaOps.matrix_multiply.
  unfold mbind at 1. unfold M_bind at 1. rewrite make_3d_rank3 by done.
  assert (∀ l : list Z, (length l < 2)%nat → but_last2 l = []) as Hbut.
  { intros l Hl. unfold but_last2. by replace (length l - 2)%nat with 0%nat by lia. }
  assert (∀ l : list Z, (length l < 2)%nat → getitem l (-2) = None) as Hget.
  { intros l Hl. unfold getitem, py_index. by rewrite !bool_decide_false by lia. }
  assert (∀ l : list Z, shape_broadcast [] l = Some l) as Hbl.
  { intros l. unfold shape_broadcast. simpl. by rewrite reverse_involutive. }
  assert (∀ l : list Z, shape_broadcast l [] = Some l) as Hbr.
  { intros l. unfold shape_broadcast. change (reverse []) with (@nil Z).
    assert (shape_broadcast_rev (reverse l) [] = Some (reverse l)) as ->
      by (by destruct (reverse l)).
    simpl. by rewrite reverse_involutive. }
  unfold mbind, M_bind, or_raise.
  destruct (decide (length (shape a) < 2)%nat) as [Hla|Hla].
  - rewrite (Hbut (shape a)), Hbl by done. by rewrite Hget.
  - assert (length (shape b) < 2)%nat as Hlb by lia.
    rewrite (Hbut (shape b)), Hbr by done.
    rewrite (Hget (shape b)) by done.
    destruct (getitem (shape a) (-2)); [|done].
    destruct (getitem (shape b) (-1)); [|done].
    by destruct (getitem (shape a) (-1)).
Qed.

End keeps.

(** ** The kernels against each other *)

Section composition.
Context {T : Type} `{!Scalar T} `{!Limits} `{!LocalMemory}.
Implicit Types (h : heap T) (a b : Tensor).

(** The output zip allocates and what every element of it holds. *)
Lemma zip_elements (fn : T → T → T) a b h c_shape :
  (storage a < length h)%nat → (storage b < length h)%nat →
  shape_broadcast (shape a) (shape b) = Some c_shape →
  (length c_shape <= MAX_DIMS)%nat →
  Forall (λ s, s <= 2 ^ 31) c_shape →
  ∃ h',
    CudaOps.zip fn a b h
    = (inr (mkTensor (length h) c_shape (strides_from_shape c_shape)), h')
    ∧ length h' = S (length h)
    ∧ ∀ index, in_shape index c_shape →
        load h' (length h) (index_to_position index (strides_from_shape c_shape))
        = fn (tensor_get h a (broadcast_index index c_shape (shape a)))
             (tensor_get h b (broadcast_index index c_shape (shape b))).
Proof.
  intros Ha Hb Hbc Hrank Hle.
  unfold CudaOps.zip, mbind, M_bind, or_raise. rewrite Hbc.
  unfold mret, M_ret, zeros, run_kernel, tensor_zip, size.
  cbn [shape strides storage fst snd].
  eexists. split; [reflexivity|].
  set (S := c_shape). set (h1 := h ++ _).
  replace (prod S + (THREADS_PER_BLOCK - 1)) with (prod S + THREADS_PER_BLOCK - 1) by lia.
  split.
  { destruct (launch_same_outside (length h)
      (threads ((prod S + THREADS_PER_BLOCK - 1) / THREADS_PER_BLOCK) THREADS_PER_BLOCK)
      (on_thread THREADS_PER_BLOCK
         (_zip fn (length h) S (strides_from_shape S) (prod S)
            (storage a) (shape a) (strides a) (storage b) (shape b) (strides b))) h1)
      as [<- _].
    - intros [bid tid] h' _. unfold on_thread, _zip. cbn [fst snd].
      case_bool_decide; repeat constructor.
    - unfold h1. rewrite length_app. simpl. lia. }
  intros index Hin.
  pose proof (in_shape_pos _ _ Hin) as Hpos.
  pose proof (position_in_shape _ _ Hin) as Hi.
  rewrite (elementwise_launch _ (length h) (prod S)
    (λ i, fn (load h1 (storage a)
                (index_to_position (broadcast_index (to_index i S) S (shape a)) (strides a)))
             (load h1 (storage b)
                (index_to_position (broadcast_index (to_index i S) S (shape b)) (strides b))))
    h1 (replicate (Z.to_nat (prod S)) zero)).
  - rewrite to_index_position by done.
    unfold tensor_get, h1. by rewrite !load_alloc.
  - intros bid tid h' Hh' Hbid Htid i.
    rewrite _zip_thread_contiguous
      by (done || (eapply Forall_impl; [exact Hpos|]; simpl; lia)).
    fold i. case_bool_decide; [|done].
    by rewrite <- !(load_same_outside (length h) h1 h') by (done || lia).
  - apply lookup_alloc.
  - rewrite length_replicate. lia.
  - done.
Qed.

(** X14: the kernels agree on the matrix product.  For contiguous matrices
    [a] of shape [(M, K)] and [b] of shape [(K, N)] with [K <= 1024], the
    elementwise product of the views [(M, K, 1)] and [(1, K, N)] (zip with
    broadcasting) summed along the middle axis (reduce with [+] and [0.0],
    [+] associative with identity [0.0]) is, seen as [(M, N)], the sum over
    [k] of [a[i, k] * b[k, j]] in the order of [k]: the sum of products
    that matrix_multiply stores. *)
Theorem zip_reduce_is_matrix_product a b h M K N :
  (∀ x y z : T, add (add x y) z = add x (add y z)) →
  (∀ x : T, add zero x = x) → (∀ x : T, add x zero = x) →
  (storage a < length h)%nat → (storage b < length h)%nat →
  shape a = [M; K] → strides a = strides_from_shape [M; K] →
  shape b = [K; N] → strides b = strides_from_shape [K; N] →
  (3 <= MAX_DIMS)%nat →
  1 <= M <= 2 ^ 31 → 1 <= K <= 1024 → 1 <= N <= 2 ^ 31 →
  ∃ prods h1 sums h2,
    CudaOps.zip mul (CudaOps.view a [M; K; 1]) (CudaOps.view b [1; K; N]) h
    = (inr prods, h1)
    ∧ CudaOps.reduce add zero prods 1 h1 = (inr sums, h2)
    ∧ shape sums = [M; 1; N]
    ∧ ∀ i j, 0 <= i < M → 0 <= j < N →
        tensor_get h2 (CudaOps.view sums [M; N]) [i; j]
        = dot (λ k, tensor_get h a [i; k]) (λ k, tensor_get h b [k; j]) K.
Proof.
  intros Hassoc Hleft Hright Ha Hb Hsa Hstra Hsb Hstrb Hdims HM HK HN.
  set (a3 := CudaOps.view a [M; K; 1]). set (b3 := CudaOps.view b [1; K; N]).
  assert (shape_broadcast (shape a3) (shape b3) = Some [M; K; N]) as Hbc.
  { unfold shape_broadcast. simpl.
    rewrite !bool_decide_true by auto. simpl.
    by rewrite (Z.max_r 1 N), (Z.max_l M 1), (Z.max_id K) by lia. }
  destruct (zip_elements mul a3 b3 h [M; K; N]) as (h1 & Hzip & Hlen1 & Hprod);
    [done|done|done|simpl; lia|repeat constructor; lia|].
  set (prods := mkTensor (length h) [M; K; N] (strides_from_shape [M; K; N])) in *.
  destruct (reduce_single_chunk add zero prods 1 h1 K)
    as (sums & h2 & Hred & Hshape & Hstr & Hsum);
    [done|done|done|simpl; lia|simpl; lia|simpl; lia|done|unfold BLOCK_DIM; lia
    |repeat constructor; lia|].
  assert (shape sums = [M; 1; N]) as Hshape'.
  { rewrite Hshape. simpl. by rewrite Z.div_small by lia. }
  exists prods, h1, sums, h2. split; [done|]. split; [done|]. split; [done|].
  intros i j Hi Hj.
  transitivity (tensor_get h2 sums [i; 0; j]).
  { unfold tensor_get. cbn [storage strides CudaOps.view]. rewrite Hstr, Hshape'.
    f_equal; simpl; lia. }
  rewrite Hsum by (rewrite Hshape'; repeat constructor; lia).
  unfold dot. apply foldl_ext_in. intros acc k Hk. apply elem_of_seqZ in Hk.
  f_equal. change (<[Z.to_nat 1 := k]> [i; 0; j]) with [i; k; j].
  unfold tensor_get at 1. cbn [storage strides prods].
  rewrite Hprod by (repeat constructor; lia).
  unfold broadcast_index, tensor_get, a3, b3. cbn [shape storage strides CudaOps.view].
  rewrite Hstra, Hstrb. simpl. rewrite !Z.mul_1_r, !Z.add_0_r.
  assert ((if bool_decide (1 < M) then i else 0) = i) as -> by (case_bool_decide; lia).
  assert ((if bool_decide (1 < K) then k else 0) = k) as -> by (case_bool_decide; lia).
  assert ((if bool_decide (1 < N) then j else 0) = j) as -> by (case_bool_decide; lia).
  done.
Qed.

End composition.

(** ** Practice sum *)

Section sum_block.
Context {T : Type} `{!Scalar T}.
Context (out a : nat) (size : Z) (blockIdx : Z) (h : heap T).

Local Abbreviation x := (λ q, load h a (blockIdx * 32 + q)).
Local Abbreviation tree := (tree_combine add zero x (size - blockIdx * 32)).

Lemma sum_stage_cell pos :
  0 <= pos < 32 →
  cache_get zero (sum_stage a size blockIdx 32 h) pos = tree 0%nat pos.
Proof.
  intros Hp. rewrite tree_combine_0. unfold cache_get, sum_stage, sum_i.
  rewrite getitem_fmap_seqZ by done. cbn [default from_option].
  apply (f_equal (λ c : bool, if c then _ else _)). apply bool_decide_ext. lia.
Qed.

Lemma sum_round_tree (r : nat) cache :
  (r < 5)%nat →
  (∀ pos, 0 <= pos < 32 → pos mod 2 ^ Z.of_nat r = 0 →
     cache_get zero cache pos = tree r pos) →
  ∀ pos, 0 <= pos < 32 → pos mod 2 ^ Z.of_nat (S r) = 0 →
    cache_get zero (sum_round size blockIdx 32 cache (2 ^ Z.of_nat r)) pos
    = tree (S r) pos.
Proof.
  intros Hr Hinv pos Hp Hmod.
  rewrite Nat2Z.inj_succ, Z.pow_succ_r in Hmod by lia.
  assert (0 < 2 ^ Z.of_nat r) as Hs by (apply Z.pow_pos_nonneg; lia).
  assert (32 = 2 ^ Z.of_nat r * 2 * 2 ^ (4 - Z.of_nat r)) as Hm.
  { rewrite <- (Z.pow_1_r 2) at 2. rewrite <- !Z.pow_add_r by lia.
    by replace (Z.of_nat r + 1 + (4 - Z.of_nat r)) with 5 by lia. }
  assert (0 < 2 ^ (4 - Z.of_nat r)) as Hm' by (apply Z.pow_pos_nonneg; lia).
  rewrite tree_combine_S.
  set (s := 2 ^ Z.of_nat r) in *. set (m := 2 ^ (4 - Z.of_nat r)) in *.
  apply Z.mod_divide in Hmod as [j Hj]; [|lia].
  assert (pos mod s = 0) as Hmods.
  { rewrite Hj. replace (j * (2 * s)) with (j * 2 * s) by lia. apply Z.mod_mul. lia. }
  assert ((pos + s) mod s = 0) as Hmods'.
  { rewrite <- Z.add_mod_idemp_l, Hmods by lia. simpl. apply Z.mod_same. lia. }
  assert (pos + s < 32) as Hnext.
  { assert (j < m) as Hjm by (apply (Z.mul_lt_mono_pos_r (s * 2)); lia).
    assert (j * (s * 2) <= (m - 1) * (s * 2)) by (apply Z.mul_le_mono_nonneg_r; lia).
    lia. }
  unfold cache_get at 1, sum_round, sum_i.
  rewrite getitem_fmap_seqZ by done. cbn [default from_option].
  rewrite (bool_decide_true (pos mod (2 * s) = 0))
    by (rewrite Hj; apply Z.mod_mul; lia).
  rewrite andb_true_r.
  rewrite (bool_decide_ext (blockIdx * 32 + pos < size) (pos < size - blockIdx * 32)) by lia.
  case_bool_decide.
  - by rewrite !Hinv by (done || lia).
  - unfold id. rewrite Hinv by done. apply tree_combine_outside. lia.
Qed.

(** What a block stores, for any [+]: the tree over its cells of [a], at
    the cell of [out] with the number of the block; nothing, when the block
    starts at or after [size]. *)
Lemma _sum_practice_block_tree :
  _sum_practice out a size blockIdx 32 h
  = if bool_decide (blockIdx * 32 < size) then [(out, blockIdx, tree 5%nat 0)] else [].
Proof.
  unfold _sum_practice. cbv zeta.
  rewrite (seqZ_cons 0 32) by done. rewrite bind_cons.
  rewrite bind_nil_all.
  2:{ intros pos Hin. apply elem_of_seqZ in Hin.
      rewrite (bool_decide_false (pos = 0)) by lia. by rewrite andb_false_r. }
  rewrite app_nil_r.
  rewrite (bool_decide_ext (sum_i blockIdx 32 0 < size) (blockIdx * 32 < size))
    by (unfold sum_i; lia).
  rewrite (bool_decide_true (0 = 0)) by done. rewrite andb_true_r.
  case_bool_decide; [|done]. do 2 f_equal.
  cbn [foldl].
  apply (sum_round_tree 4); [lia| |lia|done].
  apply (sum_round_tree 3); [lia|].
  apply (sum_round_tree 2); [lia|].
  apply (sum_round_tree 1); [lia|].
  apply (sum_round_tree 0); [lia|].
  intros pos Hp _. by apply sum_stage_cell.
Qed.

End sum_block.

Section tree_sum.
Context {T : Type} (fn : T → T → T) (start : T).
Context (fn_assoc : ∀ x y z, fn (fn x y) z = fn x (fn y z)).
Context (start_left : ∀ x, fn start x = x) (start_right : ∀ x, fn x start = x).

(** For an associative [fn] with identity [start], the tree over the
    cells from [base] on is their combination from the left. *)
Lemma tree_combine_foldl (y : Z → T) base n rounds :
  tree_combine fn start (λ q, y (base + q)) n rounds 0
  = foldl (λ acc q, fn acc (y q)) start (seqZ base (Z.min (2 ^ Z.of_nat rounds) n)).
Proof using fn_assoc start_left start_right.
  rewrite (tree_combine_sequential fn start) by done.
  rewrite (foldl_combine_right fn start) by done.
  rewrite start_left, Z.sub_0_r.
  by rewrite (combine_right_shift fn start y).
Qed.

End tree_sum.

Section sum_host.
Context {T : Type} `{!Scalar T}.
Context (add_assoc : ∀ x y z : T, add (add x y) z = add x (add y z)).
Context (add_zero_l : ∀ x : T, add zero x = x) (add_zero_r : ∀ x : T, add x zero = x).
Implicit Types (h : heap T) (a : Tensor).

(** The sum of the cells of [a] from [from] on, [len] of them, added up
    from [0.0] in their order. *)
Local Abbreviation run h src from len :=
  (foldl (λ acc q, add acc (load h src q)) zero (seqZ from len)).

Lemma _sum_practice_block out src size blockIdx h :
  _sum_practice out src size blockIdx 32 h
  = if bool_decide (blockIdx * 32 < size)
    then [(out, blockIdx, run h src (blockIdx * 32) (Z.min 32 (size - blockIdx * 32)))]
    else [].
Proof using add_assoc add_zero_l add_zero_r.
  rewrite _sum_practice_block_tree. case_bool_decide; [|done].
  by rewrite (tree_combine_foldl add zero).
Qed.

Lemma _sum_practice_reads out src size blockIdx h h' :
  src ≠ out → same_outside out h h' →
  _sum_practice out src size blockIdx 32 h' = _sum_practice out src size blockIdx 32 h.
Proof using add_assoc add_zero_l add_zero_r.
  intros Ha Hh. rewrite !_sum_practice_block. case_bool_decide; [|done].
  do 2 f_equal. apply foldl_ext_in. intros acc q _. f_equal.
  symmetry. by apply (load_same_outside out).
Qed.

(** X15: the practice sum kernel, launched with one block of 32 threads
    for every started chunk of 32 cells, leaves in cell [b] of an output
    that has a cell for every block the sum of the cells
    [32 b, ..., min (32 b + 32, size) - 1] of [a] ([+] associative with
    identity [0.0]; the last chunk may be shorter than 32). *)
Theorem sum_practice_launch out src size h st :
  h !! out = Some st → src ≠ out →
  size / 32 < Z.of_nat (length st) →
  ∀ b, 0 <= b → b * 32 < size →
    load (launch (seqZ 0 (size / 32 + 1))
            (λ blockIdx, _sum_practice out src size blockIdx 32) h) out b
    = run h src (b * 32) (Z.min 32 (size - b * 32)).
Proof using add_assoc add_zero_l add_zero_r.
  intros Hst Ha Hlen b Hb Hlt.
  assert (b <= size / 32) as Hble by (apply Z.div_le_lower_bound; lia).
  eapply (launch_cell _ _ out h st b).
  - done.
  - lia.
  - intros blk h' _ Hh'. by apply _sum_practice_reads.
  - intros blk w Hblk Hw. apply elem_of_seqZ in Hblk.
    rewrite _sum_practice_block in Hw.
    case_bool_decide; [|by apply elem_of_nil in Hw].
    apply list_elem_of_singleton in Hw. subst w. cbn [fst snd]. split; [done|lia].
  - apply elem_of_seqZ. lia.
  - rewrite _sum_practice_block, bool_decide_true by done.
    by apply list_elem_of_singleton.
  - intros blk v' _ Hv'. rewrite _sum_practice_block in Hv'.
    case_bool_decide; [|by apply elem_of_nil in Hv'].
    apply list_elem_of_singleton in Hv'. by injection Hv' as <- ->.
Qed.

Lemma store_alloc h (st : list T) pos v :
  0 <= pos →
  store (h ++ [st]) (length h, pos, v) = h ++ [<[Z.to_nat pos := v]> st].
Proof.
  intros Hpos. rewrite store_alter by done.
  apply list_eq. intros n. destruct (decide (n = length h)) as [->|Hne].
  - by rewrite list_lookup_alter_eq, !list_lookup_middle.
  - rewrite list_lookup_alter_ne by done.
    destruct (decide (n < length h)%nat).
    + by rewrite !lookup_app_l by done.
    + by rewrite !lookup_ge_None_2 by (rewrite length_app; simpl; lia).
Qed.

End sum_host.

Section sum_practice_host.
Context {T : Type} `{!Scalar T}.
Implicit Types (h : heap T) (a : Tensor).

(** A block reads [a] only. *)
Lemma _sum_practice_frame out src size blockIdx h h' :
  src ≠ out → same_outside out h h' →
  _sum_practice out src size blockIdx 32 h' = _sum_practice out src size blockIdx 32 h.
Proof.
  intros Ha Hh. rewrite !_sum_practice_block_tree. case_bool_decide; [|done].
  do 2 f_equal. apply tree_combine_ext. intros q.
  symmetry. by apply (load_same_outside out).
Qed.

(** X16: [sum_practice] on a one-dimensional tensor of at most 64 cells
    returns a new two-cell output and changes no other array.  Cell [b] of
    it holds the cells [32 b, ..., min (32 b + 32, size) - 1] of the storage
    of [a] added in the order of the kernel's tree over the 32 cells of the
    block, of which those from [size] on hold [0.0]; when there is no such
    cell it holds the initial [0.0], which is also what the tree is then.
    Nothing is assumed of [+] for this.  Whenever [+] is associative with
    identity [0.0], the two cells are the sum of the first 32 cells and the
    sum of the cells from 32 on, added from [0.0] in their order.  The
    storage is read as it lies, whatever the strides of [a]. *)
Theorem sum_practice_sums a h size :
  (storage a < length h)%nat →
  shape a = [size] → 0 <= size <= 64 →
  let chunk := λ b, tree_combine add zero (λ q, load h (storage a) (b * 32 + q))
                      (size - b * 32) 5 0 in
  sum_practice a h = Some (mkTensor (length h) [2] [1], h ++ [[chunk 0; chunk 1]])
  ∧ ((∀ x y z : T, add (add x y) z = add x (add y z)) →
     (∀ x : T, add zero x = x) → (∀ x : T, add x zero = x) →
     chunk 0 = foldl (λ acc q, add acc (load h (storage a) q)) zero
                 (seqZ 0 (Z.min size 32))
     ∧ chunk 1 = foldl (λ acc q, add acc (load h (storage a) q)) zero
                   (seqZ 32 (size - 32))).
Proof.
  intros Ha Hshape Hsize chunk. split.
  - unfold sum_practice. rewrite Hshape.
    cbn [unpack_1 mbind option_bind tensor_data]. do 2 f_equal.
    set (h1 := h ++ _).
    cbn [storage].
    rewrite (launch_commit (length h)).
    2:{ intros b h' _ Hh'. apply _sum_practice_frame; [lia|done]. }
    2:{ intros b _. rewrite _sum_practice_block_tree. case_bool_decide; repeat constructor. }
    assert (∀ b, tree_combine add zero (λ q, load h1 (storage a) (b * 32 + q))
                   (size - b * 32) 5 0 = chunk b) as Hchunk.
    { intros b. apply tree_combine_ext. intros q. by apply load_alloc. }
    assert (∀ b, size <= b * 32 → chunk b = zero) as Hnone.
    { intros b Hb. apply tree_combine_outside. lia. }
    unfold THREADS_PER_BLOCK.
    assert (size / 32 = 0 ∧ size < 32 ∨ size / 32 = 1 ∧ 32 <= size < 64
            ∨ size / 32 = 2 ∧ size = 64) as Hcases.
    { destruct (decide (size < 32)); [left; split; [apply Z.div_small|]; lia|].
      destruct (decide (size < 64)); [right; left; split; [|lia]|right; right; split; [|lia]].
      - symmetry. apply (Z.div_unique size 32 1 (size - 32)); lia.
      - assert (size = 64) as -> by lia. done. }
    destruct Hcases as [[-> Hs]|[[-> Hs]|[-> Hs]]].
    + change (seqZ 0 (0 + 1)) with [0]. rewrite bind_singleton, _sum_practice_block_tree.
      rewrite Hchunk, (Hnone 1) by lia.
      case_bool_decide.
      * unfold commit. cbn [foldl]. unfold h1. by rewrite store_alloc.
      * rewrite (Hnone 0) by lia. done.
    + change (seqZ 0 (1 + 1)) with [0; 1]. rewrite bind_cons, bind_singleton.
      rewrite !_sum_practice_block_tree, !Hchunk.
      rewrite (bool_decide_true (0 * 32 < size)) by lia.
      case_bool_decide.
      * unfold commit. cbn [foldl app]. unfold h1. by rewrite !store_alloc.
      * rewrite (Hnone 1) by lia. unfold commit. cbn [foldl app]. unfold h1.
        by rewrite !store_alloc.
    + change (seqZ 0 (2 + 1)) with [0; 1; 2].
      rewrite !bind_cons. rewrite !_sum_practice_block_tree, !Hchunk.
      rewrite (bool_decide_true (0 * 32 < size)), (bool_decide_true (1 * 32 < size)),
        (bool_decide_false (2 * 32 < size)) by lia.
      unfold commit. cbn [foldl app mbind list_bind]. unfold h1.
      by rewrite !store_alloc.
  - intros Hassoc Hleft Hright. unfold chunk.
    rewrite !(tree_combine_foldl add zero Hassoc Hleft Hright (load h (storage a))).
    change (2 ^ Z.of_nat 5) with 32. split; do 2 f_equal; lia.
Qed.

End sum_practice_host.


(** ** Practice matrix multiply *)

Lemma getitem_from_0 {A} (l : list A) i : 0 <= i → getitem l i = l !! Z.to_nat i.
Proof.
  intros Hi. destruct (decide (i < Z.of_nat (length l))).
  - by apply getitem_nonneg.
  - rewrite getitem_None by lia. symmetry. apply lookup_ge_None_2. lia.
Qed.

Lemma foldl_option_None {A B} (f : A → B → option A) (l : list B) :
  foldl (λ acc x, acc ← acc; f acc x) None l = None.
Proof. by induction l. Qed.

Lemma join_fmap_bind {A B} (g : A → list B) (l : list A) : mjoin (g <$> l) = l ≫= g.
Proof.
  induction l as [|x l IH]; [done|].
  rewrite fmap_cons, bind_cons. simpl. by rewrite IH.
Qed.

(** The accesses to a tile of 32 rows of 32 cells. *)
Section tile_store.
Context {T : Type} `{!Scalar T}.
Implicit Types (t : list (list T)).

Local Abbreviation square t := (length <$> t = replicate 32 32%nat).

Lemma tile_make_square (f : Z → Z → T) : square (tile_make 32 32 f).
Proof. done. Qed.

Lemma square_row t r :
  square t → 0 <= r < 32 → ∃ row, t !! Z.to_nat r = Some row ∧ length row = 32%nat.
Proof.
  intros Hsq Hr. apply (f_equal (λ d, d !! Z.to_nat r)) in Hsq.
  rewrite list_lookup_fmap, lookup_replicate_2 in Hsq by lia.
  destruct (t !! Z.to_nat r) as [row|]; [|done]. injection Hsq as Hlen. by exists row.
Qed.

Lemma tile_at_from_0 t r c :
  0 <= r → 0 <= c → tile_at t r c = (row ← t !! Z.to_nat r; row !! Z.to_nat c).
Proof.
  intros Hr Hc. unfold tile_at. rewrite getitem_from_0 by done.
  destruct (t !! Z.to_nat r); simpl; [|done]. by rewrite getitem_from_0.
Qed.

(** A column from 32 on is outside the tile. *)
Lemma tile_at_beyond t r c :
  square t → 0 <= r → 32 <= c → tile_at t r c = None.
Proof.
  intros Hsq Hr Hc. rewrite tile_at_from_0 by lia.
  destruct (decide (r < 32)) as [Hlt|Hge].
  - destruct (square_row t r Hsq) as (row & -> & Hlen); [lia|]. simpl.
    apply lookup_ge_None_2. lia.
  - rewrite (lookup_ge_None_2 t); [done|].
    apply (f_equal length) in Hsq. rewrite length_fmap, length_replicate in Hsq. lia.
Qed.

Lemma tile_put_inside t pi pj v :
  square t → 0 <= pi < 32 → 0 <= pj < 32 →
  tile_put t pi pj v = Some (alter (<[Z.to_nat pj := v]>) (Z.to_nat pi) t).
Proof.
  intros Hsq Hpi Hpj. destruct (square_row t pi Hsq Hpi) as (row & Hrow & Hlen).
  assert (Z.to_nat pi < length t)%nat by (by eapply lookup_lt_Some).
  unfold tile_put. rewrite getitem_from_0, Hrow by lia. simpl.
  rewrite setitem_nonneg by lia. simpl. rewrite setitem_nonneg by lia. f_equal.
  apply list_eq. intros n. destruct (decide (n = Z.to_nat pi)) as [->|Hne].
  - rewrite list_lookup_insert_eq by lia. by rewrite list_lookup_alter_eq, Hrow.
  - by rewrite list_lookup_insert_ne, list_lookup_alter_ne.
Qed.

Lemma alter_insert_square t i j v : square t → square (alter (<[j := v]>) i t).
Proof.
  intros Hsq. rewrite <- Hsq. apply list_eq. intros n. rewrite !list_lookup_fmap.
  destruct (decide (n = i)) as [->|Hne].
  - rewrite list_lookup_alter_eq. destruct (t !! i); simpl; [|done].
    by rewrite length_insert.
  - by rewrite list_lookup_alter_ne.
Qed.

Lemma tile_at_alter_eq t pi pj v :
  square t → 0 <= pi < 32 → 0 <= pj < 32 →
  tile_at (alter (<[Z.to_nat pj := v]>) (Z.to_nat pi) t) pi pj = Some v.
Proof.
  intros Hsq Hpi Hpj. destruct (square_row t pi Hsq Hpi) as (row & Hrow & Hlen).
  rewrite tile_at_from_0 by lia. rewrite list_lookup_alter_eq, Hrow. simpl.
  by rewrite list_lookup_insert_eq by lia.
Qed.

Lemma tile_at_alter_ne t pi pj v r c :
  0 <= pi → 0 <= pj → 0 <= r → 0 <= c → (r, c) ≠ (pi, pj) →
  tile_at (alter (<[Z.to_nat pj := v]>) (Z.to_nat pi) t) r c = tile_at t r c.
Proof.
  intros Hpi Hpj Hr Hc Hne. rewrite !tile_at_from_0 by lia.
  destruct (decide (r = pi)) as [->|Hr'].
  - rewrite list_lookup_alter_eq. destruct (t !! Z.to_nat pi); simpl; [|done].
    rewrite list_lookup_insert_ne; [done|]. intros Heq. apply Hne. f_equal. lia.
  - rewrite list_lookup_alter_ne; [done|]. lia.
Qed.

End tile_store.

Section mm_practice_block.
Context {T : Type} `{!Scalar T}.
Context (out a b : nat) (size : Z) (h : heap T).

Local Abbreviation blockIdx := (0, 0).
Local Abbreviation blockDim := (32, 32).
Local Abbreviation square t := (length <$> t = replicate 32 32%nat).

Lemma elem_of_block_threads dim_x dim_y tx ty :
  (tx, ty) ∈ block_threads (dim_x, dim_y) ↔ 0 <= tx < dim_x ∧ 0 <= ty < dim_y.
Proof. apply elem_of_threads. Qed.

Lemma mmp_inside_0 tx ty :
  mmp_inside size blockIdx tx ty = bool_decide (tx < size ∧ ty < size).
Proof.
  unfold mmp_inside, mmp_i, mmp_j, mmp_BLOCK_DIM. cbn [fst snd].
  repeat case_bool_decide; simpl; lia.
Qed.

(** Every store into a tile is inside it, whatever [size] is: after the
    barrier the tile holds, at the cell of every thread inside the bounds,
    the cell of the source at [i * size + j]. *)
Lemma mmp_shared_filled src :
  ∃ tile,
    mmp_shared size blockIdx blockDim h src = Some tile
    ∧ square tile
    ∧ ∀ r c, 0 <= r < 32 → 0 <= c < 32 → r < size → c < size →
        tile_at tile r c = Some (load h src (r * size + c)).
Proof.
  unfold mmp_shared.
  assert (∀ l : list (Z * Z), Forall (λ t, 0 <= t.1 < 32 ∧ 0 <= t.2 < 32) l →
    ∃ tile,
      foldl (λ shared t,
               shared ← shared;
               if mmp_inside size blockIdx t.1 t.2
               then tile_put shared (mmp_i blockIdx t.1) (mmp_j blockIdx t.2)
                      (load h src (mmp_i blockIdx t.1 * size + mmp_j blockIdx t.2))
               else Some shared)
            (Some (tile_make mmp_BLOCK_DIM mmp_BLOCK_DIM (λ _ _, zero))) l
      = Some tile
      ∧ square tile
      ∧ ∀ r c, (r, c) ∈ l → r < size → c < size →
          tile_at tile r c = Some (load h src (r * size + c))) as Hfill.
  { induction l as [|[tx ty] l IH] using rev_ind; intros Hl.
    { eexists. split; [done|]. split; [apply tile_make_square|].
      intros r c Hin. by apply elem_of_nil in Hin. }
    apply Forall_app in Hl as [Hl Ht]. rewrite Forall_singleton in Ht.
    cbn [fst snd] in Ht.
    destruct (IH Hl) as (tile & Hfold & Hsq & Hcells).
    rewrite foldl_app, Hfold. cbn [foldl fst snd mbind option_bind].
    rewrite mmp_inside_0. unfold mmp_i, mmp_j, mmp_BLOCK_DIM. cbn [fst snd].
    rewrite !Z.add_0_l.
    case_bool_decide as Hins.
    - rewrite tile_put_inside by (done || lia).
      eexists. split; [done|]. split; [by apply alter_insert_square|].
      intros r c Hin Hr Hc.
      destruct (decide ((r, c) = (tx, ty))) as [[= -> ->]|Hne].
      + apply tile_at_alter_eq; done || lia.
      + apply elem_of_app in Hin as [Hin|Hin].
        2:{ apply list_elem_of_singleton in Hin. done. }
        rewrite Forall_forall in Hl. pose proof (Hl _ Hin) as Hb. cbn [fst snd] in Hb.
        rewrite tile_at_alter_ne by (done || lia). by apply Hcells.
    - exists tile. split; [done|]. split; [done|].
      intros r c Hin Hr Hc. apply elem_of_app in Hin as [Hin|Hin]; [by apply Hcells|].
      apply list_elem_of_singleton in Hin. injection Hin as -> ->. lia. }
  destruct (Hfill (block_threads blockDim)) as (tile & Hfold & Hsq & Hcells).
  { apply Forall_forall. intros [tx ty] Ht. by apply elem_of_block_threads in Ht. }
  exists tile. split; [done|]. split; [done|].
  intros r c Hr Hc Hrs Hcs. apply Hcells; [|done|done].
  by apply elem_of_block_threads.
Qed.

(** The accumulator of a thread whose reads are all inside the tiles. *)
Lemma mmp_accum_dot (a_shared b_shared : list (list T)) i j (x y : Z → T) :
  (∀ k, 0 <= k < size →
     tile_at a_shared i k = Some (x k) ∧ tile_at b_shared k j = Some (y k)) →
  mmp_accum size a_shared b_shared i j = Some (dot x y size).
Proof.
  intros Hread. unfold mmp_accum, dot.
  assert (∀ k, k ∈ seqZ 0 size →
    tile_at a_shared i k = Some (x k) ∧ tile_at b_shared k j = Some (y k)) as Hl.
  { intros k Hk. apply elem_of_seqZ in Hk. apply Hread. lia. }
  clear Hread. revert Hl. generalize (seqZ 0 size). generalize (zero : T).
  intros acc l. revert acc. induction l as [|k l IH]; intros acc Hl; [done|].
  cbn [foldl mbind option_bind].
  destruct (Hl k) as [-> ->]; [left|]. cbn [mbind option_bind].
  apply IH. intros k' Hk'. apply Hl. by right.
Qed.

(** The accumulator of a thread when [size] is more than the tiles have
    columns: the read of [a_shared[i, 32]] is outside the tile. *)
Lemma mmp_accum_beyond (a_shared b_shared : list (list T)) i j :
  square a_shared → 0 <= i → 32 < size →
  mmp_accum size a_shared b_shared i j = None.
Proof.
  intros Hsq Hi Hsize. unfold mmp_accum.
  replace size with (32 + (size - 32)) at 1 by lia.
  rewrite (seqZ_app 0 32 (size - 32)) by lia. rewrite foldl_app.
  rewrite (seqZ_cons (0 + 32)) by lia. cbn [foldl].
  match goal with |- context [foldl ?f (Some zero) (seqZ 0 32)] =>
    destruct (foldl f (Some zero) (seqZ 0 32)) as [acc|] end;
    cbn [mbind option_bind].
  - rewrite (tile_at_beyond a_shared i (0 + 32)) by (done || lia).
    cbn [mbind option_bind]. apply foldl_option_None.
  - apply foldl_option_None.
Qed.

(** What the block of the launch stores when the matrices fit the tile. *)
Lemma _mm_practice_block :
  size <= 32 →
  _mm_practice out a b size blockIdx blockDim h
  = Some (t ← block_threads blockDim;
          if bool_decide (t.1 < size ∧ t.2 < size)
          then [(out, t.1 * size + t.2,
                 dot (λ k, load h a (t.1 * size + k)) (λ k, load h b (k * size + t.2)) size)]
          else []).
Proof.
  intros Hsize. unfold _mm_practice.
  destruct (mmp_shared_filled a) as (a_shared & -> & _ & Ha).
  destruct (mmp_shared_filled b) as (b_shared & -> & _ & Hb).
  cbn [mbind option_bind]. rewrite <- join_fmap_bind.
  match goal with |- mjoin <$> mapM ?f ?l = Some (mjoin (?g <$> ?l)) =>
    assert (mapM f l = Some (g <$> l)) as ->; [|done] end.
  apply mapM_Some_2, Forall2_fmap_r, Forall_Forall2_diag.
  apply Forall_forall. intros [tx ty] Ht. apply elem_of_block_threads in Ht.
  unfold compose. cbn [fst snd]. rewrite mmp_inside_0. case_bool_decide as Hins; [|done].
  unfold mmp_i, mmp_j, mmp_BLOCK_DIM. cbn [fst snd]. rewrite !Z.add_0_l.
  rewrite (mmp_accum_dot _ _ _ _
    (λ k, load h a (tx * size + k)) (λ k, load h b (k * size + ty))); [done|].
  intros k Hk. split; [apply Ha|apply Hb]; lia.
Qed.

(** The block has no stores to make when the matrices are larger than the
    tile: thread [(0, 0)] leaves it in its first row. *)
Lemma _mm_practice_beyond :
  32 < size → _mm_practice out a b size blockIdx blockDim h = None.
Proof.
  intros Hsize. unfold _mm_practice.
  destruct (mmp_shared_filled a) as (a_shared & -> & Hsq & _).
  destruct (mmp_shared_filled b) as (b_shared & -> & _ & _).
  cbn [mbind option_bind].
  rewrite (mapM_None_2 _ (block_threads blockDim)); [done|].
  apply Exists_exists. exists (0, 0). split; [apply elem_of_block_threads; lia|].
  cbn [fst snd]. rewrite mmp_inside_0, bool_decide_true by lia.
  cbv zeta. by rewrite mmp_accum_beyond by (done || unfold mmp_i, mmp_BLOCK_DIM; simpl; lia).
Qed.

End mm_practice_block.

Section mm_practice_host.
Context {T : Type} `{!Scalar T}.
Implicit Types (h : heap T) (a b : Tensor).

Lemma launch_checked_single {B} (blk : B) kernel h :
  launch_checked [blk] kernel h = (ws ← kernel blk h; Some (commit ws h)).
Proof. done. Qed.

Lemma position2 size i j :
  index_to_position [i; j] (strides_from_shape [size; size]) = i * size + j.
Proof. simpl. lia. Qed.

Lemma cell_position size i j tx ty :
  0 <= j < size → 0 <= ty < size → tx * size + ty = i * size + j → tx = i ∧ ty = j.
Proof. intros Hj Hty Heq. assert (tx = i) by nia. subst. lia. Qed.

(** X17: [mm_practice] on storages laid out as [size] by [size] matrices,
    [size <= 32], returns a new [(size, size)] output whose element [(i, j)]
    is the sum over [k] of [a[i * size + k] * b[k * size + j]], added up
    from [0.0] in the order of [k]; the first extent of the shape of [a] is
    the only thing read of the shapes, and no earlier array changes. *)
Theorem mm_practice_product a b h size other :
  (storage a < length h)%nat → (storage b < length h)%nat →
  shape a = [size; other] → 0 <= size <= 32 →
  ∃ out h',
    mm_practice a b h = Some (out, h')
    ∧ shape out = [size; size]
    ∧ (∀ addr, (addr < length h)%nat → h' !! addr = h !! addr)
    ∧ ∀ i j, 0 <= i < size → 0 <= j < size →
        tensor_get h' out [i; j]
        = dot (λ k, load h (storage a) (i * size + k))
              (λ k, load h (storage b) (k * size + j)) size.
Proof.
  intros Ha Hb Hshape Hsize. unfold mm_practice. rewrite Hshape.
  cbn [unpack_2 mbind option_bind tensor_data].
  change (blocks_x 1) with [(0, 0)]. rewrite launch_checked_single.
  change (THREADS_PER_BLOCK, THREADS_PER_BLOCK) with (32, 32).
  cbn [storage]. rewrite _mm_practice_block by lia. cbn [mbind option_bind].
  eexists _, _. split; [reflexivity|]. split; [reflexivity|].
  set (cells := (λ _, zero) <$> seqZ 0 (size * size)).
  set (h1 := h ++ [cells]).
  set (ws := block_threads (32, 32) ≫= _).
  assert (∀ w, w ∈ ws → ∃ tx ty, 0 <= tx < size ∧ 0 <= ty < size
    ∧ w = (length h, tx * size + ty,
           dot (λ k, load h1 (storage a) (tx * size + k))
               (λ k, load h1 (storage b) (k * size + ty)) size)) as Hws.
  { intros w Hw. apply list_elem_of_bind in Hw as ([tx ty] & Hw & Ht).
    apply elem_of_block_threads in Ht. cbn [fst snd] in Hw.
    case_bool_decide; [|by apply elem_of_nil in Hw].
    apply list_elem_of_singleton in Hw. exists tx, ty. split; [lia|]. split; [lia|done]. }
  split.
  - intros addr Haddr.
    destruct (commit_same_outside (length h) ws h1) as [_ Hsame].
    { apply Forall_forall. intros w Hw.
      destruct (Hws w Hw) as (tx & ty & _ & _ & ->). done. }
    rewrite <- Hsame by lia. unfold h1. by rewrite lookup_app_l.
  - intros i j Hi Hj. unfold tensor_get. cbn [storage strides].
    rewrite position2.
    rewrite (load_commit ws h1 (length h) (i * size + j)
      (dot (λ k, load h1 (storage a) (i * size + k))
           (λ k, load h1 (storage b) (k * size + j)) size) cells).
    + unfold dot. apply foldl_ext_in. intros acc k _.
      unfold h1. by rewrite !load_alloc.
    + apply lookup_alloc.
    + unfold cells. rewrite length_fmap, length_seqZ. nia.
    + apply Forall_forall. intros w Hw.
      destruct (Hws w Hw) as (tx & ty & Htx & Hty & ->). cbn [fst snd]. nia.
    + unfold ws. apply list_elem_of_bind. exists (i, j).
      split; [|apply elem_of_block_threads; lia]. cbn [fst snd].
      rewrite bool_decide_true by lia. by apply list_elem_of_singleton.
    + intros v' Hv'. destruct (Hws _ Hv') as (tx & ty & Htx & Hty & Heq).
      injection Heq as Hpos ->.
      destruct (cell_position size i j tx ty) as [-> ->]; (done || lia).
Qed.

(** X18: [mm_practice] has no result for [size > 32].  Its single block
    keeps two tiles of 32 by 32 cells whatever [size] is, and every thread
    adds up [size] products: the thread reads a tile at column 32 and
    leaves it.  That is an [IndexError] where indices are checked and is
    undefined on the device; with X17, the matrices the function multiplies
    are those of at most 32 rows. *)
Theorem mm_practice_beyond_tile a b h size other :
  shape a = [size; other] → 32 < size → mm_practice a b h = None.
Proof.
  intros Hshape Hsize. unfold mm_practice. rewrite Hshape.
  cbn [unpack_2 mbind option_bind tensor_data].
  change (blocks_x 1) with [(0, 0)]. rewrite launch_checked_single.
  change (THREADS_PER_BLOCK, THREADS_PER_BLOCK) with (32, 32).
  by rewrite _mm_practice_beyond.
Qed.

End mm_practice_host.

(** ** Training loop *)

Section train_properties.
Context {Params Out Loss : Type}.
Context (forward_loss : Params → Out * Loss).
Context (update : Params → Params).
Context (count_correct : Out → Z).

(** X19: the training loop appends one loss per epoch, so [losses] ends
    with [max_epochs] entries; it calls [log_fn] exactly at the epochs
    from 1 to [max_epochs] that are multiples of 10 or equal to
    [max_epochs], in that order; at each call the list of losses it passes
    has as many entries as the number of the epoch, ends with the total
    loss passed with it, and is a prefix of the final list. *)
Theorem train_log_schedule (init : Params) (max_epochs : Z) :
  let result := train forward_loss update count_correct init max_epochs in
  let losses := result.1.2 in
  let log := result.2 in
  length losses = Z.to_nat max_epochs
  ∧ (λ call, call.1.1.1) <$> log
    = filter (λ epoch, epoch mod 10 = 0 ∨ epoch = max_epochs) (seqZ 1 max_epochs)
  ∧ Forall (λ call, Z.of_nat (length call.2) = call.1.1.1
                    ∧ last call.2 = Some call.1.1.2
                    ∧ call.2 `prefix_of` losses) log.
Proof.
  intros result losses log. unfold losses, log, result, train.
  assert (seqZ 1 max_epochs = seqZ 1 (Z.of_nat (Z.to_nat max_epochs))) as Hseq.
  { unfold seqZ. by rewrite Nat2Z.id. }
  rewrite !Hseq. generalize (Z.to_nat max_epochs). intros n. clear.
  induction n as [|n (Hlen & Hlog & Hcalls)].
  { done. }
  rewrite seqZ_S, foldl_app, filter_app. cbn [foldl].
  destruct (foldl _ _ (seqZ 1 (Z.of_nat n))) as [[params losses] log].
  cbn [fst snd] in *. unfold train_epoch.
  destruct (forward_loss params) as [out total_loss].
  assert (Forall (λ call : Z * Loss * Z * list Loss,
            Z.of_nat (length call.2) = call.1.1.1
            ∧ last call.2 = Some call.1.1.2
            ∧ call.2 `prefix_of` losses ++ [total_loss]) log) as Hcalls'.
  { eapply Forall_impl; [exact Hcalls|]. intros call (? & ? & ?).
    split; [done|]. split; [done|]. by apply prefix_app_r. }
  rewrite filter_cons, filter_nil.
  destruct (decide ((1 + Z.of_nat n) mod 10 = 0 ∨ 1 + Z.of_nat n = max_epochs))
    as [Hlogged|Hskipped].
  - assert (bool_decide ((1 + Z.of_nat n) mod 10 = 0)
            || bool_decide (1 + Z.of_nat n = max_epochs) = true) as ->.
    { destruct Hlogged; [rewrite (bool_decide_true (_ mod 10 = 0)) by done; done|].
      rewrite (bool_decide_true (_ = max_epochs)) by done. apply orb_true_r. }
    cbn [fst snd]. split; [rewrite length_app; simpl; lia|]. split.
    + by rewrite fmap_app, Hlog.
    + apply Forall_app. split; [done|]. apply Forall_singleton. cbn [fst snd].
      split; [rewrite length_app; simpl; lia|]. split; [apply last_snoc|done].
  - assert (bool_decide ((1 + Z.of_nat n) mod 10 = 0)
            || bool_decide (1 + Z.of_nat n = max_epochs) = false) as ->.
    { rewrite !bool_decide_false by tauto. done. }
    cbn [fst snd]. split; [rewrite length_app; simpl; lia|]. split.
    + by rewrite app_nil_r.
    + done.
Qed.

End train_properties.

#[local] Existing Instance limits_32.
#[local] Existing Instance fresh_zero.

(** C1, at the input where the code departs from it: for a vector of 2050
    ones reduced with [add], block 1 of the launch stores its partial sum
    1024 at flat position 1024 of the output, while the position of its
    output coordinate is 1; the three-cell output ends as [1024; 0; 0]. *)
Theorem reduce_2050_stores :
  index_to_position (to_index 1 [3]) [1] = 1
  ∧ _reduce Z.add 1 [3] [1] 3 0 [2050] [1] 0 0 1 1024 [replicate 2050 1]
    = [(1%nat, 1024, 1024)]
  ∧ CudaOps.reduce Z.add 0 (mkTensor 0 [2050] [1]) 0 [replicate 2050 1]
    = (inr (mkTensor 1 [3] [1]), [replicate 2050 1; [1024; 0; 0]]).
Proof. vm_compute. done. Qed.

(** * The properties at concrete inputs *)

(** Shape (2, 3, 4): position 17 and the coordinate (1, 1, 1). *)
Lemma to_index_position_inverse_witness :
  index_to_position (to_index 17 [2; 3; 4]) (strides_from_shape [2; 3; 4]) = 17
  ∧ to_index (index_to_position [1; 1; 1] (strides_from_shape [2; 3; 4])) [2; 3; 4]
    = [1; 1; 1].
Proof.
  destruct (to_index_position_inverse [2; 3; 4]) as [H1 H2].
  - repeat constructor; lia.
  - split; [apply H1; simpl; lia|apply H2; repeat constructor; lia].
Defined.

(** Squares of the vector [1, 2, 3]. *)
Lemma map_applies_fn_witness :
  ∃ out h',
    CudaOps.map (λ x : Z, x * x) (mkTensor 0 [3] [1]) None
      [[1; 2; 3]] = (inr out, h')
    ∧ shape out = [3]
    ∧ ∀ index, in_shape index [3] →
        tensor_get h' out index
        = tensor_get [[1; 2; 3]] (mkTensor 0 [3] [1]) index
          * tensor_get [[1; 2; 3]] (mkTensor 0 [3] [1]) index.
Proof.
  apply (map_applies_fn (λ x : Z, x * x) (mkTensor 0 [3] [1]) [[1; 2; 3]]).
  - simpl. lia.
  - simpl. lia.
  - repeat constructor; lia.
Defined.

Example map_square :
  CudaOps.map (λ x : Z, x * x) (mkTensor 0 [3] [1]) None [[1; 2; 3]]
  = (inr (mkTensor 1 [3] [1]), [[1; 2; 3]; [1; 4; 9]]).
Proof. vm_compute. reflexivity. Qed.

(** A column (3, 1) added to a row (1, 4). *)
Lemma zip_applies_fn_broadcast_witness :
  ∃ out h',
    CudaOps.zip Z.add (mkTensor 0 [3; 1] [1; 1]) (mkTensor 1 [1; 4] [4; 1])
      [[1; 2; 3]; [10; 20; 30; 40]] = (inr out, h')
    ∧ shape out = [3; 4]
    ∧ ∀ index, in_shape index [3; 4] →
        tensor_get h' out index
        = tensor_get [[1; 2; 3]; [10; 20; 30; 40]] (mkTensor 0 [3; 1] [1; 1])
            (broadcast_index index [3; 4] [3; 1])
          + tensor_get [[1; 2; 3]; [10; 20; 30; 40]] (mkTensor 1 [1; 4] [4; 1])
              (broadcast_index index [3; 4] [1; 4]).
Proof.
  apply (zip_applies_fn_broadcast Z.add (mkTensor 0 [3; 1] [1; 1])
           (mkTensor 1 [1; 4] [4; 1]) [[1; 2; 3]; [10; 20; 30; 40]] [3; 4]).
  - simpl. lia.
  - simpl. lia.
  - reflexivity.
  - simpl. lia.
  - repeat constructor; lia.
Defined.

Example zip_add_broadcast :
  CudaOps.zip Z.add (mkTensor 0 [3; 1] [1; 1]) (mkTensor 1 [1; 4] [4; 1])
    [[1; 2; 3]; [10; 20; 30; 40]]
  = (inr (mkTensor 2 [3; 4] [4; 1]),
     [[1; 2; 3]; [10; 20; 30; 40]; [11; 21; 31; 41; 12; 22; 32; 42; 13; 23; 33; 43]]).
Proof. vm_compute. reflexivity. Qed.

Example zip_incompatible :
  CudaOps.zip Z.add (mkTensor 0 [3; 1] [1; 1]) (mkTensor 1 [2; 4] [4; 1])
    [[1; 2; 3]; [10; 20; 30; 40; 50; 60; 70; 80]]
  = (inl ShapeMismatchError, [[1; 2; 3]; [10; 20; 30; 40; 50; 60; 70; 80]]).
Proof. vm_compute. reflexivity. Qed.

(** Three output cells, a block of 32 threads: thread 5 is beyond the size,
    thread 1 is inside. *)
Lemma elementwise_thread_writes_witness :
  _map Z.succ 1 [3] [1] 3 0 [3] [1] 0 32 5 [[1; 2; 3]; [0; 0; 0]] = []
  ∧ ∃ v, _map Z.succ 1 [3] [1] 3 0 [3] [1] 0 32 1 [[1; 2; 3]; [0; 0; 0]]
         = [(1%nat, index_to_position (to_index 1 [3]) [1], v)].
Proof.
  split.
  - destruct (elementwise_thread_writes (T:=Z) Z.succ Z.add 1 [3] [1] 3 0 [3] [1]
                0 [3] [1] 0 [3] [1] 0 32 5 [[1; 2; 3]; [0; 0; 0]]) as (Hnone & _).
    + simpl. lia.
    + repeat constructor; lia.
    + repeat constructor; lia.
    + apply Hnone. lia.
  - destruct (elementwise_thread_writes (T:=Z) Z.succ Z.add 1 [3] [1] 3 0 [3] [1]
                0 [3] [1] 0 [3] [1] 0 32 1 [[1; 2; 3]; [0; 0; 0]]) as (_ & Hone & _).
    + simpl. lia.
    + repeat constructor; lia.
    + repeat constructor; lia.
    + destruct Hone as (v1 & v2 & Hmap & _); [lia|]. by exists v1.
Defined.

(** A (2, 3) tensor reduced along its last axis, given as [-1]. *)
Lemma reduce_output_shape_witness :
  ∃ out h' n r,
    CudaOps.reduce Z.add 0 (mkTensor 0 [2; 3] [3; 1]) (-1) [[1; 2; 3; 4; 5; 6]]
    = (inr out, h')
    ∧ [2; 3] !! 1%nat = Some n
    ∧ 1024 * (r - 1) < n <= 1024 * r
    ∧ shape out = <[1%nat := r]> [2; 3]
    ∧ length (shape out) = 2%nat
    ∧ shape out !! 1%nat = Some r
    ∧ ∀ d', d' ≠ 1%nat → shape out !! d' = [2; 3] !! d'.
Proof.
  apply (reduce_output_shape Z.add 0 (mkTensor 0 [2; 3] [3; 1]) (-1)
           [[1; 2; 3; 4; 5; 6]] 1).
  reflexivity.
Defined.



Example reduce_rows :
  CudaOps.reduce Z.add 0 (mkTensor 0 [2; 3] [3; 1]) 1 [[1; 2; 3; 4; 5; 6]]
  = (inr (mkTensor 1 [2; 1] [1; 1]), [[1; 2; 3; 4; 5; 6]; [6; 15]]).
Proof. vm_compute. reflexivity. Qed.

(** One batch of [a] against two batches of [b], with [K = 5]. *)
Lemma matrix_multiply_batched_witness :
  ∃ out h',
    CudaOps.matrix_multiply (mkTensor 0 [1; 2; 5] [10; 5; 1]) (mkTensor 1 [2; 5; 2] [10; 2; 1])
      [[1; 2; 3; 4; 5; 6; 7; 8; 9; 10];
       [1; 0; 0; 1; 1; 1; 2; 0; 0; 2; 1; 1; 1; 1; 1; 1; 1; 1; 1; 1]]
    = (inr out, h')
    ∧ shape out = [2; 2; 2].
Proof.
  destruct (matrix_multiply_batched (T:=Z)
              (mkTensor 0 [1; 2; 5] [10; 5; 1]) (mkTensor 1 [2; 5; 2] [10; 2; 1])
              [[1; 2; 3; 4; 5; 6; 7; 8; 9; 10];
               [1; 0; 0; 1; 1; 1; 2; 0; 0; 2; 1; 1; 1; 1; 1; 1; 1; 1; 1; 1]]
              1 2 2 5 2) as (out & h' & Hrun & Hshape & _).
  - simpl. lia.
  - simpl. lia.
  - reflexivity.
  - reflexivity.
  - right. left. reflexivity.
  - exists out, h'. split; [exact Hrun|exact Hshape].
Defined.

Example matrix_multiply_tail :
  CudaOps.matrix_multiply (mkTensor 0 [1; 2; 5] [10; 5; 1]) (mkTensor 1 [2; 5; 2] [10; 2; 1])
    [[1; 2; 3; 4; 5; 6; 7; 8; 9; 10];
     [1; 0; 0; 1; 1; 1; 2; 0; 0; 2; 1; 1; 1; 1; 1; 1; 1; 1; 1; 1]]
  = (inr (mkTensor 2 [2; 2; 2] [4; 2; 1]),
     [[1; 2; 3; 4; 5; 6; 7; 8; 9; 10];
      [1; 0; 0; 1; 1; 1; 2; 0; 0; 2; 1; 1; 1; 1; 1; 1; 1; 1; 1; 1];
      [12; 15; 32; 35; 15; 15; 40; 40]]).
Proof. vm_compute. reflexivity. Qed.

(** Two matrices (2, 3) and (3, 2). *)
Lemma matrix_multiply_rank_witness :
  ∃ out h',
    CudaOps.matrix_multiply (mkTensor 0 [2; 3] [3; 1]) (mkTensor 1 [3; 2] [2; 1])
      [[1; 2; 3; 4; 5; 6]; [1; 0; 0; 1; 1; 1]]
    = (inr out, h')
    ∧ shape out = [2; 2].
Proof.
  destruct (matrix_multiply_rank (T:=Z)
              (mkTensor 0 [2; 3] [3; 1]) (mkTensor 1 [3; 2] [2; 1])
              [[1; 2; 3; 4; 5; 6]; [1; 0; 0; 1; 1; 1]] 0 2 3 2) as (Hboth & _).
  destruct Hboth as (a' & b' & h1 & out & h' & _ & _ & _ & Hrun & Hshape).
  - reflexivity.
  - reflexivity.
  - exists out, h'. split; [exact Hrun|exact Hshape].
Defined.

Example matrix_multiply_2d :
  CudaOps.matrix_multiply (mkTensor 0 [2; 3] [3; 1]) (mkTensor 1 [3; 2] [2; 1])
    [[1; 2; 3; 4; 5; 6]; [1; 0; 0; 1; 1; 1]]
  = (inr (mkTensor 4 [2; 2] [2; 1]),
     [[1; 2; 3; 4; 5; 6]; [1; 0; 0; 1; 1; 1];
      [1; 2; 3; 4; 5; 6]; [1; 0; 0; 1; 1; 1]; [4; 5; 10; 11]]).
Proof. vm_compute. reflexivity. Qed.

(** Inner extents 3 and 4. *)
Lemma matrix_multiply_inner_mismatch_witness :
  ∃ e,
    CudaOps.matrix_multiply (mkTensor 0 [1; 2; 3] [6; 3; 1]) (mkTensor 1 [1; 4; 5] [20; 5; 1])
      [replicate 6 1; replicate 20 1]
    = (inl e, [replicate 6 1; replicate 20 1])
    ∧ (is_Some (shape_broadcast [1] [1]) → e = AssertionError).
Proof.
  apply (matrix_multiply_inner_mismatch (T:=Z)
           (mkTensor 0 [1; 2; 3] [6; 3; 1]) (mkTensor 1 [1; 4; 5] [20; 5; 1])
           [replicate 6 1; replicate 20 1]
           (mkTensor 0 [1; 2; 3] [6; 3; 1]) (mkTensor 1 [1; 4; 5] [20; 5; 1])
           false [replicate 6 1; replicate 20 1] 3 4).
  - reflexivity.
  - simpl. lia.
  - reflexivity.
  - reflexivity.
  - lia.
Defined.

(** ** The further properties at concrete inputs *)

(** A vector of three cells broadcast into the two rows of a (2, 3)
    output. *)
Lemma map_into_out_witness :
  ∃ h',
    CudaOps.map Z.succ (mkTensor 0 [3] [1]) (Some (mkTensor 1 [2; 3] [3; 1]))
      [[1; 2; 3]; replicate 6 0]
    = (inr (mkTensor 1 [2; 3] [3; 1]), h')
    ∧ same_outside 1 [[1; 2; 3]; replicate 6 0] h'
    ∧ ∀ index, in_shape index [2; 3] →
        tensor_get h' (mkTensor 1 [2; 3] [3; 1]) index
        = Z.succ (tensor_get [[1; 2; 3]; replicate 6 0] (mkTensor 0 [3] [1])
                    (broadcast_index index [2; 3] [3])).
Proof.
  apply (map_into_out (T:=Z) Z.succ (mkTensor 0 [3] [1]) (mkTensor 1 [2; 3] [3; 1])
           [[1; 2; 3]; replicate 6 0] (replicate 6 0)).
  - reflexivity.
  - vm_compute. discriminate.
  - simpl. lia.
  - reflexivity.
  - simpl. lia.
  - repeat constructor; lia.
Defined.

Example map_broadcast_rows :
  CudaOps.map Z.succ (mkTensor 0 [3] [1]) (Some (mkTensor 1 [2; 3] [3; 1]))
    [[1; 2; 3]; replicate 6 0]
  = (inr (mkTensor 1 [2; 3] [3; 1]), [[1; 2; 3]; [2; 3; 4; 2; 3; 4]]).
Proof. vm_compute. reflexivity. Qed.

(** The vector [1, 2, 3] squared where it lies. *)
Lemma map_in_place_witness :
  ∃ h',
    CudaOps.map (λ x : Z, x * x) (mkTensor 0 [3] [1]) (Some (mkTensor 0 [3] [1]))
      [[1; 2; 3]]
    = (inr (mkTensor 0 [3] [1]), h')
    ∧ ∀ i, 0 <= i < 3 → load h' 0 i = load [[1; 2; 3]] 0 i * load [[1; 2; 3]] 0 i.
Proof.
  destruct (map_in_place (T:=Z) (λ x : Z, x * x) (mkTensor 0 [3] [1]) [[1; 2; 3]]
              [1; 2; 3]) as (h' & Hrun & _ & Hcells & _).
  - reflexivity.
  - vm_compute. discriminate.
  - reflexivity.
  - simpl. lia.
  - repeat constructor; lia.
  - repeat constructor; lia.
  - exists h'. split; [exact Hrun|exact Hcells].
Defined.

Example map_in_place_squares :
  CudaOps.map (λ x : Z, x * x) (mkTensor 0 [3] [1]) (Some (mkTensor 0 [3] [1]))
    [[1; 2; 3]]
  = (inr (mkTensor 0 [3] [1]), [[1; 4; 9]]).
Proof. vm_compute. reflexivity. Qed.

(** Three output cells and one block of 32 threads. *)
Lemma elementwise_stores_once_witness :
  (threads 1 32
     ≫= λ t, on_thread 32 (tensor_map Z.succ 1 [3] [1] 3 0 [3] [1]) t
               [[1; 2; 3]; [0; 0; 0]]).*1
  = [(1%nat, 0); (1%nat, 1); (1%nat, 2)].
Proof.
  destruct (elementwise_stores_once (T:=Z) Z.succ Z.add 1 [3] 0 [3] [1]
              0 [3] [1] 0 [3] [1] [[1; 2; 3]; [0; 0; 0]]) as [Hmap _].
  - simpl. lia.
  - repeat constructor; lia.
  - repeat constructor; lia.
  - exact Hmap.
Defined.

(** The same launch with its threads in the opposite order. *)
Lemma elementwise_order_independent_witness :
  launch (reverse (threads 1 32))
    (on_thread 32 (tensor_map Z.succ 1 [3] [1] 3 0 [3] [1])) [[1; 2; 3]; [0; 0; 0]]
  = launch (threads 1 32)
      (on_thread 32 (tensor_map Z.succ 1 [3] [1] 3 0 [3] [1])) [[1; 2; 3]; [0; 0; 0]].
Proof.
  destruct (elementwise_order_independent (T:=Z) Z.succ Z.add 1 [3] 0 [3] [1]
              0 [3] [1] 0 [3] [1] [[1; 2; 3]; [0; 0; 0]] (reverse (threads 1 32)))
    as [Hmap _].
  - simpl. lia.
  - repeat constructor; lia.
  - repeat constructor; lia.
  - lia.
  - lia.
  - lia.
  - apply reverse_Permutation.
  - exact Hmap.
Defined.

(** The successor of the squares of [1, 2, 3]. *)
Lemma map_after_map_witness :
  ∃ b c h1 h2,
    CudaOps.map (λ x : Z, x * x) (mkTensor 0 [3] [1]) None [[1; 2; 3]] = (inr b, h1)
    ∧ CudaOps.map Z.succ b None h1 = (inr c, h2)
    ∧ shape c = [3]
    ∧ ∀ index, in_shape index [3] →
        tensor_get h2 c index
        = Z.succ (tensor_get [[1; 2; 3]] (mkTensor 0 [3] [1]) index
                  * tensor_get [[1; 2; 3]] (mkTensor 0 [3] [1]) index).
Proof.
  destruct (map_after_map (T:=Z) (λ x : Z, x * x) Z.succ (mkTensor 0 [3] [1])
              [[1; 2; 3]]) as (b & c & h1 & h2 & Hrun1 & Hrun2 & Hshape & Hget).
  - simpl. lia.
  - simpl. lia.
  - repeat constructor; lia.
  - exists b, c, h1, h2. split; [exact Hrun1|]. split; [exact Hrun2|].
    split; [exact Hshape|]. intros index Hin. exact (proj1 (Hget index Hin)).
Defined.

(** Axis 2 of a tensor of rank 2. *)
Lemma reduce_axis_check_witness :
  CudaOps.reduce Z.add 0 (mkTensor 0 [2; 3] [3; 1]) 2 [[1; 2; 3; 4; 5; 6]]
  = (inl IndexError, [[1; 2; 3; 4; 5; 6]]).
Proof.
  apply (proj2 (reduce_axis_check (T:=Z) Z.add 0 (mkTensor 0 [2; 3] [3; 1]) 2
                  [[1; 2; 3; 4; 5; 6]])).
  simpl. lia.
Defined.

(** Block 1 of the three blocks over an axis of 2050 cells. *)
Lemma reduce_block_position_witness :
  ∃ v,
    _reduce Z.add 1 [3] [1] 3 0 [2050] [1] 0 0 1 1024 [replicate 2050 1]
    = [(1%nat, 1024, v)].
Proof.
  destruct (reduce_block_position (T:=Z) Z.add 0 1 [3] 0 [2050] [1] 0 1
              [replicate 2050 1]) as [Hstore _].
  - simpl. lia.
  - repeat constructor; lia.
  - repeat constructor; lia.
  - simpl. lia.
  - simpl. lia.
  - vm_compute. discriminate.
  - eexists. exact Hstore.
Defined.

(** An axis of exactly 1024 cells, reduced with start values 0 and 5. *)
Lemma reduce_full_chunk_ignores_start_witness :
  ∃ out h1 h1',
    CudaOps.reduce Z.add 0 (mkTensor 0 [1024] [1]) 0 [replicate 1024 1] = (inr out, h1)
    ∧ CudaOps.reduce Z.add 5 (mkTensor 0 [1024] [1]) 0 [replicate 1024 1]
      = (inr out, h1')
    ∧ ∀ index, in_shape index (shape out) →
        tensor_get h1 out index = tensor_get h1' out index.
Proof.
  apply (reduce_full_chunk_ignores_start (T:=Z) Z.add 0 5 (mkTensor 0 [1024] [1]) 0
           [replicate 1024 1]).
  - simpl. lia.
  - simpl. lia.
  - simpl. lia.
  - reflexivity.
  - repeat constructor; lia.
Defined.

(** A column of two cells reduced along its axis of extent 1 with start
    value 1. *)
Lemma reduce_single_element_witness :
  ∃ out h',
    CudaOps.reduce Z.add 1 (mkTensor 0 [2; 1] [1; 1]) 1 [[5; 7]] = (inr out, h')
    ∧ shape out = [2; 1]
    ∧ ∀ index, in_shape index [2; 1] →
        tensor_get h' out index
        = Nat.iter 10 (λ v, v + 1) (tensor_get [[5; 7]] (mkTensor 0 [2; 1] [1; 1]) index).
Proof.
  apply (reduce_single_element (T:=Z) Z.add 1 (mkTensor 0 [2; 1] [1; 1]) 1 [[5; 7]]).
  - simpl. lia.
  - simpl. lia.
  - simpl. lia.
  - reflexivity.
  - repeat constructor; lia.
Defined.

Example reduce_single_element_adds_start :
  CudaOps.reduce Z.add 1 (mkTensor 0 [2; 1] [1; 1]) 1 [[5; 7]]
  = (inr (mkTensor 1 [2; 1] [1; 1]), [[5; 7]; [15; 17]]).
Proof. vm_compute. reflexivity. Qed.

(** The rows of a (2, 3) tensor: two blocks, each storing at its own
    position. *)
Lemma reduce_single_chunk_stores_witness :
  ∃ out cells,
    CudaOps.reduce Z.add 0 (mkTensor 0 [2; 3] [3; 1]) 1 [[1; 2; 3; 4; 5; 6]]
    = (inr out, [[1; 2; 3; 4; 5; 6]] ++ [cells])
    ∧ storage out = 1%nat
    ∧ Z.of_nat (length cells) = size out.
Proof.
  destruct (reduce_single_chunk_stores (T:=Z) Z.add 0 (mkTensor 0 [2; 3] [3; 1]) 1
              [[1; 2; 3; 4; 5; 6]] 3) as (out & cells & Hrun & Hout & Hlen & _).
  - simpl. lia.
  - simpl. lia.
  - reflexivity.
  - unfold BLOCK_DIM. lia.
  - repeat constructor; lia.
  - repeat constructor; lia.
  - exists out, cells. split; [exact Hrun|]. split; [exact Hout|exact Hlen].
Defined.

(** A transposed view of a (3, 2) storage against a (3, 2) matrix. *)
Lemma matrix_multiply_2d_product_witness :
  ∃ out h',
    CudaOps.matrix_multiply (mkTensor 0 [2; 3] [1; 2]) (mkTensor 1 [3; 2] [2; 1])
      [[1; 2; 3; 4; 5; 6]; [1; 0; 0; 1; 1; 1]]
    = (inr out, h')
    ∧ shape out = [2; 2]
    ∧ ∀ i j, 0 <= i < 2 → 0 <= j < 2 →
        tensor_get h' out [i; j]
        = dot (λ k, tensor_get [[1; 2; 3; 4; 5; 6]; [1; 0; 0; 1; 1; 1]]
                      (mkTensor 0 [2; 3] [1; 2]) [i; k])
              (λ k, tensor_get [[1; 2; 3; 4; 5; 6]; [1; 0; 0; 1; 1; 1]]
                      (mkTensor 1 [3; 2] [2; 1]) [k; j]) 3.
Proof.
  destruct (matrix_multiply_2d_product (T:=Z)
              (mkTensor 0 [2; 3] [1; 2]) (mkTensor 1 [3; 2] [2; 1])
              [[1; 2; 3; 4; 5; 6]; [1; 0; 0; 1; 1; 1]] 2 3 2)
    as (out & h' & Hrun & Hshape & _ & Hget).
  - simpl. lia.
  - simpl. lia.
  - reflexivity.
  - reflexivity.
  - simpl. lia.
  - lia.
  - lia.
  - lia.
  - exists out, h'. split; [exact Hrun|]. split; [exact Hshape|exact Hget].
Defined.

Example matrix_multiply_transposed :
  CudaOps.matrix_multiply (mkTensor 0 [2; 3] [1; 2]) (mkTensor 1 [3; 2] [2; 1])
    [[1; 2; 3; 4; 5; 6]; [1; 0; 0; 1; 1; 1]]
  = (inr (mkTensor 4 [2; 2] [2; 1]),
     [[1; 2; 3; 4; 5; 6]; [1; 0; 0; 1; 1; 1];
      [1; 3; 5; 2; 4; 6]; [1; 0; 0; 1; 1; 1]; [6; 8; 8; 10]]).
Proof. vm_compute. reflexivity. Qed.

(** A vector against a batch of matrices. *)
Lemma matrix_multiply_rank_below_2_witness :
  CudaOps.matrix_multiply (mkTensor 0 [3] [1]) (mkTensor 1 [1; 3; 2] [6; 2; 1])
    [[1; 2; 3]; [1; 0; 0; 1; 1; 1]]
  = (inl IndexError, [[1; 2; 3]; [1; 0; 0; 1; 1; 1]]).
Proof.
  apply (matrix_multiply_rank_below_2 (T:=Z)
           (mkTensor 0 [3] [1]) (mkTensor 1 [1; 3; 2] [6; 2; 1])
           [[1; 2; 3]; [1; 0; 0; 1; 1; 1]]).
  - simpl. lia.
  - simpl. lia.
  - left. simpl. lia.
Defined.

(** One batch of [a] against two batches of [b], the blocks in the
    opposite order. *)
Lemma matrix_multiply_order_independent_witness :
  launch (reverse (CudaOps.blocks (1, 1, 2)))
    (λ blockIdx,
       tensor_matrix_multiply 2 [2; 2; 2] [4; 2; 1] 8 0 [1; 2; 5] [10; 5; 1]
         1 [2; 5; 2] [10; 2; 1] blockIdx (32, 32))
    [[1; 2; 3; 4; 5; 6; 7; 8; 9; 10];
     [1; 0; 0; 1; 1; 1; 2; 0; 0; 2; 1; 1; 1; 1; 1; 1; 1; 1; 1; 1];
     replicate 8 0]
  = launch (CudaOps.blocks (1, 1, 2))
      (λ blockIdx,
         tensor_matrix_multiply 2 [2; 2; 2] [4; 2; 1] 8 0 [1; 2; 5] [10; 5; 1]
           1 [2; 5; 2] [10; 2; 1] blockIdx (32, 32))
      [[1; 2; 3; 4; 5; 6; 7; 8; 9; 10];
       [1; 0; 0; 1; 1; 1; 2; 0; 0; 2; 1; 1; 1; 1; 1; 1; 1; 1; 1; 1];
       replicate 8 0].
Proof.
  assert (reverse (CudaOps.blocks (1, 1, 2)) ≡ₚ CudaOps.blocks (1, 1, 2)) as Hperm
    by apply reverse_Permutation.
  exact (matrix_multiply_order_independent (T:=Z)
           (mkTensor 0 [1; 2; 5] [10; 5; 1]) (mkTensor 1 [2; 5; 2] [10; 2; 1])
           [[1; 2; 3; 4; 5; 6; 7; 8; 9; 10];
            [1; 0; 0; 1; 1; 1; 2; 0; 0; 2; 1; 1; 1; 1; 1; 1; 1; 1; 1; 1]]
           1 2 2 5 2 (reverse (CudaOps.blocks (1, 1, 2)))
           (Nat.lt_0_succ 1) (Nat.lt_succ_diag_r 1) eq_refl eq_refl Hperm).
Defined.

(** Two matrices (2, 3) and (3, 2) over the integers. *)
Lemma zip_reduce_is_matrix_product_witness :
  ∃ prods h1 sums h2,
    CudaOps.zip Z.mul (CudaOps.view (mkTensor 0 [2; 3] [3; 1]) [2; 3; 1])
      (CudaOps.view (mkTensor 1 [3; 2] [2; 1]) [1; 3; 2])
      [[1; 2; 3; 4; 5; 6]; [1; 0; 0; 1; 1; 1]]
    = (inr prods, h1)
    ∧ CudaOps.reduce Z.add 0 prods 1 h1 = (inr sums, h2)
    ∧ shape sums = [2; 1; 2].
Proof.
  destruct (zip_reduce_is_matrix_product (T:=Z)
              (mkTensor 0 [2; 3] [3; 1]) (mkTensor 1 [3; 2] [2; 1])
              [[1; 2; 3; 4; 5; 6]; [1; 0; 0; 1; 1; 1]] 2 3 2)
    as (prods & h1 & sums & h2 & Hzip & Hred & Hshape & _).
  - intros x y z. simpl. lia.
  - intros x. simpl. lia.
  - intros x. simpl. lia.
  - simpl. lia.
  - simpl. lia.
  - reflexivity.
  - reflexivity.
  - reflexivity.
  - reflexivity.
  - simpl. lia.
  - lia.
  - lia.
  - lia.
  - exists prods, h1, sums, h2. split; [exact Hzip|]. split; [exact Hred|exact Hshape].
Defined.

(** Forty cells, two blocks: the second cell of the output. *)
Lemma sum_practice_launch_witness :
  load (launch (seqZ 0 (40 / 32 + 1)) (λ blockIdx, _sum_practice 1 0 40 blockIdx 32)
          [seqZ 1 40; [0; 0]]) 1 1
  = foldl (λ acc q, acc + load [seqZ 1 40; [0; 0]] 0 q) 0
      (seqZ (1 * 32) (Z.min 32 (40 - 1 * 32))).
Proof.
  apply (sum_practice_launch (T:=Z) (Scalar0:=Z_scalar) (λ x y z, eq_sym (Z.add_assoc x y z)) Z.add_0_l Z.add_0_r
           1%nat 0%nat 40 [seqZ 1 40; [0; 0]] [0; 0]).
  - reflexivity.
  - lia.
  - vm_compute. reflexivity.
  - lia.
  - lia.
Defined.

(** The numbers 1 to 40: the two trees, and the two sums they are. *)
Lemma sum_practice_sums_witness :
  sum_practice (mkTensor 0 [40] [1]) [seqZ 1 40]
  = Some (mkTensor 1 [2] [1],
          [seqZ 1 40;
           [tree_combine Z.add 0 (λ q, load [seqZ 1 40] 0 (0 * 32 + q)) (40 - 0 * 32) 5 0;
            tree_combine Z.add 0 (λ q, load [seqZ 1 40] 0 (1 * 32 + q)) (40 - 1 * 32) 5 0]])
  ∧ tree_combine Z.add 0 (λ q, load [seqZ 1 40] 0 (0 * 32 + q)) (40 - 0 * 32) 5 0
    = foldl (λ acc q, acc + load [seqZ 1 40] 0 q) 0 (seqZ 0 (Z.min 40 32))
  ∧ tree_combine Z.add 0 (λ q, load [seqZ 1 40] 0 (1 * 32 + q)) (40 - 1 * 32) 5 0
    = foldl (λ acc q, acc + load [seqZ 1 40] 0 q) 0 (seqZ 32 (40 - 32)).
Proof.
  destruct (sum_practice_sums (T:=Z) (Scalar0:=Z_scalar)
              (mkTensor 0 [40] [1]) [seqZ 1 40] 40) as [Hrun Hsum].
  - simpl. lia.
  - reflexivity.
  - lia.
  - split; [exact Hrun|]. apply Hsum; intros; simpl; lia.
Defined.

Example sum_practice_40 :
  sum_practice (mkTensor 0 [40] [1]) [seqZ 1 40]
  = Some (mkTensor 1 [2] [1], [seqZ 1 40; [528; 292]]).
Proof. vm_compute. reflexivity. Qed.

(** On [float64] cells the order of the tree shows, as in the reduction:
    [(1 + 2^53) + (1 - 2^53)] is 1, and the sum in the order of the cells
    is 0. *)
Example sum_practice_float64 :
  let cells := [PrimFloat.one; two53; PrimFloat.one; PrimFloat.opp two53] in
  sum_practice (mkTensor 0 [4] [1]) [cells]
  = Some (mkTensor 1 [2] [1], [cells; [PrimFloat.one; PrimFloat.zero]])
  ∧ foldl PrimFloat.add PrimFloat.zero cells = PrimFloat.zero.
Proof. split; vm_compute; reflexivity. Qed.

(** A rank-2 tensor is not unpacked as [(size,)]. *)
Example sum_practice_rank_2 :
  sum_practice (mkTensor 0 [2; 2] [2; 1]) [[1; 2; 3; 4]] = None.
Proof. reflexivity. Qed.

(** Two matrices (2, 2). *)
Lemma mm_practice_product_witness :
  ∃ out h',
    mm_practice (mkTensor 0 [2; 2] [2; 1]) (mkTensor 1 [2; 2] [2; 1])
      [[1; 2; 3; 4]; [5; 6; 7; 8]] = Some (out, h')
    ∧ shape out = [2; 2]
    ∧ ∀ i j, 0 <= i < 2 → 0 <= j < 2 →
        tensor_get h' out [i; j]
        = dot (λ k, load [[1; 2; 3; 4]; [5; 6; 7; 8]] 0 (i * 2 + k))
              (λ k, load [[1; 2; 3; 4]; [5; 6; 7; 8]] 1 (k * 2 + j)) 2.
Proof.
  destruct (mm_practice_product (T:=Z) (mkTensor 0 [2; 2] [2; 1])
              (mkTensor 1 [2; 2] [2; 1]) [[1; 2; 3; 4]; [5; 6; 7; 8]] 2 2)
    as (out & h' & Hrun & Hshape & _ & Hget).
  - simpl. lia.
  - simpl. lia.
  - reflexivity.
  - lia.
  - exists out, h'. split; [exact Hrun|]. split; [exact Hshape|exact Hget].
Defined.

Example mm_practice_2 :
  mm_practice (mkTensor 0 [2; 2] [2; 1]) (mkTensor 1 [2; 2] [2; 1])
    [[1; 2; 3; 4]; [5; 6; 7; 8]]
  = Some (mkTensor 2 [2; 2] [2; 1],
          [[1; 2; 3; 4]; [5; 6; 7; 8]; [19; 22; 43; 50]]).
Proof. vm_compute. reflexivity. Qed.

(** Matrices (33, 33). *)
Lemma mm_practice_beyond_tile_witness :
  mm_practice (mkTensor 0 [33; 33] [33; 1]) (mkTensor 1 [33; 33] [33; 1])
    [replicate 1089 1; replicate 1089 1] = None.
Proof.
  apply (mm_practice_beyond_tile (T:=Z) (mkTensor 0 [33; 33] [33; 1])
           (mkTensor 1 [33; 33] [33; 1]) [replicate 1089 1; replicate 1089 1] 33 33).
  - reflexivity.
  - lia.
Defined.

(** The same call evaluated, and the largest matrices that fit: the
    identity (32, 32) by itself. *)
Example mm_practice_33 :
  mm_practice (mkTensor 0 [33; 33] [33; 1]) (mkTensor 1 [33; 33] [33; 1])
    [replicate 1089 1; replicate 1089 1] = None.
Proof. vm_compute. reflexivity. Qed.

Example mm_practice_32 :
  let identity :=
    (i ← seqZ 0 32; j ← seqZ 0 32; [if bool_decide (i = j) then 1 else 0]) in
  mm_practice (mkTensor 0 [32; 32] [32; 1]) (mkTensor 0 [32; 32] [32; 1]) [identity]
  = Some (mkTensor 1 [32; 32] [32; 1], [identity; identity]).
Proof. vm_compute. reflexivity. Qed.

(** Twelve epochs of a loop whose loss is the number of updates made so
    far: the logger is called at epochs 10 and 12. *)
Example train_12_epochs :
  (train (λ params : Z, (params, params)) Z.succ (λ out : Z, out) 0 12).2
  = [(10, 9, 9, [0; 1; 2; 3; 4; 5; 6; 7; 8; 9]);
     (12, 11, 11, [0; 1; 2; 3; 4; 5; 6; 7; 8; 9; 10; 11])].
Proof. vm_compute. reflexivity. Qed.
